(** * Rule engines of the board-game plugin: a shallow embedding

    The five game engines of [src/games] are single-threaded state machines
    over one session record each.  Every engine lives in a module of its own
    that keeps the names of the Python source; a method [m] of a session class
    becomes a function from the session (and the arguments) to the returned
    tuple paired with the session after the call. *)

From stdpp Require Import base option list gmap strings pretty.
From Stdlib Require Import ZArith Lia Floats.

#[local] Open Scope nat_scope.
#[local] Set Warnings "-clear-no-such-hyp,-level-tolerance".

(** ** Conventions shared by the engines *)

(** What a session method hands back: the success flag and the message of
    the Python tuple, and the session as the call leaves it. *)
Record outcome (S : Type) := Outcome { ok : bool; msg : string; after : S }.
Arguments Outcome {S} _ _ _.
Arguments ok {S} _.
Arguments msg {S} _.
Arguments after {S} _.

(** [float(n)] for a non-negative machine-size integer. *)
Definition float_of_nat (n : nat) : float :=
  PrimFloat.of_uint63 (Uint63.of_Z (Z.of_nat n)).

(** [x in zs] on a Python list. *)
Definition py_in `{EqDecision A} (x : A) (zs : list A) : bool :=
  bool_decide (x ∈ zs).

(** ** The go engine ([src/games/go.py]) *)
Module Go.

Inductive Stone := EMPTY | BLACK | WHITE.

#[global] Instance Stone_eq_dec : EqDecision Stone.
Proof. solve_decision. Defined.

Definition value (s : Stone) : Z :=
  match s with EMPTY => 0 | BLACK => 1 | WHITE => 2 end.

Definition of_value (z : Z) : Stone :=
  if decide (z = 1)%Z then BLACK else if decide (z = 2)%Z then WHITE else EMPTY.

#[global] Instance Stone_countable : Countable Stone.
Proof. apply (inj_countable' value of_value). by intros []. Defined.

Record GoGame := mkGo {
  board_size : nat;
  player_black : string;
  player_white : option string;
  board : list Stone;
  current_turn : Stone;
  captured_black : Z;
  captured_white : Z;
  move_count : Z;
  last_move : option nat;
  ko_point : option nat;
  is_finished : bool;
  winner : option Stone;
  consecutive_passes : Z;
  score_black : float;
  score_white : float;
  komi : float;
  board_history : list (list Z);
  last_board_state : option (list Stone);
  last_captured : Z;
  last_player : option Stone;
  can_undo : bool;
  score_request_by : option string
}.

(** Attribute assignments [self.f = v]. *)
Definition set_player_white v g :=
  let 'mkGo a b _ d e f h i j k l m n o p q r s t u w x := g in
  mkGo a b v d e f h i j k l m n o p q r s t u w x.
Definition set_board v g :=
  let 'mkGo a b c _ e f h i j k l m n o p q r s t u w x := g in
  mkGo a b c v e f h i j k l m n o p q r s t u w x.
Definition set_current_turn v g :=
  let 'mkGo a b c d _ f h i j k l m n o p q r s t u w x := g in
  mkGo a b c d v f h i j k l m n o p q r s t u w x.
Definition set_captured_black v g :=
  let 'mkGo a b c d e _ h i j k l m n o p q r s t u w x := g in
  mkGo a b c d e v h i j k l m n o p q r s t u w x.
Definition set_captured_white v g :=
  let 'mkGo a b c d e f _ i j k l m n o p q r s t u w x := g in
  mkGo a b c d e f v i j k l m n o p q r s t u w x.
Definition set_move_count v g :=
  let 'mkGo a b c d e f h _ j k l m n o p q r s t u w x := g in
  mkGo a b c d e f h v j k l m n o p q r s t u w x.
Definition set_last_move v g :=
  let 'mkGo a b c d e f h i _ k l m n o p q r s t u w x := g in
  mkGo a b c d e f h i v k l m n o p q r s t u w x.
Definition set_ko_point v g :=
  let 'mkGo a b c d e f h i j _ l m n o p q r s t u w x := g in
  mkGo a b c d e f h i j v l m n o p q r s t u w x.
Definition set_is_finished v g :=
  let 'mkGo a b c d e f h i j k _ m n o p q r s t u w x := g in
  mkGo a b c d e f h i j k v m n o p q r s t u w x.
Definition set_winner v g :=
  let 'mkGo a b c d e f h i j k l _ n o p q r s t u w x := g in
  mkGo a b c d e f h i j k l v n o p q r s t u w x.
Definition set_consecutive_passes v g :=
  let 'mkGo a b c d e f h i j k l m _ o p q r s t u w x := g in
  mkGo a b c d e f h i j k l m v o p q r s t u w x.
Definition set_score_black v g :=
  let 'mkGo a b c d e f h i j k l m n _ p q r s t u w x := g in
  mkGo a b c d e f h i j k l m n v p q r s t u w x.
Definition set_score_white v g :=
  let 'mkGo a b c d e f h i j k l m n o _ q r s t u w x := g in
  mkGo a b c d e f h i j k l m n o v q r s t u w x.
Definition set_board_history v g :=
  let 'mkGo a b c d e f h i j k l m n o p q _ s t u w x := g in
  mkGo a b c d e f h i j k l m n o p q v s t u w x.
Definition set_last_board_state v g :=
  let 'mkGo a b c d e f h i j k l m n o p q r _ t u w x := g in
  mkGo a b c d e f h i j k l m n o p q r v t u w x.
Definition set_last_captured v g :=
  let 'mkGo a b c d e f h i j k l m n o p q r s _ u w x := g in
  mkGo a b c d e f h i j k l m n o p q r s v u w x.
Definition set_last_player v g :=
  let 'mkGo a b c d e f h i j k l m n o p q r s t _ w x := g in
  mkGo a b c d e f h i j k l m n o p q r s t v w x.
Definition set_can_undo v g :=
  let 'mkGo a b c d e f h i j k l m n o p q r s t u _ x := g in
  mkGo a b c d e f h i j k l m n o p q r s t u v x.
Definition set_score_request_by v g :=
  let 'mkGo a b c d e f h i j k l m n o p q r s t u w _ := g in
  mkGo a b c d e f h i j k l m n o p q r s t u w v.

(** [GoGame(board_size=n, player_black=p)] with [__post_init__]:
    the defaults of the dataclass and an empty [n]x[n] board. *)
Definition new_game (n : nat) (p : string) : GoGame :=
  mkGo n p None (replicate (n * n) EMPTY) BLACK 0 0 0 None None false None 0
       0%float 0%float 6.5%float [] None 0 None false None.

Definition _pos_to_xy (n pos : nat) : nat * nat := (pos mod n, pos / n).
Definition _xy_to_pos (n x y : nat) : nat := y * n + x.

Definition _get_neighbors (n pos : nat) : list nat :=
  let '(x, y) := _pos_to_xy n pos in
  (if decide (0 < x) then [_xy_to_pos n (x - 1) y] else []) ++
  (if decide (x < n - 1) then [_xy_to_pos n (x + 1) y] else []) ++
  (if decide (0 < y) then [_xy_to_pos n x (y - 1)] else []) ++
  (if decide (y < n - 1) then [_xy_to_pos n x (y + 1)] else []).

(** The [while to_check] loop of [_find_group].  The work list is kept with
    its top first: [pop()] takes the head, and the [append]s of one round
    leave the last neighbour on top.  [None] stands for a loop that has not
    finished within [fuel] rounds. *)
Fixpoint find_group_loop (fuel : nat) (b : list Stone) (n : nat) (stone : Stone)
    (group : gset nat) (to_check : list nat) : option (gset nat) :=
  match to_check with
  | [] => Some group
  | current :: rest =>
    match fuel with
    | O => None
    | S fuel' =>
      if decide (current ∈ group) then find_group_loop fuel' b n stone group rest
      else if decide (b !! current = Some stone) then
        let group' := group ∪ {[current]} in
        let pushed := filter (λ nb, nb ∉ group') (_get_neighbors n current) in
        find_group_loop fuel' b n stone group' (reverse pushed ++ rest)
      else find_group_loop fuel' b n stone group rest
    end
  end.

(** Rounds that always suffice on an [n]x[n] board: every round pops one
    entry, and at most four are pushed for each of the [n * n] cells. *)
Definition flood_fuel (n : nat) : nat := 4 * (n * n) + 2.

Definition _find_group (b : list Stone) (n pos : nat) : gset nat :=
  match b !! pos with
  | Some EMPTY | None => ∅
  | Some stone => default ∅ (find_group_loop (flood_fuel n) b n stone ∅ [pos])
  end.

Definition liberties_of (b : list Stone) (n : nat) (group : gset nat) : gset nat :=
  foldl (λ libs pos,
           foldl (λ libs nb, if decide (b !! nb = Some EMPTY) then libs ∪ {[nb]} else libs)
                 libs (_get_neighbors n pos))
        ∅ (elements group).

Definition _count_liberties (b : list Stone) (n : nat) (group : gset nat) : nat :=
  size (liberties_of b n group).

(** Returns the board after the removal and the number of stones taken. *)
Definition _capture_stones (b : list Stone) (group : gset nat) : list Stone * nat :=
  (foldl (λ b pos, <[pos := EMPTY]> b) b (elements group), size group).

Definition _get_opponent (stone : Stone) : Stone :=
  if decide (stone = BLACK) then WHITE else BLACK.

Definition _get_board_hash (b : list Stone) : list Z := value <$> b.

Definition join (g : GoGame) (player_id : string) : bool * GoGame :=
  if decide (player_white g ≠ None) then (false, g)
  else if decide (player_id = player_black g) then (false, g)
  else (true, set_player_white (Some player_id) g).

(** One round of the capture loop of [make_move]: the board and the running
    count [captured]. *)
Definition capture_round (n : nat) (opponent : Stone)
    (acc : list Stone * Z) (neighbor : nat) : list Stone * Z :=
  let '(b, captured) := acc in
  if decide (b !! neighbor = Some opponent) then
    let group := _find_group b n neighbor in
    if decide (_count_liberties b n group = 0) then
      let '(b', k) := _capture_stones b group in (b', (captured + Z.of_nat k)%Z)
    else acc
  else acc.

Definition in_range (n : nat) (x y : Z) : bool :=
  bool_decide (0 ≤ x < Z.of_nat n ∧ 0 ≤ y < Z.of_nat n)%Z.

Definition make_move (g : GoGame) (player_id : string) (x y : Z) : outcome GoGame :=
  if is_finished g then Outcome false "游戏已结束" g
  else if decide (player_white g = None) then Outcome false "等待对手加入" g
  else if decide (current_turn g = BLACK ∧ player_id ≠ player_black g)
    then Outcome false "现在是黑方回合" g
  else if decide (current_turn g = WHITE ∧ Some player_id ≠ player_white g)
    then Outcome false "现在是白方回合" g
  else if negb (in_range (board_size g) x y)
    then Outcome false ("坐标超出范围（1-" +:+ pretty (board_size g) +:+ "）") g
  else
    let n := board_size g in
    let pos := _xy_to_pos n (Z.to_nat x) (Z.to_nat y) in
    if decide (board g !! pos ≠ Some EMPTY) then Outcome false "该位置已有棋子" g
    else
      let saved_board := board g in
      let saved_captured_black := captured_black g in
      let saved_captured_white := captured_white g in
      let stone := current_turn g in
      let opponent := _get_opponent stone in
      let g := set_board (<[pos := stone]> (board g)) g in
      let '(b, captured) :=
        foldl (capture_round n opponent) (board g, 0%Z) (_get_neighbors n pos) in
      let g := set_board b g in
      let my_group := _find_group (board g) n pos in
      if decide (_count_liberties (board g) n my_group = 0) then
        Outcome false "禁止自杀（落子后无气）" (set_board saved_board g)
      else
        let new_hash := _get_board_hash (board g) in
        if py_in new_hash (board_history g) then
          Outcome false "禁止全局同型重复（超级劫规则）" (set_board saved_board g)
        else
          let g := if decide (stone = BLACK)
                   then set_captured_white (captured_white g + captured)%Z g
                   else set_captured_black (captured_black g + captured)%Z g in
          let g := set_board_history (board_history g ++ [new_hash]) g in
          let g := set_last_board_state (Some saved_board) g in
          let g := set_last_captured captured g in
          let g := set_last_player (Some stone) g in
          let g := set_can_undo true g in
          let g := set_last_move (Some pos) g in
          let g := set_move_count (move_count g + 1)%Z g in
          let g := set_consecutive_passes 0%Z g in
          let g := set_ko_point None g in
          let g := set_score_request_by None g in
          let g := set_current_turn opponent g in
          Outcome true "落子成功" g.

(** The [while queue] loop of [count_territory] for one empty region: the
    region, the cells marked visited and the colours met on its border.
    Same convention for the work list and for [fuel] as [find_group_loop]. *)
Fixpoint region_loop (fuel : nat) (b : list Stone) (n : nat)
    (region visited : gset nat) (borders : gset Stone) (queue : list nat)
    : option (gset nat * gset nat * gset Stone) :=
  match queue with
  | [] => Some (region, visited, borders)
  | curr :: rest =>
    match fuel with
    | O => None
    | S fuel' =>
      if decide (curr ∈ region) then region_loop fuel' b n region visited borders rest
      else if decide (b !! curr = Some EMPTY) then
        let region' := region ∪ {[curr]} in
        let pushed := filter (λ nb, nb ∉ region') (_get_neighbors n curr) in
        region_loop fuel' b n region' (visited ∪ {[curr]}) borders (reverse pushed ++ rest)
      else
        let borders' := match b !! curr with
                        | Some s => borders ∪ {[s]}
                        | None => borders
                        end in
        region_loop fuel' b n region visited borders' rest
    end
  end.

(** One round of the scan over all cells in [count_territory]: the visited
    set and the two territory counts. *)
Definition territory_round (b : list Stone) (n : nat)
    (acc : gset nat * nat * nat) (pos : nat) : gset nat * nat * nat :=
  let '(visited, black_territory, white_territory) := acc in
  if decide (pos ∈ visited ∨ b !! pos ≠ Some EMPTY) then acc
  else
    match region_loop (flood_fuel n) b n ∅ visited ∅ [pos] with
    | None => acc
    | Some (region, visited', borders) =>
      if decide (borders = {[BLACK]}) then
        (visited', black_territory + size region, white_territory)
      else if decide (borders = {[WHITE]}) then
        (visited', black_territory, white_territory + size region)
      else (visited', black_territory, white_territory)
    end.

Definition count_stones (b : list Stone) (n : nat) (s : Stone) : nat :=
  length (filter (λ pos, b !! pos = Some s) (seq 0 (n * n))).

(** The two scores of [count_territory]; the dictionary of details, which
    only the rendering reads, is left out. *)
Definition count_territory (g : GoGame) : float * float :=
  let n := board_size g in
  let b := board g in
  let black_stones := count_stones b n BLACK in
  let white_stones := count_stones b n WHITE in
  let '(_, black_territory, white_territory) :=
    foldl (territory_round b n) (∅, 0, 0) (seq 0 (n * n)) in
  (float_of_nat (black_stones + black_territory),
   PrimFloat.add (float_of_nat (white_stones + white_territory)) (komi g)).

Definition _finish_with_score (g : GoGame) : GoGame :=
  let '(score_b, score_w) := count_territory g in
  let g := set_score_black score_b g in
  let g := set_score_white score_w g in
  if PrimFloat.ltb score_w score_b then set_winner (Some BLACK) g
  else if PrimFloat.ltb score_b score_w then set_winner (Some WHITE) g
  else g.

Definition pass_turn (g : GoGame) (player_id : string) : outcome GoGame :=
  if is_finished g then Outcome false "游戏已结束" g
  else if decide (player_white g = None) then Outcome false "等待对手加入" g
  else if decide (current_turn g = BLACK ∧ player_id ≠ player_black g)
    then Outcome false "现在是黑方回合" g
  else if decide (current_turn g = WHITE ∧ Some player_id ≠ player_white g)
    then Outcome false "现在是白方回合" g
  else
    let g := set_consecutive_passes (consecutive_passes g + 1)%Z g in
    let g := set_ko_point None g in
    let g := set_can_undo false g in
    let g := set_score_request_by None g in
    let g := set_current_turn (_get_opponent (current_turn g)) g in
    if decide (2 ≤ consecutive_passes g)%Z then
      let g := set_is_finished true g in
      let g := _finish_with_score g in
      Outcome true "双方连续虚着，游戏结束" g
    else Outcome true "虚着" g.

(** [last_player] is an optional colour and [current_turn] a colour.  The
    engine sets [can_undo] only together with [last_player]; for a session
    built by hand with [can_undo] and no [last_player], where Python would
    store [None] in [current_turn], the model stores [EMPTY]. *)
Definition undo (g : GoGame) (player_id : string) : outcome GoGame :=
  if is_finished g then Outcome false "游戏已结束" g
  else
    match last_board_state g with
    | None => Outcome false "当前无法悔棋" g
    | Some saved =>
      if negb (can_undo g) then Outcome false "当前无法悔棋" g
      else if decide (last_player g = Some BLACK ∧ player_id ≠ player_black g)
        then Outcome false "只有刚落子的玩家可以请求悔棋" g
      else if decide (last_player g = Some WHITE ∧ Some player_id ≠ player_white g)
        then Outcome false "只有刚落子的玩家可以请求悔棋" g
      else
        let g := set_board saved g in
        let g := if decide (last_player g = Some BLACK)
                 then set_captured_white (captured_white g - last_captured g)%Z g
                 else set_captured_black (captured_black g - last_captured g)%Z g in
        let g := match board_history g with
                 | [] => g
                 | _ :: _ => set_board_history (removelast (board_history g)) g
                 end in
        let g := set_current_turn (default EMPTY (last_player g)) g in
        let g := set_move_count (move_count g - 1)%Z g in
        let g := set_last_move None g in
        let g := set_can_undo false g in
        let g := set_last_board_state None g in
        Outcome true "悔棋成功" g
    end.

Definition request_score (g : GoGame) (player_id : string) : outcome GoGame :=
  if is_finished g then Outcome false "游戏已结束" g
  else if decide (¬ (player_id = player_black g ∨ Some player_id = player_white g))
    then Outcome false "你不是游戏参与者" g
  else
    match score_request_by g with
    | None => Outcome true "request_pending" (set_score_request_by (Some player_id) g)
    | Some requester =>
      if decide (requester = player_id)
      then Outcome false "你已经请求过计分了，等待对方确认" g
      else
        let g := set_is_finished true g in
        let g := _finish_with_score g in
        Outcome true "agreed" g
    end.

Definition reject_score (g : GoGame) (player_id : string) : outcome GoGame :=
  match score_request_by g with
  | None => Outcome false "没有待处理的计分请求" g
  | Some requester =>
    if decide (player_id = requester) then Outcome false "你不能拒绝自己的请求" g
    else Outcome true "已拒绝计分请求，游戏继续" (set_score_request_by None g)
  end.

Definition surrender (g : GoGame) (player_id : string) : outcome GoGame :=
  if is_finished g then Outcome false "游戏已结束" g
  else if decide (player_id = player_black g) then
    Outcome true "黑方认输" (set_is_finished true (set_winner (Some WHITE) g))
  else if decide (Some player_id = player_white g) then
    Outcome true "白方认输" (set_is_finished true (set_winner (Some BLACK) g))
  else Outcome false "你不是游戏参与者" g.

(** The operations a session receives after its creation. *)
Inductive op :=
| OpJoin (player_id : string)
| OpMove (player_id : string) (x y : Z)
| OpPass (player_id : string)
| OpUndo (player_id : string)
| OpRequestScore (player_id : string)
| OpRejectScore (player_id : string)
| OpSurrender (player_id : string).

Definition apply_op (g : GoGame) (o : op) : GoGame :=
  match o with
  | OpJoin p => snd (join g p)
  | OpMove p x y => after (make_move g p x y)
  | OpPass p => after (pass_turn g p)
  | OpUndo p => after (undo g p)
  | OpRequestScore p => after (request_score g p)
  | OpRejectScore p => after (reject_score g p)
  | OpSurrender p => after (surrender g p)
  end.

(** Sessions the engine can be in: [GoManager.create_game] builds a board of
    size 9, 13 or 19, and every later change goes through one operation. *)
Inductive reachable : GoGame → Prop :=
| reach_create n p : n ∈ [9; 13; 19] → reachable (new_game n p)
| reach_op g o : reachable g → reachable (apply_op g o).

(** The letters of the columns: nineteen of them, without I. *)
Definition COLUMN_LABELS : string := "ABCDEFGHJKLMNOPQRST".

(** [f"{COLUMN_LABELS[x]}{y + 1}"]; [None] stands for the [IndexError] of an
    index beyond the last letter. *)
Definition get_coordinate_label (n pos : nat) : option string :=
  let '(x, y) := _pos_to_xy n pos in
  match String.get x COLUMN_LABELS with
  | Some letter => Some (String letter (pretty (y + 1)))
  | None => None
  end.

End Go.

(** ** The xiangqi engine ([src/games/xiangqi.py]) *)
Module Xiangqi.

Inductive Piece :=
| EMPTY
| R_KING | R_ADVISOR | R_ELEPHANT | R_HORSE | R_CHARIOT | R_CANNON | R_SOLDIER
| B_KING | B_ADVISOR | B_ELEPHANT | B_HORSE | B_CHARIOT | B_CANNON | B_SOLDIER.

Inductive Side := RED | BLACK.

#[global] Instance Piece_eq_dec : EqDecision Piece.
Proof. solve_decision. Defined.

#[global] Instance Side_eq_dec : EqDecision Side.
Proof. solve_decision. Defined.

Definition value (p : Piece) : Z :=
  match p with
  | EMPTY => 0
  | R_KING => 1 | R_ADVISOR => 2 | R_ELEPHANT => 3 | R_HORSE => 4
  | R_CHARIOT => 5 | R_CANNON => 6 | R_SOLDIER => 7
  | B_KING => 8 | B_ADVISOR => 9 | B_ELEPHANT => 10 | B_HORSE => 11
  | B_CHARIOT => 12 | B_CANNON => 13 | B_SOLDIER => 14
  end.

Definition INITIAL_BOARD : list Piece :=
  [R_CHARIOT; R_HORSE; R_ELEPHANT; R_ADVISOR; R_KING;
   R_ADVISOR; R_ELEPHANT; R_HORSE; R_CHARIOT;
   EMPTY; EMPTY; EMPTY; EMPTY; EMPTY; EMPTY; EMPTY; EMPTY; EMPTY;
   EMPTY; R_CANNON; EMPTY; EMPTY; EMPTY; EMPTY; EMPTY; R_CANNON; EMPTY;
   R_SOLDIER; EMPTY; R_SOLDIER; EMPTY; R_SOLDIER; EMPTY; R_SOLDIER; EMPTY; R_SOLDIER;
   EMPTY; EMPTY; EMPTY; EMPTY; EMPTY; EMPTY; EMPTY; EMPTY; EMPTY;
   EMPTY; EMPTY; EMPTY; EMPTY; EMPTY; EMPTY; EMPTY; EMPTY; EMPTY;
   B_SOLDIER; EMPTY; B_SOLDIER; EMPTY; B_SOLDIER; EMPTY; B_SOLDIER; EMPTY; B_SOLDIER;
   EMPTY; B_CANNON; EMPTY; EMPTY; EMPTY; EMPTY; EMPTY; B_CANNON; EMPTY;
   EMPTY; EMPTY; EMPTY; EMPTY; EMPTY; EMPTY; EMPTY; EMPTY; EMPTY;
   B_CHARIOT; B_HORSE; B_ELEPHANT; B_ADVISOR; B_KING;
   B_ADVISOR; B_ELEPHANT; B_HORSE; B_CHARIOT].

Definition get_piece_side (piece : Piece) : option Side :=
  if decide (piece = EMPTY) then None
  else Some (if decide (value piece ≤ 7)%Z then RED else BLACK).

Record XiangqiGame := mkXiangqi {
  player_red : string;
  player_black : option string;
  board : list Piece;
  current_turn : Side;
  move_count : Z;
  last_move : option (Z * Z);
  is_finished : bool;
  winner : option Side;
  in_check : bool
}.

Definition set_player_black v g :=
  let 'mkXiangqi a _ c d e f h i j := g in mkXiangqi a v c d e f h i j.
Definition set_board v g :=
  let 'mkXiangqi a b _ d e f h i j := g in mkXiangqi a b v d e f h i j.
Definition set_current_turn v g :=
  let 'mkXiangqi a b c _ e f h i j := g in mkXiangqi a b c v e f h i j.
Definition set_move_count v g :=
  let 'mkXiangqi a b c d _ f h i j := g in mkXiangqi a b c d v f h i j.
Definition set_last_move v g :=
  let 'mkXiangqi a b c d e _ h i j := g in mkXiangqi a b c d e v h i j.
Definition set_is_finished v g :=
  let 'mkXiangqi a b c d e f _ i j := g in mkXiangqi a b c d e f v i j.
Definition set_winner v g :=
  let 'mkXiangqi a b c d e f h _ j := g in mkXiangqi a b c d e f h v j.
Definition set_in_check v g :=
  let 'mkXiangqi a b c d e f h i _ := g in mkXiangqi a b c d e f h i v.

(** [XiangqiGame(player_red=p)] with [__post_init__]. *)
Definition new_game (p : string) : XiangqiGame :=
  mkXiangqi p None INITIAL_BOARD RED 0 None false None false.

(** Rows and columns are integers, since the move tests subtract them. *)
Definition _pos_to_rc (pos : nat) : Z * Z := (Z.of_nat (pos / 9), Z.of_nat (pos mod 9)).
Definition _rc_to_pos (row col : Z) : nat := Z.to_nat (row * 9 + col).

Definition _is_valid_pos (row col : Z) : bool :=
  bool_decide (0 ≤ row < 10 ∧ 0 ≤ col < 9)%Z.

Definition _get_opponent (side : Side) : Side :=
  if decide (side = RED) then BLACK else RED.

(** [board[pos]] for an index inside the board; the engine only builds
    boards of 90 cells and only indexes them below 90. *)
Definition piece_at (b : list Piece) (pos : nat) : Piece := default EMPTY (b !! pos).

Definition join (g : XiangqiGame) (player_id : string) : bool * XiangqiGame :=
  if decide (player_black g ≠ None) then (false, g)
  else if decide (player_id = player_red g) then (false, g)
  else (true, set_player_black (Some player_id) g).

Definition _find_king (b : list Piece) (side : Side) : option nat :=
  let king := if decide (side = RED) then R_KING else B_KING in
  fst <$> list_find (λ piece, piece = king) b.

(** The side argument is the side of a piece, which is optional. *)
Definition _is_in_palace (row col : Z) (side : option Side) : bool :=
  if decide (col < 3 ∨ 5 < col)%Z then false
  else if decide (side = Some RED) then bool_decide (0 ≤ row ≤ 2)%Z
  else bool_decide (7 ≤ row ≤ 9)%Z.

Definition _is_across_river (row : Z) (side : option Side) : bool :=
  if decide (side = Some RED) then bool_decide (5 ≤ row)%Z
  else bool_decide (row ≤ 4)%Z.

(** [range(a, b)] over the integers. *)
Definition py_range (a b : Z) : list Z := (λ i, (a + Z.of_nat i)%Z) <$> seq 0 (Z.to_nat (b - a)).

Definition _get_pieces_between (b : list Piece) (from_pos to_pos : nat) : nat :=
  let '(from_row, from_col) := _pos_to_rc from_pos in
  let '(to_row, to_col) := _pos_to_rc to_pos in
  if decide (from_row = to_row) then
    let start_col := (Z.min from_col to_col + 1)%Z in
    let end_col := Z.max from_col to_col in
    length (filter (λ c, piece_at b (_rc_to_pos from_row c) ≠ EMPTY)
                   (py_range start_col end_col))
  else if decide (from_col = to_col) then
    let start_row := (Z.min from_row to_row + 1)%Z in
    let end_row := Z.max from_row to_row in
    length (filter (λ r, piece_at b (_rc_to_pos r from_col) ≠ EMPTY)
                   (py_range start_row end_row))
  else 0.

Definition _is_valid_piece_move (b : list Piece) (from_pos to_pos : nat) : bool :=
  let piece := piece_at b from_pos in
  if decide (piece = EMPTY) then false
  else
    let '(from_row, from_col) := _pos_to_rc from_pos in
    let '(to_row, to_col) := _pos_to_rc to_pos in
    if decide (from_pos = to_pos) then false
    else
      let target := piece_at b to_pos in
      if decide (target ≠ EMPTY ∧ get_piece_side piece = get_piece_side target) then false
      else
        let side := get_piece_side piece in
        let dr := (to_row - from_row)%Z in
        let dc := (to_col - from_col)%Z in
        if decide (piece ∈ [R_KING; B_KING]) then
          if negb (_is_in_palace to_row to_col side) then false
          else if decide (Z.abs dr + Z.abs dc ≠ 1)%Z then false
          else true
        else if decide (piece ∈ [R_ADVISOR; B_ADVISOR]) then
          if negb (_is_in_palace to_row to_col side) then false
          else if decide (Z.abs dr ≠ 1 ∨ Z.abs dc ≠ 1)%Z then false
          else true
        else if decide (piece ∈ [R_ELEPHANT; B_ELEPHANT]) then
          if _is_across_river to_row side then false
          else if decide (Z.abs dr ≠ 2 ∨ Z.abs dc ≠ 2)%Z then false
          else
            let eye_row := (from_row + dr / 2)%Z in
            let eye_col := (from_col + dc / 2)%Z in
            if decide (piece_at b (_rc_to_pos eye_row eye_col) ≠ EMPTY) then false
            else true
        else if decide (piece ∈ [R_HORSE; B_HORSE]) then
          if negb (bool_decide ((Z.abs dr = 2 ∧ Z.abs dc = 1) ∨
                                (Z.abs dr = 1 ∧ Z.abs dc = 2))%Z) then false
          else
            let '(leg_row, leg_col) :=
              if decide (Z.abs dr = 2)%Z
              then ((from_row + (if decide (0 < dr)%Z then 1 else -1))%Z, from_col)
              else (from_row, (from_col + (if decide (0 < dc)%Z then 1 else -1))%Z) in
            if decide (piece_at b (_rc_to_pos leg_row leg_col) ≠ EMPTY) then false
            else true
        else if decide (piece ∈ [R_CHARIOT; B_CHARIOT]) then
          if decide (dr ≠ 0 ∧ dc ≠ 0)%Z then false
          else if decide (0 < _get_pieces_between b from_pos to_pos) then false
          else true
        else if decide (piece ∈ [R_CANNON; B_CANNON]) then
          if decide (dr ≠ 0 ∧ dc ≠ 0)%Z then false
          else
            let pieces_between := _get_pieces_between b from_pos to_pos in
            if decide (target = EMPTY) then bool_decide (pieces_between = 0)
            else bool_decide (pieces_between = 1)
        else if decide (piece ∈ [R_SOLDIER; B_SOLDIER]) then
          if decide (side = Some RED) then
            if negb (_is_across_river from_row side)
            then bool_decide (dr = 1 ∧ dc = 0)%Z
            else if decide (dr = 1 ∧ dc = 0)%Z then true
            else if decide (dr = 0 ∧ Z.abs dc = 1)%Z then true
            else false
          else
            if negb (_is_across_river from_row side)
            then bool_decide (dr = -1 ∧ dc = 0)%Z
            else if decide (dr = -1 ∧ dc = 0)%Z then true
            else if decide (dr = 0 ∧ Z.abs dc = 1)%Z then true
            else false
        else false.

Definition _kings_facing (b : list Piece) : bool :=
  match _find_king b RED, _find_king b BLACK with
  | Some red_king_pos, Some black_king_pos =>
    let '(red_row, red_col) := _pos_to_rc red_king_pos in
    let '(black_row, black_col) := _pos_to_rc black_king_pos in
    if decide (red_col ≠ black_col) then false
    else
      forallb (λ r, bool_decide (piece_at b (_rc_to_pos r red_col) = EMPTY))
              (py_range (red_row + 1) black_row)
  | _, _ => false
  end.

Definition _is_in_check (b : list Piece) (side : Side) : bool :=
  match _find_king b side with
  | None => true
  | Some king_pos =>
    let opponent := _get_opponent side in
    if existsb (λ '(i, piece),
                  bool_decide (get_piece_side piece = Some opponent) &&
                  _is_valid_piece_move b i king_pos)
               (imap (λ i piece, (i, piece)) b)
    then true
    else if _kings_facing b then true
    else false
  end.

(** The trial of one target cell in [_has_valid_move]: the move is made on
    the board, the check test is run, and the two cells are written back.
    The result is the answer of the test with the board as it is left. *)
Definition try_move (b : list Piece) (side : Side) (from_pos : nat) (piece : Piece)
    (to_pos : nat) : bool * list Piece :=
  let original := piece_at b to_pos in
  let b := <[to_pos := piece]> b in
  let b := <[from_pos := EMPTY]> b in
  let still_in_check := _is_in_check b side || _kings_facing b in
  let b := <[from_pos := piece]> b in
  let b := <[to_pos := original]> b in
  (still_in_check, b).

(** The loop over [to_pos]; [true] stands for the [return True] that
    leaves both loops. *)
Fixpoint targets_loop (b : list Piece) (side : Side) (from_pos : nat) (piece : Piece)
    (targets : list nat) : bool * list Piece :=
  match targets with
  | [] => (false, b)
  | to_pos :: rest =>
    if _is_valid_piece_move b from_pos to_pos then
      let '(still_in_check, b) := try_move b side from_pos piece to_pos in
      if negb still_in_check then (true, b)
      else targets_loop b side from_pos piece rest
    else targets_loop b side from_pos piece rest
  end.

(** The loop over the cells of the board. *)
Fixpoint sources_loop (b : list Piece) (side : Side) (sources : list nat)
    : bool * list Piece :=
  match sources with
  | [] => (false, b)
  | from_pos :: rest =>
    let piece := piece_at b from_pos in
    if decide (get_piece_side piece ≠ Some side) then sources_loop b side rest
    else
      let '(found, b) := targets_loop b side from_pos piece (seq 0 90) in
      if found then (true, b) else sources_loop b side rest
  end.

(** The answer together with the board the trials leave behind. *)
Definition _has_valid_move (b : list Piece) (side : Side) : bool * list Piece :=
  sources_loop b side (seq 0 (length b)).

Definition make_move (g : XiangqiGame) (player_id : string) (from_pos to_pos : Z)
    : outcome XiangqiGame :=
  if is_finished g then Outcome false "游戏已结束" g
  else if decide (player_black g = None) then Outcome false "等待对手加入" g
  else if decide (current_turn g = RED ∧ player_id ≠ player_red g)
    then Outcome false "现在是红方回合" g
  else if decide (current_turn g = BLACK ∧ Some player_id ≠ player_black g)
    then Outcome false "现在是黑方回合" g
  else if negb (bool_decide (0 ≤ from_pos < 90 ∧ 0 ≤ to_pos < 90)%Z)
    then Outcome false "位置超出范围" g
  else
    let from_n := Z.to_nat from_pos in
    let to_n := Z.to_nat to_pos in
    let piece := piece_at (board g) from_n in
    if decide (piece = EMPTY) then Outcome false "起始位置没有棋子" g
    else if decide (get_piece_side piece ≠ Some (current_turn g))
      then Outcome false "只能移动自己的棋子" g
    else if negb (_is_valid_piece_move (board g) from_n to_n)
      then Outcome false "走法不合规则" g
    else
      let target := piece_at (board g) to_n in
      let g := set_board (<[to_n := piece]> (board g)) g in
      let g := set_board (<[from_n := EMPTY]> (board g)) g in
      if _is_in_check (board g) (current_turn g) || _kings_facing (board g) then
        let g := set_board (<[from_n := piece]> (board g)) g in
        let g := set_board (<[to_n := target]> (board g)) g in
        Outcome false "走这步会被将军或将帅对脸" g
      else
        let g := set_last_move (Some (from_pos, to_pos)) g in
        let g := set_move_count (move_count g + 1)%Z g in
        let opponent := _get_opponent (current_turn g) in
        let g := set_current_turn opponent g in
        let g := set_in_check (_is_in_check (board g) opponent) g in
        let '(has_move, b) := _has_valid_move (board g) opponent in
        let g := set_board b g in
        if in_check g && negb has_move then
          let g := set_is_finished true g in
          let g := set_winner (Some (_get_opponent opponent)) g in
          Outcome true "将死！游戏结束" g
        else if negb (in_check g) && negb has_move then
          let g := set_is_finished true g in
          let g := set_winner (Some (_get_opponent opponent)) g in
          Outcome true "困毙！游戏结束" g
        else Outcome true (if in_check g then "将军！" else "走棋成功") g.

Definition surrender (g : XiangqiGame) (player_id : string) : outcome XiangqiGame :=
  if is_finished g then Outcome false "游戏已结束" g
  else if decide (player_id = player_red g) then
    Outcome true "红方认输" (set_is_finished true (set_winner (Some BLACK) g))
  else if decide (Some player_id = player_black g) then
    Outcome true "黑方认输" (set_is_finished true (set_winner (Some RED) g))
  else Outcome false "你不是游戏参与者" g.

End Xiangqi.

(** ** The gomoku engine ([src/games/gomoku.py]) *)
Module Gomoku.

Inductive Stone := EMPTY | BLACK | WHITE.

#[global] Instance Stone_eq_dec : EqDecision Stone.
Proof. solve_decision. Defined.

Record GomokuGame := mkGomoku {
  board_size : nat;
  player_black : string;
  player_white : option string;
  board : list Stone;
  current_turn : Stone;
  move_count : Z;
  last_move : option nat;
  is_finished : bool;
  winner : option Stone;
  win_line : option (list nat)
}.

Definition set_player_white v g :=
  let 'mkGomoku a b _ d e f h i j k := g in mkGomoku a b v d e f h i j k.
Definition set_board v g :=
  let 'mkGomoku a b c _ e f h i j k := g in mkGomoku a b c v e f h i j k.
Definition set_current_turn v g :=
  let 'mkGomoku a b c d _ f h i j k := g in mkGomoku a b c d v f h i j k.
Definition set_move_count v g :=
  let 'mkGomoku a b c d e _ h i j k := g in mkGomoku a b c d e v h i j k.
Definition set_last_move v g :=
  let 'mkGomoku a b c d e f _ i j k := g in mkGomoku a b c d e f v i j k.
Definition set_is_finished v g :=
  let 'mkGomoku a b c d e f h _ j k := g in mkGomoku a b c d e f h v j k.
Definition set_winner v g :=
  let 'mkGomoku a b c d e f h i _ k := g in mkGomoku a b c d e f h i v k.
Definition set_win_line v g :=
  let 'mkGomoku a b c d e f h i j _ := g in mkGomoku a b c d e f h i j v.

(** [GomokuGame(board_size=n, player_black=p)] with [__post_init__]. *)
Definition new_game (n : nat) (p : string) : GomokuGame :=
  mkGomoku n p None (replicate (n * n) EMPTY) BLACK 0 None false None None.

(** Coordinates are integers: the scan of [_check_win] steps off the board
    on either side before it tests the range. *)
Definition _pos_to_xy (n pos : nat) : Z * Z :=
  (Z.of_nat (pos mod n), Z.of_nat (pos / n)).
Definition _xy_to_pos (n : nat) (x y : Z) : nat := Z.to_nat (y * Z.of_nat n + x).

Definition in_range (n : nat) (x y : Z) : bool :=
  bool_decide (0 ≤ x < Z.of_nat n ∧ 0 ≤ y < Z.of_nat n)%Z.

Definition join (g : GomokuGame) (player_id : string) : bool * GomokuGame :=
  if decide (player_white g ≠ None) then (false, g)
  else if decide (player_id = player_black g) then (false, g)
  else (true, set_player_white (Some player_id) g).

Definition directions : list (Z * Z) := [(1, 0); (0, 1); (1, 1); (1, -1)]%Z.

(** One of the two inner loops of [_check_win]: the cells appended to the
    line while the scan stays on the board and on stones of colour [stone];
    [at_step i] is the cell looked at in round [i], and the [break] ends
    the list. *)
Fixpoint scan (b : list Stone) (n : nat) (stone : Stone) (at_step : Z → Z * Z)
    (rounds : list Z) : list nat :=
  match rounds with
  | [] => []
  | i :: rest =>
    let '(nx, ny) := at_step i in
    if in_range n nx ny then
      let npos := _xy_to_pos n nx ny in
      if decide (b !! npos = Some stone) then npos :: scan b n stone at_step rest
      else []
    else []
  end.

(** The line collected for one direction. *)
Definition line_along (b : list Stone) (n : nat) (stone : Stone) (pos : nat)
    (x y : Z) (d : Z * Z) : list nat :=
  let '(dx, dy) := d in
  [pos] ++ scan b n stone (λ i, (x + dx * i, y + dy * i)%Z) [1; 2; 3; 4]%Z
        ++ scan b n stone (λ i, (x - dx * i, y - dy * i)%Z) [1; 2; 3; 4]%Z.

(** The loop over the directions, left at the first line of five or more. *)
Fixpoint first_win (b : list Stone) (n : nat) (stone : Stone) (pos : nat) (x y : Z)
    (ds : list (Z * Z)) : option (list nat) :=
  match ds with
  | [] => None
  | d :: rest =>
    let line := line_along b n stone pos x y d in
    if decide (5 ≤ length line) then Some line
    else first_win b n stone pos x y rest
  end.

Definition _check_win (b : list Stone) (n pos : nat) : option (list nat) :=
  match b !! pos with
  | Some EMPTY | None => None
  | Some stone =>
    let '(x, y) := _pos_to_xy n pos in
    first_win b n stone pos x y directions
  end.

Definition make_move (g : GomokuGame) (player_id : string) (x y : Z)
    : outcome GomokuGame :=
  if is_finished g then Outcome false "游戏已结束" g
  else if decide (player_white g = None) then Outcome false "等待对手加入" g
  else if decide (current_turn g = BLACK ∧ player_id ≠ player_black g)
    then Outcome false "现在是黑方回合" g
  else if decide (current_turn g = WHITE ∧ Some player_id ≠ player_white g)
    then Outcome false "现在是白方回合" g
  else if negb (in_range (board_size g) x y)
    then Outcome false ("坐标超出范围（1-" +:+ pretty (board_size g) +:+ "）") g
  else
    let pos := _xy_to_pos (board_size g) x y in
    if decide (board g !! pos ≠ Some EMPTY) then Outcome false "该位置已有棋子" g
    else
      let g := set_board (<[pos := current_turn g]> (board g)) g in
      let g := set_last_move (Some pos) g in
      let g := set_move_count (move_count g + 1)%Z g in
      match _check_win (board g) (board_size g) pos with
      | Some line =>
        let g := set_is_finished true g in
        let g := set_winner (Some (current_turn g)) g in
        let g := set_win_line (Some line) g in
        Outcome true "五子连珠！游戏结束" g
      | None =>
        if decide (Z.of_nat (board_size g * board_size g) ≤ move_count g)%Z then
          Outcome true "棋盘已满，平局！" (set_is_finished true g)
        else
          let g := set_current_turn
                     (if decide (current_turn g = BLACK) then WHITE else BLACK) g in
          Outcome true "落子成功" g
      end.

Definition surrender (g : GomokuGame) (player_id : string) : outcome GomokuGame :=
  if is_finished g then Outcome false "游戏已结束" g
  else if decide (player_id = player_black g) then
    Outcome true "黑方认输" (set_is_finished true (set_winner (Some WHITE) g))
  else if decide (Some player_id = player_white g) then
    Outcome true "白方认输" (set_is_finished true (set_winner (Some BLACK) g))
  else Outcome false "你不是游戏参与者" g.

(** The operations a session receives after its creation. *)
Inductive op :=
| OpJoin (player_id : string)
| OpMove (player_id : string) (x y : Z)
| OpSurrender (player_id : string).

Definition apply_op (g : GomokuGame) (o : op) : GomokuGame :=
  match o with
  | OpJoin p => snd (join g p)
  | OpMove p x y => after (make_move g p x y)
  | OpSurrender p => after (surrender g p)
  end.

(** Sessions the engine can be in: [GomokuManager.create_game] builds a
    board of size 13, 15 or 19. *)
Inductive reachable : GomokuGame → Prop :=
| reach_create n p : n ∈ [13; 15; 19] → reachable (new_game n p)
| reach_op g o : reachable g → reachable (apply_op g o).

(** The letters of the columns: fourteen of them, without I. *)
Definition COLUMN_LABELS : string := "ABCDEFGHJKLMNO".

(** [f"{COLUMN_LABELS[x]}{y + 1}"]; [None] stands for the [IndexError] of an
    index beyond the last letter. *)
Definition get_coordinate_label (n pos : nat) : option string :=
  let '(x, y) := _pos_to_xy n pos in
  match String.get (Z.to_nat x) COLUMN_LABELS with
  | Some letter => Some (String letter (pretty (y + 1)%Z))
  | None => None
  end.

End Gomoku.

(** ** The flip-and-capture engine ([src/games/junqi.py]) *)
Module Junqi.

Inductive PieceType :=
| EMPTY | FLAG | MINE | BOMB | COMMANDER | GENERAL | DIVISION | BRIGADE
| REGIMENT | BATTALION | COMPANY | PLATOON | ENGINEER.

Inductive Side := NONE | RED | BLUE.

#[global] Instance PieceType_eq_dec : EqDecision PieceType.
Proof. solve_decision. Defined.

#[global] Instance Side_eq_dec : EqDecision Side.
Proof. solve_decision. Defined.

(** [PIECE_NAMES.get(t, "?")]: the table has no entry for [EMPTY]. *)
Definition piece_name (t : PieceType) : string :=
  match t with
  | EMPTY => "?"
  | FLAG => "军旗" | MINE => "地雷" | BOMB => "炸弹" | COMMANDER => "司令"
  | GENERAL => "军长" | DIVISION => "师长" | BRIGADE => "旅长"
  | REGIMENT => "团长" | BATTALION => "营长" | COMPANY => "连长"
  | PLATOON => "排长" | ENGINEER => "工兵"
  end.

(** [PIECE_RANK.get(t, 0)]. *)
Definition piece_rank (t : PieceType) : Z :=
  match t with
  | EMPTY | FLAG | MINE | BOMB => 0
  | ENGINEER => 1 | PLATOON => 2 | COMPANY => 3 | BATTALION => 4
  | REGIMENT => 5 | BRIGADE => 6 | DIVISION => 7 | GENERAL => 8
  | COMMANDER => 9
  end.

(** [PIECE_COUNT], in the order of the dictionary. *)
Definition PIECE_COUNT : list (PieceType * nat) :=
  [(FLAG, 1); (MINE, 3); (BOMB, 2); (COMMANDER, 1); (GENERAL, 1); (DIVISION, 2);
   (BRIGADE, 2); (REGIMENT, 2); (BATTALION, 2); (COMPANY, 3); (PLATOON, 3);
   (ENGINEER, 3)].

Record Piece := mkPiece { piece_type : PieceType; side : Side; revealed : bool }.

#[global] Instance Piece_eq_dec : EqDecision Piece.
Proof. solve_decision. Defined.

Definition get_name (p : Piece) : string := piece_name (piece_type p).
Definition get_rank (p : Piece) : Z := piece_rank (piece_type p).

Record JunqiGame := mkJunqi {
  player_a : string;
  player_b : option string;
  player_a_side : option Side;
  board : list (option Piece);
  current_turn : Z;
  move_count : Z;
  last_action : option string;
  last_pos : option Z;
  is_finished : bool;
  winner : option string;
  red_flag_captured : bool;
  blue_flag_captured : bool;
  ROWS : nat;
  COLS : nat
}.

Definition set_player_b v g :=
  let 'mkJunqi a _ c d e f h i j k l m n o := g in mkJunqi a v c d e f h i j k l m n o.
Definition set_player_a_side v g :=
  let 'mkJunqi a b _ d e f h i j k l m n o := g in mkJunqi a b v d e f h i j k l m n o.
Definition set_board v g :=
  let 'mkJunqi a b c _ e f h i j k l m n o := g in mkJunqi a b c v e f h i j k l m n o.
Definition set_current_turn v g :=
  let 'mkJunqi a b c d _ f h i j k l m n o := g in mkJunqi a b c d v f h i j k l m n o.
Definition set_move_count v g :=
  let 'mkJunqi a b c d e _ h i j k l m n o := g in mkJunqi a b c d e v h i j k l m n o.
Definition set_last_action v g :=
  let 'mkJunqi a b c d e f _ i j k l m n o := g in mkJunqi a b c d e f v i j k l m n o.
Definition set_last_pos v g :=
  let 'mkJunqi a b c d e f h _ j k l m n o := g in mkJunqi a b c d e f h v j k l m n o.
Definition set_is_finished v g :=
  let 'mkJunqi a b c d e f h i _ k l m n o := g in mkJunqi a b c d e f h i v k l m n o.
Definition set_winner v g :=
  let 'mkJunqi a b c d e f h i j _ l m n o := g in mkJunqi a b c d e f h i j v l m n o.
Definition set_red_flag_captured v g :=
  let 'mkJunqi a b c d e f h i j k _ m n o := g in mkJunqi a b c d e f h i j k v m n o.
Definition set_blue_flag_captured v g :=
  let 'mkJunqi a b c d e f h i j k l _ n o := g in mkJunqi a b c d e f h i j k l v n o.

(** The pieces of [_init_board] before the shuffle: for every kind, as
    many pairs of a red and a blue piece as [PIECE_COUNT] says, face down. *)
Definition fresh_pieces : list Piece :=
  PIECE_COUNT ≫= λ '(t, count),
    mjoin (replicate count [mkPiece t RED false; mkPiece t BLUE false]).

(** [_init_board] once the two calls of [random.shuffle] have produced the
    order [pieces] of the pieces and the order [positions] of the cells:
    [board[positions[i]] = piece] for the [i]-th piece. *)
Definition _init_board (rows cols : nat) (pieces : list Piece) (positions : list nat)
    : list (option Piece) :=
  foldl (λ b '(i, piece),
           match positions !! i with
           | Some pos => <[pos := Some piece]> b
           | None => b
           end)
        (replicate (rows * cols) None) (imap (λ i piece, (i, piece)) pieces).

(** [JunqiGame(player_a=p)] with [__post_init__], for given outcomes of
    the two shuffles. *)
Definition new_game (p : string) (pieces : list Piece) (positions : list nat)
    : JunqiGame :=
  mkJunqi p None None (_init_board 10 6 pieces positions) 1 0 None None false None
          false false 10 6.

Definition _pos_to_xy (g : JunqiGame) (pos : nat) : nat * nat :=
  (pos mod COLS g, pos / COLS g).
Definition _xy_to_pos (g : JunqiGame) (x y : nat) : nat := y * COLS g + x.

Definition _get_neighbors (g : JunqiGame) (pos : nat) : list nat :=
  let '(x, y) := _pos_to_xy g pos in
  (if decide (0 < x) then [_xy_to_pos g (x - 1) y] else []) ++
  (if decide (x < COLS g - 1) then [_xy_to_pos g (x + 1) y] else []) ++
  (if decide (0 < y) then [_xy_to_pos g x (y - 1)] else []) ++
  (if decide (y < ROWS g - 1) then [_xy_to_pos g x (y + 1)] else []).

Definition join (g : JunqiGame) (player_id : string) : bool * JunqiGame :=
  if decide (player_b g ≠ None) then (false, g)
  else if decide (player_id = player_a g) then (false, g)
  else (true, set_player_b (Some player_id) g).

(** The result is optional because [player_b] is. *)
Definition get_current_player (g : JunqiGame) : option string :=
  if decide (current_turn g = 1)%Z then Some (player_a g) else player_b g.

Definition get_player_side (g : JunqiGame) (player_id : string) : option Side :=
  match player_a_side g with
  | None => None
  | Some a_side =>
    if decide (player_id = player_a g) then Some a_side
    else if decide (Some player_id = player_b g) then
      Some (if decide (a_side = RED) then BLUE else RED)
    else None
  end.

Definition _switch_turn (g : JunqiGame) : JunqiGame :=
  set_current_turn (if decide (current_turn g = 1)%Z then 2%Z else 1%Z) g.

Definition valid_pos (g : JunqiGame) (pos : Z) : bool :=
  bool_decide (0 ≤ pos < Z.of_nat (ROWS g * COLS g))%Z.

(** [board[pos]] for an index that has passed [valid_pos]; every board the
    engine builds has [ROWS * COLS] cells, so the index is in range. *)
Definition cell (g : JunqiGame) (pos : Z) : option Piece :=
  default None (board g !! Z.to_nat pos).

Definition flip (g : JunqiGame) (player_id : string) (pos : Z) : outcome JunqiGame :=
  if is_finished g then Outcome false "游戏已结束" g
  else if decide (player_b g = None) then Outcome false "等待对手加入" g
  else if decide (Some player_id ≠ get_current_player g) then Outcome false "还没轮到你" g
  else if negb (valid_pos g pos) then Outcome false "位置无效" g
  else
    match cell g pos with
    | None => Outcome false "该位置没有棋子" g
    | Some piece =>
      if revealed piece then Outcome false "该棋子已经翻开了" g
      else
        let piece := mkPiece (piece_type piece) (side piece) true in
        let g := set_board (<[Z.to_nat pos := Some piece]> (board g)) g in
        let g :=
          if decide (player_a_side g = None) then
            let g := set_player_a_side (Some (side piece)) g in
            let side_name := if decide (side piece = RED) then "红方" else "蓝方" in
            set_last_action (Some ("翻开 " +:+ get_name piece +:+ "，成为" +:+ side_name)) g
          else set_last_action (Some ("翻开 " +:+ get_name piece)) g in
        let g := set_last_pos (Some pos) g in
        let g := set_move_count (move_count g + 1)%Z g in
        let g := _switch_turn g in
        Outcome true (default "" (last_action g)) g
    end.

Definition _battle (attacker defender : Piece) : string :=
  if decide (piece_type attacker = BOMB ∨ piece_type defender = BOMB) then "draw"
  else if decide (piece_type defender = MINE) then
    if decide (piece_type attacker = ENGINEER) then "win" else "draw"
  else if decide (piece_type defender = FLAG) then "win"
  else
    let atk_rank := get_rank attacker in
    let def_rank := get_rank defender in
    if decide (def_rank < atk_rank)%Z then "win"
    else if decide (atk_rank < def_rank)%Z then "lose"
    else "draw".

Definition _check_game_end (g : JunqiGame) : JunqiGame :=
  if red_flag_captured g then
    let g := set_is_finished true g in
    if decide (player_a_side g = Some BLUE) then set_winner (Some (player_a g)) g
    else set_winner (player_b g) g
  else if blue_flag_captured g then
    let g := set_is_finished true g in
    if decide (player_a_side g = Some RED) then set_winner (Some (player_a g)) g
    else set_winner (player_b g) g
  else g.

Definition move (g : JunqiGame) (player_id : string) (from_pos to_pos : Z)
    : outcome JunqiGame :=
  if is_finished g then Outcome false "游戏已结束" g
  else if decide (player_b g = None) then Outcome false "等待对手加入" g
  else if decide (Some player_id ≠ get_current_player g) then Outcome false "还没轮到你" g
  else if decide (player_a_side g = None) then Outcome false "请先翻棋确定阵营" g
  else if negb (valid_pos g from_pos) then Outcome false "起始位置无效" g
  else if negb (valid_pos g to_pos) then Outcome false "目标位置无效" g
  else
    match cell g from_pos with
    | None => Outcome false "起始位置没有棋子" g
    | Some piece =>
      if negb (revealed piece) then Outcome false "不能移动未翻开的棋子" g
      else
        let player_side := get_player_side g player_id in
        if decide (Some (side piece) ≠ player_side) then Outcome false "这不是你的棋子" g
        else if decide (piece_type piece ∈ [MINE; FLAG])
          then Outcome false (get_name piece +:+ "不能移动") g
        else if decide (Z.to_nat to_pos ∉ _get_neighbors g (Z.to_nat from_pos))
          then Outcome false "只能移动到相邻位置" g
        else
          match cell g to_pos with
          | None =>
            let g := set_board (<[Z.to_nat to_pos := Some piece]> (board g)) g in
            let g := set_board (<[Z.to_nat from_pos := None]> (board g)) g in
            let g := set_last_action (Some (get_name piece +:+ " 移动")) g in
            let g := set_last_pos (Some to_pos) g in
            let g := set_move_count (move_count g + 1)%Z g in
            let g := _switch_turn g in
            Outcome true (default "" (last_action g)) g
          | Some target =>
            if negb (revealed target) then Outcome false "不能移动到未翻开的棋子上" g
            else if decide (Some (side target) = player_side)
              then Outcome false "不能吃自己的棋子" g
            else
              let result := _battle piece target in
              let target_name := get_name target in
              let g :=
                if decide (result = "win") then
                  let g := set_board (<[Z.to_nat to_pos := Some piece]> (board g)) g in
                  let g := set_board (<[Z.to_nat from_pos := None]> (board g)) g in
                  set_last_action
                    (Some (get_name piece +:+ " 吃掉 " +:+ target_name)) g
                else if decide (result = "lose") then
                  let g := set_board (<[Z.to_nat from_pos := None]> (board g)) g in
                  set_last_action
                    (Some (get_name piece +:+ " 被 " +:+ target_name +:+ " 吃掉")) g
                else
                  let g := set_board (<[Z.to_nat from_pos := None]> (board g)) g in
                  let g := set_board (<[Z.to_nat to_pos := None]> (board g)) g in
                  set_last_action
                    (Some (get_name piece +:+ " 与 " +:+ target_name +:+ " 同归于尽")) g in
              let g :=
                if decide (piece_type target = FLAG) then
                  let g := if decide (side target = RED)
                           then set_red_flag_captured true g
                           else set_blue_flag_captured true g in
                  _check_game_end g
                else g in
              let g := set_last_pos (Some to_pos) g in
              let g := set_move_count (move_count g + 1)%Z g in
              let g := _switch_turn g in
              Outcome true (default "" (last_action g)) g
          end
    end.

Definition surrender (g : JunqiGame) (player_id : string) : outcome JunqiGame :=
  if is_finished g then Outcome false "游戏已结束" g
  else if decide (player_id = player_a g) then
    Outcome true "玩家A认输" (set_is_finished true (set_winner (player_b g) g))
  else if decide (Some player_id = player_b g) then
    Outcome true "玩家B认输" (set_is_finished true (set_winner (Some (player_a g)) g))
  else Outcome false "你不是游戏参与者" g.

(** The operations a session receives after its creation. *)
Inductive op :=
| OpJoin (player_id : string)
| OpFlip (player_id : string) (pos : Z)
| OpMove (player_id : string) (from_pos to_pos : Z)
| OpSurrender (player_id : string).

Definition apply_op (g : JunqiGame) (o : op) : JunqiGame :=
  match o with
  | OpJoin p => snd (join g p)
  | OpFlip p pos => after (flip g p pos)
  | OpMove p from_pos to_pos => after (move g p from_pos to_pos)
  | OpSurrender p => after (surrender g p)
  end.

(** A session as [JunqiManager.create_game] makes it: the fifty pieces in
    some order on fifty of the sixty cells. *)
Definition created (g : JunqiGame) : Prop :=
  ∃ p pieces positions,
    pieces ≡ₚ fresh_pieces ∧ positions ≡ₚ seq 0 60 ∧ g = new_game p pieces positions.

(** The names of the members of the two enumerations. *)
Definition type_name (t : PieceType) : string :=
  match t with
  | EMPTY => "EMPTY" | FLAG => "FLAG" | MINE => "MINE" | BOMB => "BOMB"
  | COMMANDER => "COMMANDER" | GENERAL => "GENERAL" | DIVISION => "DIVISION"
  | BRIGADE => "BRIGADE" | REGIMENT => "REGIMENT" | BATTALION => "BATTALION"
  | COMPANY => "COMPANY" | PLATOON => "PLATOON" | ENGINEER => "ENGINEER"
  end.

Definition side_name (s : Side) : string :=
  match s with NONE => "NONE" | RED => "RED" | BLUE => "BLUE" end.

(** The dictionary [get_board_for_render] makes for one cell. *)
Definition render_cell (c : option Piece) : gmap string string :=
  match c with
  | None => {["type" := "empty"]}
  | Some piece =>
    if revealed piece then
      {["type" := "revealed"; "piece" := type_name (piece_type piece);
        "side" := side_name (side piece); "name" := get_name piece]}
    else {["type" := "hidden"]}
  end.

(** The side of the viewer is worked out, for a viewer that is given and
    not the empty string, and then not used. *)
Definition get_board_for_render (g : JunqiGame) (viewer_id : option string)
    : list (gmap string string) :=
  let viewer_side :=
    match viewer_id with
    | Some v => if decide (v = EmptyString) then None else get_player_side g v
    | None => None
    end in
  (λ pos, render_cell (default None (board g !! pos))) <$> seq 0 (ROWS g * COLS g).

End Junqi.

(** ** The tic-tac-toe engine ([src/games/tictactoe.py]) *)
Module TicTacToe.

Inductive Player := NONE | X | O.

#[global] Instance Player_eq_dec : EqDecision Player.
Proof. solve_decision. Defined.

Record TicTacToeGame := mkTicTacToe {
  player_x : string;
  player_o : option string;
  board : list Player;
  current_turn : Player;
  winner : option Player;
  is_finished : bool
}.

Definition set_player_o v g :=
  let 'mkTicTacToe a _ c d e f := g in mkTicTacToe a v c d e f.
Definition set_board v g :=
  let 'mkTicTacToe a b _ d e f := g in mkTicTacToe a b v d e f.
Definition set_current_turn v g :=
  let 'mkTicTacToe a b c _ e f := g in mkTicTacToe a b c v e f.
Definition set_winner v g :=
  let 'mkTicTacToe a b c d _ f := g in mkTicTacToe a b c d v f.
Definition set_is_finished v g :=
  let 'mkTicTacToe a b c d e _ := g in mkTicTacToe a b c d e v.

(** [TicTacToeGame(player_x=p)] with the defaults of the dataclass. *)
Definition new_game (p : string) : TicTacToeGame :=
  mkTicTacToe p None (replicate 9 NONE) X None false.

Definition WIN_PATTERNS : list (list nat) :=
  [[0; 1; 2]; [3; 4; 5]; [6; 7; 8];
   [0; 3; 6]; [1; 4; 7]; [2; 5; 8];
   [0; 4; 8]; [2; 4; 6]].

Definition join (g : TicTacToeGame) (player_id : string) : bool * TicTacToeGame :=
  if decide (player_o g ≠ None) then (false, g)
  else if decide (player_id = player_x g) then (false, g)
  else (true, set_player_o (Some player_id) g).

(** The loop over the patterns, left at the first one that [player] fills. *)
Definition _check_win (b : list Player) (player : Player) : bool :=
  existsb (λ pattern, forallb (λ i, bool_decide (b !! i = Some player)) pattern)
          WIN_PATTERNS.

Definition make_move (g : TicTacToeGame) (player_id : string) (position : Z)
    : outcome TicTacToeGame :=
  if is_finished g then Outcome false "游戏已结束" g
  else if decide (player_o g = None) then Outcome false "等待对手加入" g
  else if decide (current_turn g = X ∧ player_id ≠ player_x g)
    then Outcome false "现在是 X 方回合" g
  else if decide (current_turn g = O ∧ Some player_id ≠ player_o g)
    then Outcome false "现在是 O 方回合" g
  else if decide (position < 1 ∨ 9 < position)%Z
    then Outcome false "位置应在 1-9 之间" g
  else
    let idx := Z.to_nat (position - 1) in
    if decide (board g !! idx ≠ Some NONE) then Outcome false "该位置已被占用" g
    else
      let g := set_board (<[idx := current_turn g]> (board g)) g in
      if _check_win (board g) (current_turn g) then
        let g := set_winner (Some (current_turn g)) g in
        let g := set_is_finished true g in
        Outcome true "获胜" g
      else if forallb (λ cell, bool_decide (cell ≠ NONE)) (board g) then
        Outcome true "平局" (set_is_finished true g)
      else
        let g := set_current_turn (if decide (current_turn g = X) then O else X) g in
        Outcome true "落子成功" g.

Definition surrender (g : TicTacToeGame) (player_id : string) : outcome TicTacToeGame :=
  if is_finished g then Outcome false "游戏已结束" g
  else if decide (player_id = player_x g) then
    Outcome true "X 方认输" (set_is_finished true (set_winner (Some O) g))
  else if decide (Some player_id = player_o g) then
    Outcome true "O 方认输" (set_is_finished true (set_winner (Some X) g))
  else Outcome false "你不是游戏参与者" g.

Definition get_player_symbol (g : TicTacToeGame) (player_id : string) : option string :=
  if decide (player_id = player_x g) then Some "X"
  else if decide (Some player_id = player_o g) then Some "O"
  else None.

(** The operations a session receives after its creation. *)
Inductive op :=
| OpJoin (player_id : string)
| OpMove (player_id : string) (position : Z)
| OpSurrender (player_id : string).

Definition apply_op (g : TicTacToeGame) (o : op) : TicTacToeGame :=
  match o with
  | OpJoin p => snd (join g p)
  | OpMove p position => after (make_move g p position)
  | OpSurrender p => after (surrender g p)
  end.

Inductive reachable : TicTacToeGame → Prop :=
| reach_create p : reachable (new_game p)
| reach_op g o : reachable g → reachable (apply_op g o).

End TicTacToe.

(** ** The session store of tic-tac-toe ([TicTacToeManager]) *)
Module TicTacToeManager.
Import TicTacToe.

(** What a method of the manager hands back: the tuple of the Python
    method, whose third part is the session object of the group when there
    is one, and the dictionary [_games] as the call leaves it.  The object
    handed back is the one the dictionary holds. *)
Record reply := Reply {
  success : bool;
  text : string;
  game : option TicTacToeGame;
  games : gmap string TicTacToeGame
}.

Definition get_game (m : gmap string TicTacToeGame) (group_id : string)
    : option TicTacToeGame :=
  m !! group_id.

Definition create_game (m : gmap string TicTacToeGame) (group_id player_id : string)
    : reply :=
  match m !! group_id with
  | Some existing =>
    if negb (is_finished existing)
    then Reply false "当前群已有进行中的游戏" (Some existing) m
    else let game := new_game player_id in
         Reply true "游戏创建成功" (Some game) (<[group_id := game]> m)
  | None =>
    let game := new_game player_id in
    Reply true "游戏创建成功" (Some game) (<[group_id := game]> m)
  end.

Definition join_game (m : gmap string TicTacToeGame) (group_id player_id : string)
    : reply :=
  match m !! group_id with
  | None => Reply false "当前群没有进行中的游戏" None m
  | Some game =>
    if is_finished game then Reply false "游戏已结束，请发起新游戏" None m
    else if decide (player_o game ≠ None) then Reply false "游戏已满员" (Some game) m
    else
      let '(joined, game) := join game player_id in
      let m := <[group_id := game]> m in
      if negb joined then Reply false "你已经在游戏中了" (Some game) m
      else Reply true "加入成功，游戏开始！" (Some game) m
  end.

Definition make_move (m : gmap string TicTacToeGame) (group_id player_id : string)
    (position : Z) : reply :=
  match m !! group_id with
  | None => Reply false "当前群没有进行中的游戏" None m
  | Some game =>
    let r := TicTacToe.make_move game player_id position in
    Reply (ok r) (msg r) (Some (after r)) (<[group_id := after r]> m)
  end.

Definition surrender (m : gmap string TicTacToeGame) (group_id player_id : string)
    : reply :=
  match m !! group_id with
  | None => Reply false "当前群没有进行中的游戏" None m
  | Some game =>
    let r := TicTacToe.surrender game player_id in
    Reply (ok r) (msg r) (Some (after r)) (<[group_id := after r]> m)
  end.

Definition end_game (m : gmap string TicTacToeGame) (group_id : string)
    : bool * gmap string TicTacToeGame :=
  if decide (is_Some (m !! group_id)) then (true, delete group_id m)
  else (false, m).

(** The calls the plugin makes on the manager. *)
Inductive call :=
| CreateGame (group_id player_id : string)
| JoinGame (group_id player_id : string)
| MakeMove (group_id player_id : string) (position : Z)
| Surrender (group_id player_id : string)
| EndGame (group_id : string).

Definition run (m : gmap string TicTacToeGame) (c : call) : gmap string TicTacToeGame :=
  match c with
  | CreateGame a p => games (create_game m a p)
  | JoinGame a p => games (join_game m a p)
  | MakeMove a p position => games (make_move m a p position)
  | Surrender a p => games (surrender m a p)
  | EndGame a => snd (end_game m a)
  end.

Definition group_of (c : call) : string :=
  match c with
  | CreateGame a _ | JoinGame a _ | MakeMove a _ _ | Surrender a _ | EndGame a => a
  end.

End TicTacToeManager.

(* ================================================================== *)
(** * Properties of the go engine *)
Module GoFacts.
Import Go.

(** Reading the fields of a record that is given by its constructor. *)
Ltac go_fields :=
  cbv zeta;
  cbn [board_size player_black player_white board current_turn captured_black
       captured_white move_count last_move ko_point is_finished winner
       consecutive_passes score_black score_white komi board_history
       last_board_state last_captured last_player can_undo score_request_by
       set_player_white set_board set_current_turn set_captured_black
       set_captured_white set_move_count set_last_move set_ko_point
       set_is_finished set_winner set_consecutive_passes set_score_black
       set_score_white set_board_history set_last_board_state set_last_captured
       set_last_player set_can_undo set_score_request_by ok msg after] in *.

(** Writing a field back to itself, and overwriting a field twice. *)
Lemma set_board_twice b b' g : set_board b (set_board b' g) = set_board b g.
Proof. by destruct g. Qed.

Lemma set_board_same g : set_board (board g) g = g.
Proof. by destruct g. Qed.

(** An opened session of two players in which black has surrounded the
    corner and white is to move. *)
Definition corner_game : GoGame :=
  foldl apply_op (new_game 9 "alice")
    [OpJoin "bob"; OpMove "alice" 1 0; OpMove "bob" 8 8; OpMove "alice" 0 1]%Z.

Lemma go_reachable_ops g os : reachable g → reachable (foldl apply_op g os).
Proof.
  revert g. induction os as [|o os IH]; intros g Hg; [done|].
  cbn [foldl]. apply IH. by apply reach_op.
Qed.

Lemma corner_game_reachable : reachable corner_game.
Proof. apply go_reachable_ops, reach_create. set_solver. Qed.

(** What a call of [make_move] can do: either it rejects the move and hands
    the session back untouched, or every gate has passed and the session is
    the committed one, spelled out field by field. *)
Definition placed (g : GoGame) (x y : Z) : nat :=
  _xy_to_pos (board_size g) (Z.to_nat x) (Z.to_nat y).

Definition committed (g : GoGame) (pos : nat) (b : list Stone) (captured : Z) : GoGame :=
  mkGo (board_size g) (player_black g) (player_white g) b
       (_get_opponent (current_turn g))
       (if decide (current_turn g = BLACK) then captured_black g
        else (captured_black g + captured)%Z)
       (if decide (current_turn g = BLACK) then (captured_white g + captured)%Z
        else captured_white g)
       (move_count g + 1)%Z (Some pos) None (is_finished g) (winner g) 0%Z
       (score_black g) (score_white g) (komi g)
       (board_history g ++ [_get_board_hash b])
       (Some (board g)) captured (Some (current_turn g)) true None.

Lemma go_make_move_inv g player_id x y :
  let r := make_move g player_id x y in
  (ok r = false ∧ after r = g) ∨
  (ok r = true ∧ is_finished g = false ∧ player_white g ≠ None ∧
   (current_turn g = BLACK → player_id = player_black g) ∧
   (current_turn g = WHITE → Some player_id = player_white g) ∧
   in_range (board_size g) x y = true ∧
   board g !! placed g x y = Some EMPTY ∧
   ∃ b captured,
     foldl (capture_round (board_size g) (_get_opponent (current_turn g)))
           (<[placed g x y := current_turn g]> (board g), 0%Z)
           (_get_neighbors (board_size g) (placed g x y)) = (b, captured) ∧
     _count_liberties b (board_size g) (_find_group b (board_size g) (placed g x y)) ≠ 0 ∧
     (_get_board_hash b ∉ board_history g) ∧
     after r = committed g (placed g x y) b captured).
Proof.
  destruct g as [n pb pw bd ct cb cw mc lm kp fin win cp sb sw km bh lbs lc lp cu srb].
  unfold make_move, placed, committed. go_fields.
  destruct fin; [by left|].
  case_decide as Hw; [by left|].
  case_decide as Hb; [by left|].
  case_decide as Hwt; [by left|].
  destruct (in_range _ _ _) eqn:Hr; cbn [negb]; [|by left].
  case_decide as Hocc; [by left|].
  destruct (foldl _ _ _) as [b captured] eqn:Hfold. go_fields.
  case_decide as Hsui; [by left|].
  destruct (py_in _ _) eqn:Hko; [by left|].
  right. split; [done|]. split; [done|]. split; [done|].
  split; [intros Hc; destruct (decide (player_id = pb)); [done|]; destruct Hb; done|].
  split; [intros Hc; destruct (decide (Some player_id = pw)); [done|]; destruct Hwt; done|].
  split; [done|]. split; [by destruct (decide (bd !! _xy_to_pos n (Z.to_nat x) (Z.to_nat y)
                                               = Some EMPTY))|].
  exists b, captured. split; [done|]. split; [done|].
  split; [unfold py_in in Hko; by apply bool_decide_eq_false in Hko|].
  by case_decide.
Qed.

(** C1: a call of [make_move] that answers [ok = false] leaves the whole
    session record as it was, whichever test rejected the move; this covers
    the suicide and the superko tests, which run after the stone has been
    put on the board and the captures have been made. *)
Theorem make_move_rejected_unchanged g player_id x y :
  ok (make_move g player_id x y) = false →
  after (make_move g player_id x y) = g.
Proof.
  intros Hok. destruct (go_make_move_inv g player_id x y) as [[_ H]|H]; [done|].
  destruct H as (Hok' & _). congruence.
Qed.

Lemma make_move_rejected_unchanged_witness :
  ok (make_move corner_game "bob" 0 0) = false ∧
  msg (make_move corner_game "bob" 0 0) = "禁止自杀（落子后无气）" ∧
  after (make_move corner_game "bob" 0 0) = corner_game.
Proof.
  split; [vm_compute; reflexivity|]. split; [vm_compute; reflexivity|].
  apply make_move_rejected_unchanged. vm_compute. reflexivity.
Defined.

(** [_finish_with_score] writes the two scores and the winner only. *)
Lemma finish_with_score_fields g :
  ∃ sb sw win, _finish_with_score g =
    set_winner win (set_score_white sw (set_score_black sb g)).
Proof.
  unfold _finish_with_score. destruct (count_territory g) as [sb sw].
  cbv zeta. exists sb, sw.
  destruct (PrimFloat.ltb sw sb); [by eexists|].
  destruct (PrimFloat.ltb sb sw); [by eexists|].
  exists (winner g). by destruct g.
Qed.

Lemma NoDup_removelast {A} (l : list A) : NoDup l → NoDup (removelast l).
Proof.
  induction l as [|a l IH]; [done|]. intros Hnd.
  apply NoDup_cons in Hnd as [Ha Hl]. destruct l as [|a' l]; [constructor|].
  change (NoDup (a :: removelast (a' :: l))). apply NoDup_cons. split; [|by apply IH].
  intros Hin. apply Ha. clear -Hin.
  revert a' Hin. induction l as [|c l IH]; intros a' Hin; [by apply elem_of_nil in Hin|].
  change (a ∈ a' :: removelast (c :: l)) in Hin.
  apply elem_of_cons in Hin as [->|Hin]; [left|right; by apply IH].
Qed.

Lemma removelast_snoc {A} (l : list A) (x : A) : removelast (l ++ [x]) = l.
Proof. apply removelast_last. Qed.

(** What a call of [undo] can do: the session it leaves when it succeeds,
    field by field, and the tests that make it fail. *)
Definition restored (g : GoGame) (saved : list Stone) : GoGame :=
  mkGo (board_size g) (player_black g) (player_white g) saved
       (default EMPTY (last_player g))
       (if decide (last_player g = Some BLACK) then captured_black g
        else (captured_black g - last_captured g)%Z)
       (if decide (last_player g = Some BLACK)
        then (captured_white g - last_captured g)%Z else captured_white g)
       (move_count g - 1)%Z None (ko_point g) (is_finished g) (winner g)
       (consecutive_passes g) (score_black g) (score_white g) (komi g)
       (removelast (board_history g)) None (last_captured g) (last_player g)
       false (score_request_by g).

Definition undo_allowed (g : GoGame) (q : string) : Prop :=
  is_finished g = false ∧ can_undo g = true ∧ last_board_state g ≠ None ∧
  ¬ (last_player g = Some BLACK ∧ q ≠ player_black g) ∧
  ¬ (last_player g = Some WHITE ∧ Some q ≠ player_white g).

#[local] Instance undo_allowed_dec g q : Decision (undo_allowed g q).
Proof. unfold undo_allowed. apply _. Defined.

Lemma undo_ok g q saved :
  undo_allowed g q → last_board_state g = Some saved →
  undo g q = Outcome true "悔棋成功" (restored g saved).
Proof.
  intros (Hfin & Hcu & _ & Hb & Hw) Hsaved. unfold undo.
  rewrite Hfin, Hsaved, Hcu. cbn [negb].
  rewrite (decide_False _ _ Hb), (decide_False _ _ Hw). f_equal.
  unfold restored.
  destruct g as [n pb pw bd ct cb cw mc lm kp fin win cp sb sw km bh lbs lc lp cu srb].
  destruct lp as [[]|]; destruct bh; reflexivity.
Qed.

Lemma undo_fail g q :
  ¬ undo_allowed g q → ok (undo g q) = false ∧ after (undo g q) = g.
Proof.
  intros Hno. unfold undo.
  destruct (is_finished g) eqn:Hfin; [done|].
  destruct (last_board_state g) as [saved|] eqn:Hsaved; [|done].
  destruct (can_undo g) eqn:Hcu; cbn [negb]; [|done].
  case_decide as Hb; [done|]. case_decide as Hw; [done|].
  destruct Hno. unfold undo_allowed. rewrite Hsaved. done.
Qed.

(** ** The shape of a session *)

(** What every session the engine builds satisfies: a square board of the
    declared size, a colour to move, and an undo snapshot that goes with a
    colour and a board of the same size. *)
Record wf (g : GoGame) : Prop := Wf {
  wf_size : 0 < board_size g;
  wf_board : length (board g) = board_size g * board_size g;
  wf_turn : current_turn g = BLACK ∨ current_turn g = WHITE;
  wf_last : can_undo g = true →
            last_player g = Some BLACK ∨ last_player g = Some WHITE;
  wf_saved : ∀ s, last_board_state g = Some s →
             length s = board_size g * board_size g
}.

Lemma capture_stones_length b group : length (_capture_stones b group).1 = length b.
Proof.
  unfold _capture_stones. cbn [fst]. generalize (elements group). intros l.
  revert b. induction l as [|a l IH]; intros b; [done|].
  cbn [foldl]. by rewrite IH, length_insert.
Qed.

Lemma capture_round_length n opp acc nb :
  length (capture_round n opp acc nb).1 = length acc.1.
Proof.
  destruct acc as [b c]. unfold capture_round. case_decide; [|done].
  case_decide; [|done].
  pose proof (capture_stones_length b (_find_group b n nb)) as Hlen.
  destruct (_capture_stones b (_find_group b n nb)) as [b' k]. done.
Qed.

Lemma capture_loop_length n opp acc nbs :
  length (foldl (capture_round n opp) acc nbs).1 = length acc.1.
Proof.
  revert acc. induction nbs as [|nb nbs IH]; intros acc; [done|].
  cbn [foldl]. by rewrite IH, capture_round_length.
Qed.

Lemma finish_with_score_wf g : wf g → wf (_finish_with_score g).
Proof.
  destruct (finish_with_score_fields g) as (sb & sw & win & ->).
  intros [? ? ? ? ?]. by destruct g.
Qed.

Lemma go_wf_step g o : wf g → wf (apply_op g o).
Proof.
  intros Hwf. destruct o as [p|p x y|p|p|p|p|p]; cbn [apply_op].
  - unfold join. repeat case_decide; try done. destruct Hwf. by destruct g.
  - destruct (go_make_move_inv g p x y) as [[_ ->]|(_ & _ & _ & _ & _ & _ & _ & Hc)]; [done|].
    destruct Hc as (b & captured & Hloop & _ & _ & ->).
    pose proof (capture_loop_length (board_size g) (_get_opponent (current_turn g))
                  (<[placed g x y := current_turn g]> (board g), 0%Z)
                  (_get_neighbors (board_size g) (placed g x y))) as Hlen.
    rewrite Hloop in Hlen. cbn [fst] in Hlen. rewrite length_insert in Hlen.
    destruct Hwf as [Hs Hb Ht Hl Hsv]. unfold committed.
    split; go_fields; try done.
    + congruence.
    + unfold _get_opponent. case_decide; eauto.
    + intros _. destruct Ht as [-> | ->]; eauto.
    + intros s [= <-]. done.
  - destruct Hwf as [Hs Hb Ht Hl Hsv].
    destruct g as [n pb pw bd ct cb cw mc lm kp fin win cp sb sw km bh lbs lc lp cu srb].
    unfold pass_turn. go_fields. destruct fin; [done|].
    do 3 (case_decide; [done|]).
    case_decide; cbn [after]; [apply finish_with_score_wf|]; split; go_fields; try done;
      unfold _get_opponent; case_decide; eauto.
  - destruct (decide (undo_allowed g p)) as [Hyes|Hno];
      [|by destruct (undo_fail g p Hno) as [_ ->]].
    destruct (last_board_state g) as [saved|] eqn:Hsaved;
      [|by destruct Hyes as (_ & _ & ? & _)].
    rewrite (undo_ok g p saved Hyes Hsaved). cbn [after].
    destruct Hwf as [Hs Hb Ht Hl Hsv]. destruct Hyes as (_ & Hcu & _).
    unfold restored. split; go_fields; try done.
    + by apply Hsv.
    + destruct (Hl Hcu) as [-> | ->]; cbn [default]; eauto.
  - unfold request_score. destruct (is_finished g); [done|].
    case_decide; [done|]. destruct (score_request_by g).
    + case_decide; [done|]. cbv zeta. cbn [after]. apply finish_with_score_wf.
      destruct Hwf. by destruct g.
    + cbn [after]. destruct Hwf. by destruct g.
  - unfold reject_score. destruct (score_request_by g); [|done].
    case_decide; [done|]. destruct Hwf. by destruct g.
  - unfold surrender. destruct (is_finished g); [done|].
    repeat case_decide; try done; destruct Hwf; by destruct g.
Qed.

Lemma new_game_wf n p : 0 < n → wf (new_game n p).
Proof.
  intros Hn. split; cbn; try done; [by rewrite length_replicate | by left].
Qed.

Lemma go_reachable_wf g : reachable g → wf g.
Proof.
  induction 1 as [n p Hn|g o _ IH]; [|by apply go_wf_step].
  apply new_game_wf. set_unfold. lia.
Qed.

Lemma reachable_turn g :
  reachable g → current_turn g = BLACK ∨ current_turn g = WHITE.
Proof. intros H. by destruct (go_reachable_wf g H). Qed.

(** How each operation treats the history of positions. *)
Lemma join_history g p : board_history (snd (join g p)) = board_history g.
Proof. unfold join. repeat case_decide; by destruct g. Qed.

Lemma pass_turn_history g p : board_history (after (pass_turn g p)) = board_history g.
Proof.
  unfold pass_turn. destruct (is_finished g); [done|].
  repeat (case_decide; [done|]). cbv zeta. case_decide; cbn [after]; [|by destruct g].
  match goal with |- context [_finish_with_score ?h] =>
    destruct (finish_with_score_fields h) as (sb & sw & win & ->) end.
  by destruct g.
Qed.

Lemma request_score_history g p :
  board_history (after (request_score g p)) = board_history g.
Proof.
  unfold request_score. destruct (is_finished g); [done|].
  case_decide; [done|]. destruct (score_request_by g); [|by destruct g].
  case_decide; [done|]. cbv zeta. cbn [after].
  match goal with |- context [_finish_with_score ?h] =>
    destruct (finish_with_score_fields h) as (sb & sw & win & ->) end.
  by destruct g.
Qed.

Lemma reject_score_history g p :
  board_history (after (reject_score g p)) = board_history g.
Proof.
  unfold reject_score. destruct (score_request_by g) eqn:E; [|done].
  case_decide; [done|]. by destruct g.
Qed.

Lemma surrender_history g p : board_history (after (surrender g p)) = board_history g.
Proof.
  unfold surrender. destruct (is_finished g); [done|].
  repeat case_decide; by destruct g.
Qed.

Lemma undo_history g p :
  (ok (undo g p) = false ∧ after (undo g p) = g) ∨
  (ok (undo g p) = true ∧
   board_history (after (undo g p)) = removelast (board_history g)).
Proof.
  destruct (decide (undo_allowed g p)) as [Hyes|Hno]; [right|left; by apply undo_fail].
  destruct (last_board_state g) as [saved|] eqn:Hsaved;
    [|by destruct Hyes as (_ & _ & ? & _)].
  by rewrite (undo_ok g p saved Hyes Hsaved).
Qed.

Lemma history_step g o :
  NoDup (board_history g) → NoDup (board_history (apply_op g o)).
Proof.
  intros Hnd. destruct o as [p|p x y|p|p|p|p|p]; cbn [apply_op].
  - by rewrite join_history.
  - destruct (go_make_move_inv g p x y) as [[_ ->]|(_ & _ & _ & _ & _ & _ & _ & H)]; [done|].
    destruct H as (b & captured & _ & _ & Hfresh & ->).
    unfold committed. go_fields. apply NoDup_app. split; [done|].
    split; [|apply NoDup_singleton].
    intros h Hh Hh'. apply list_elem_of_singleton in Hh'. by subst.
  - by rewrite pass_turn_history.
  - destruct (undo_history g p) as [[_ ->]|[_ ->]]; [done|]. by apply NoDup_removelast.
  - by rewrite request_score_history.
  - by rewrite reject_score_history.
  - by rewrite surrender_history.
Qed.

(** C3: in every session the engine can reach, the entries of
    [board_history] are pairwise distinct; a successful move appends one
    hash, which was not in the history, and a successful undo drops the last
    entry and nothing else. *)
Theorem history_distinct g :
  reachable g →
  NoDup (board_history g) ∧
  (∀ p x y, ok (make_move g p x y) = true →
     ∃ h, (h ∉ board_history g) ∧
          board_history (after (make_move g p x y)) = board_history g ++ [h]) ∧
  (∀ p, ok (undo g p) = true →
     board_history (after (undo g p)) = removelast (board_history g)).
Proof.
  intros Hreach. split; [|split].
  - induction Hreach as [n p Hn|g o _ IH]; [constructor|by apply history_step].
  - intros p x y Hok.
    destruct (go_make_move_inv g p x y) as [[Hno _]|(_ & _ & _ & _ & _ & _ & _ & H)];
      [congruence|].
    destruct H as (b & captured & _ & _ & Hfresh & ->). by exists (_get_board_hash b).
  - intros p Hok. destruct (undo_history g p) as [[Hno _]|[_ H]]; [congruence|done].
Qed.

Lemma history_distinct_witness :
  NoDup (board_history corner_game) ∧ length (board_history corner_game) = 3.
Proof.
  split; [|vm_compute; reflexivity].
  exact (proj1 (history_distinct corner_game corner_game_reachable)).
Defined.

(** C7: after a successful move of player [p], an immediate [undo] succeeds
    for [p] and for nobody else; it puts back the board, the two capture
    tallies and the turn of before the move, drops the hash the move
    appended, and leaves no further undo available. *)
Theorem undo_after_move g p x y :
  reachable g →
  ok (make_move g p x y) = true →
  let g1 := after (make_move g p x y) in
  let g2 := after (undo g1 p) in
  is_finished g1 = false ∧
  (∀ q, ok (undo g1 q) = true ↔ q = p) ∧
  board g2 = board g ∧
  captured_black g2 = captured_black g ∧
  captured_white g2 = captured_white g ∧
  current_turn g2 = current_turn g ∧
  board_history g1 = board_history g ++ [_get_board_hash (board g1)] ∧
  board_history g2 = board_history g ∧
  can_undo g2 = false ∧
  (∀ q, ok (undo g2 q) = false).
Proof.
  intros Hreach Hok. apply reachable_turn in Hreach as Hturn. clear Hreach.
  destruct (go_make_move_inv g p x y)
    as [[Hno _]|(_ & Hfin & _ & Hpb & Hpw & _ & _ & b & captured & _ & _ & _ & Heq)];
    [congruence|]. clear Hok.
  cbv zeta. rewrite Heq. clear Heq. generalize (placed g x y). intros pos.
  assert (∀ q, undo_allowed (committed g pos b captured) q ↔ q = p) as Hall.
  { intros q. unfold undo_allowed, committed. go_fields. rewrite Hfin.
    destruct Hturn as [Ht|Ht]; rewrite Ht in *.
    - specialize (Hpb eq_refl). destruct (decide (q = player_black g)); intuition congruence.
    - specialize (Hpw eq_refl).
      destruct (decide (Some q = player_white g)); intuition congruence. }
  assert (undo (committed g pos b captured) p
          = Outcome true "悔棋成功" (restored (committed g pos b captured) (board g)))
    as Hundo by (apply undo_ok; [by apply Hall|done]).
  split; [done|]. split.
  { intros q. split; [|intros ->; by rewrite Hundo].
    intros Hq. destruct (decide (undo_allowed (committed g pos b captured) q)) as [?|Hn];
      [by apply Hall|].
    destruct (undo_fail _ q Hn). congruence. }
  rewrite Hundo. cbn [after]. unfold restored at 1 2 3 4 5 6, committed. go_fields.
  rewrite removelast_snoc.
  split; [done|].
  split; [destruct Hturn as [-> | ->]; repeat case_decide; try done; lia|].
  split; [destruct Hturn as [-> | ->]; repeat case_decide; try done; lia|].
  do 4 (split; [done|]).
  intros q. apply undo_fail. by intros (_ & ? & _).
Qed.

Lemma undo_after_move_witness :
  ok (make_move corner_game "bob" 5 5) = true ∧
  (∀ q, ok (undo (after (make_move corner_game "bob" 5 5)) q) = true ↔ q = "bob") ∧
  board (after (undo (after (make_move corner_game "bob" 5 5)) "bob"))
  = board corner_game.
Proof.
  assert (ok (make_move corner_game "bob" 5 5) = true) as Hok
    by (vm_compute; reflexivity).
  split; [exact Hok|].
  destruct (undo_after_move corner_game "bob" 5 5 corner_game_reachable Hok)
    as (_ & Honly & Hboard & _).
  split; [exact Honly | exact Hboard].
Defined.

(** A session in which alice has asked for the game to be scored. *)
Definition pending_game : GoGame :=
  foldl apply_op (new_game 9 "alice") [OpJoin "bob"; OpRequestScore "alice"].

(** C4: [reject_score] does not ask whether the caller plays in the session.
    With a scoring request of alice pending, the call made for mallory, who
    holds neither slot, answers [ok = true] and clears the request;
    [request_score] and [surrender] turn the same caller away. *)
Theorem reject_score_by_outsider :
  "mallory" ≠ player_black pending_game ∧
  Some "mallory" ≠ player_white pending_game ∧
  score_request_by pending_game = Some "alice" ∧
  ok (reject_score pending_game "mallory") = true ∧
  score_request_by (after (reject_score pending_game "mallory")) = None ∧
  ok (request_score pending_game "mallory") = false ∧
  ok (surrender pending_game "mallory") = false.
Proof. vm_compute. repeat split; congruence. Qed.

(** ** Cells and their neighbours *)

(** Two cells of the [n]x[n] board are adjacent when they lie in the same
    row or column, one step apart. *)
Definition adjacent (n p q : nat) : Prop :=
  p < n * n ∧ q < n * n ∧
  ((p / n = q / n ∧ (p mod n + 1 = q mod n ∨ q mod n + 1 = p mod n)) ∨
   (p mod n = q mod n ∧ (p / n + 1 = q / n ∨ q / n + 1 = p / n))).

Lemma adjacent_sym n p q : adjacent n p q → adjacent n q p.
Proof. unfold adjacent. intros (? & ? & [[? ?]|[? ?]]); repeat split; try done; lia. Qed.

Lemma xy_to_pos_xy n x y : x < n → _pos_to_xy n (_xy_to_pos n x y) = (x, y).
Proof.
  intros Hx. unfold _pos_to_xy, _xy_to_pos. f_equal.
  - rewrite Nat.add_comm, Nat.Div0.mod_add. by apply Nat.mod_small.
  - rewrite Nat.div_add_l by lia. rewrite (Nat.div_small x n) by done. lia.
Qed.

Lemma pos_decompose n p : 0 < n → p = _xy_to_pos n (p mod n) (p / n).
Proof. intros Hn. unfold _xy_to_pos. pose proof (Nat.div_mod p n). lia. Qed.

Lemma div_lt_square n p : 0 < n → p < n * n → p / n < n.
Proof. intros Hn Hp. apply Nat.Div0.div_lt_upper_bound; lia. Qed.

Lemma go_xy_to_pos_lt n x y : x < n → y < n → _xy_to_pos n x y < n * n.
Proof. unfold _xy_to_pos. nia. Qed.

Lemma neighbors_adjacent n p q :
  0 < n → p < n * n → (q ∈ _get_neighbors n p ↔ adjacent n p q).
Proof.
  intros Hn Hp. unfold _get_neighbors. cbn [_pos_to_xy].
  pose proof (Nat.mod_upper_bound p n ltac:(lia)) as Hx.
  pose proof (div_lt_square n p Hn Hp) as Hy.
  set (x := p mod n) in *. set (y := p / n) in *.
  rewrite !elem_of_app. split.
  - intros Hq.
    assert (∃ x' y', x' < n ∧ y' < n ∧ q = _xy_to_pos n x' y' ∧
              ((y = y' ∧ (x + 1 = x' ∨ x' + 1 = x)) ∨ (x = x' ∧ (y + 1 = y' ∨ y' + 1 = y))))
      as (x' & y' & Hx' & Hy' & -> & Hadj).
    { destruct Hq as [Hq|[Hq|[Hq|Hq]]]; case_decide; try (by apply elem_of_nil in Hq);
        apply list_elem_of_singleton in Hq; subst q.
      - exists (x - 1), y. repeat split; lia.
      - exists (x + 1), y. repeat split; lia.
      - exists x, (y - 1). repeat split; lia.
      - exists x, (y + 1). repeat split; lia. }
    split; [done|]. split; [by apply go_xy_to_pos_lt|].
    pose proof (xy_to_pos_xy n x' y' Hx') as Hxy. unfold _pos_to_xy in Hxy.
    injection Hxy as -> ->. done.
  - intros (_ & Hq & Hadj).
    rewrite (pos_decompose n q Hn).
    pose proof (Nat.mod_upper_bound q n ltac:(lia)) as Hx'.
    pose proof (div_lt_square n q Hn Hq) as Hy'.
    set (x' := q mod n) in *. set (y' := q / n) in *.
    destruct Hadj as [[Hyy [Hxx|Hxx]]|[Hxx [Hyy|Hyy]]].
    + right; left. rewrite decide_True by lia. apply list_elem_of_singleton.
      f_equal; lia.
    + left. rewrite decide_True by lia. apply list_elem_of_singleton. f_equal; lia.
    + right; right; right. rewrite decide_True by lia. apply list_elem_of_singleton.
      f_equal; lia.
    + right; right; left. rewrite decide_True by lia. apply list_elem_of_singleton.
      f_equal; lia.
Qed.

Lemma neighbors_sym n p q :
  0 < n → p < n * n → q ∈ _get_neighbors n p → p ∈ _get_neighbors n q ∧ q < n * n.
Proof.
  intros Hn Hp Hq. apply neighbors_adjacent in Hq; [|done..].
  split; [|by destruct Hq as (_ & ? & _)].
  apply neighbors_adjacent; [done|by destruct Hq as (_ & ? & _)|by apply adjacent_sym].
Qed.

Lemma neighbors_length n p : length (_get_neighbors n p) ≤ 4.
Proof.
  unfold _get_neighbors. cbn [_pos_to_xy]. rewrite !length_app.
  repeat case_decide; cbn [length]; lia.
Qed.

(** ** Groups *)

(** [conn n b c p q]: the cells [p] and [q] hold colour [c] on board [b] and
    a chain of orthogonally adjacent cells of colour [c] leads from [p] to
    [q].  The group of a stone at [p] is the set of all such [q]. *)
Inductive conn (n : nat) (b : list Stone) (c : Stone) (p : nat) : nat → Prop :=
| conn_here : b !! p = Some c → conn n b c p p
| conn_next q r :
    conn n b c p q → r ∈ _get_neighbors n q → b !! r = Some c → conn n b c p r.

Lemma conn_start n b c p q : conn n b c p q → b !! p = Some c.
Proof. induction 1; done. Qed.

Lemma conn_end n b c p q : conn n b c p q → b !! q = Some c.
Proof. induction 1; done. Qed.

Lemma conn_trans n b c p q r : conn n b c p q → conn n b c q r → conn n b c p r.
Proof. intros Hpq Hqr. induction Hqr; [done|]. by eapply conn_next. Qed.

Lemma conn_first n b c p q r :
  b !! p = Some c → q ∈ _get_neighbors n p → conn n b c q r → conn n b c p r.
Proof.
  intros Hp Hq Hqr. apply conn_trans with q; [|done].
  eapply conn_next; [by apply conn_here|done|]. by eapply conn_start.
Qed.

Section flood.
Context (n : nat) (b : list Stone) (Hn : 0 < n) (Hlen : length b = n * n).

Lemma cell_lt p c : b !! p = Some c → p < n * n.
Proof. intros Hp. rewrite <- Hlen. by eapply lookup_lt_Some. Qed.

Lemma conn_sym c p q : conn n b c p q → conn n b c q p.
Proof.
  induction 1 as [Hp|q r Hpq IH Hr Hc]; [by apply conn_here|].
  apply (conn_first n b c r q p Hc); [|exact IH].
  apply neighbors_sym; [done| |done]. eapply cell_lt, conn_end, Hpq.
Qed.

(** What the loop of [_find_group] returns, whatever the fuel it was given:
    it keeps what is in [group], takes in the cells of colour [stone] that
    wait in [to_check], adds nothing that cannot be reached from them, and
    is closed under adjacency for what it adds. *)
Lemma find_group_loop_spec stone fuel group to_check G :
  find_group_loop fuel b n stone group to_check = Some G →
  group ⊆ G ∧
  (∀ q, q ∈ to_check → b !! q = Some stone → q ∈ G) ∧
  (∀ q, q ∈ G → q ∉ group → ∃ t, t ∈ to_check ∧ conn n b stone t q) ∧
  (∀ q r, q ∈ G → q ∉ group → r ∈ _get_neighbors n q → b !! r = Some stone → r ∈ G).
Proof.
  revert group to_check. induction fuel as [|fuel IH]; intros group to_check.
  - destruct to_check as [|current rest]; [|done]. cbn. intros [= <-].
    split; [done|]. split; [by intros q Hq%elem_of_nil|]. split; by intros.
  - destruct to_check as [|current rest].
    { cbn. intros [= <-].
      split; [done|]. split; [by intros q Hq%elem_of_nil|]. split; by intros. }
    cbn [find_group_loop]. case_decide as Hin; [|case_decide as Hcol].
    + intros (Hsub & Hcheck & Hreach & Hclosed)%IH. split; [done|]. split; [|split].
      * intros q [->|Hq]%elem_of_cons Hc; [by apply Hsub|by apply Hcheck].
      * intros q Hq Hnq. destruct (Hreach q Hq Hnq) as (t & Ht & Hconn).
        exists t. split; [by right|done].
      * done.
    + cbv zeta. intros (Hsub & Hcheck & Hreach & Hclosed)%IH.
      assert (current ∈ G) as Hcur by (apply Hsub, elem_of_union; right; by apply elem_of_singleton).
      assert (∀ r, r ∈ _get_neighbors n current → b !! r = Some stone → r ∈ G) as Hnb.
      { intros r Hr Hc. destruct (decide (r ∈ group ∪ {[current]})) as [?|Hnot];
          [by apply Hsub|].
        apply Hcheck; [|done]. apply elem_of_app. left. apply elem_of_reverse.
        by apply list_elem_of_filter. }
      split; [set_solver|]. split; [|split].
      * intros q [->|Hq]%elem_of_cons Hc; [done|].
        apply Hcheck; [|done]. apply elem_of_app. by right.
      * intros q Hq Hnq. destruct (decide (q = current)) as [->|Hne].
        { exists current. split; [by left|by apply conn_here]. }
        destruct (Hreach q Hq ltac:(set_solver)) as (t & Ht & Hconn).
        apply elem_of_app in Ht as [Ht|Ht].
        -- apply elem_of_reverse, list_elem_of_filter in Ht as [_ Ht].
           exists current. split; [by left|]. by apply conn_first with t.
        -- exists t. split; [by right|done].
      * intros q r Hq Hnq Hr Hc. destruct (decide (q = current)) as [->|Hne];
          [by apply Hnb|].
        apply (Hclosed q r); [done|set_solver|done..].
    + intros (Hsub & Hcheck & Hreach & Hclosed)%IH. split; [done|]. split; [|split].
      * intros q [->|Hq]%elem_of_cons Hc; [done|by apply Hcheck].
      * intros q Hq Hnq. destruct (Hreach q Hq Hnq) as (t & Ht & Hconn).
        exists t. split; [by right|done].
      * done.
Qed.

(** The loop ends within the fuel it is given: a round either drops an
    entry of the work list or moves a cell of the board into the group and
    pushes at most four entries. *)
Lemma find_group_loop_ends stone fuel group to_check :
  (∀ q, q ∈ to_check → q < n * n) →
  4 * size (set_seq 0 (n * n) ∖ group : gset nat) + length to_check < fuel →
  is_Some (find_group_loop fuel b n stone group to_check).
Proof.
  revert group to_check. induction fuel as [|fuel IH]; intros group to_check Hcells Hfuel;
    [lia|].
  destruct to_check as [|current rest]; [by eexists|].
  cbn [find_group_loop length] in *.
  assert (∀ q, q ∈ rest → q < n * n) as Hrest by (intros q Hq; apply Hcells; by right).
  case_decide as Hin; [apply IH; [done|lia]|].
  case_decide as Hcol; [|apply IH; [done|lia]].
  cbv zeta. assert (current < n * n) as Hcur by (apply Hcells; by left).
  apply IH.
  - intros q [Hq|Hq]%elem_of_app; [|by apply Hrest].
    apply elem_of_reverse, list_elem_of_filter in Hq as [_ Hq].
    by apply neighbors_sym in Hq as [_ ?].
  - rewrite length_app, length_reverse.
    pose proof (length_filter (λ nb, nb ∉ group ∪ {[current]}) (_get_neighbors n current)).
    pose proof (neighbors_length n current).
    assert (size (set_seq 0 (n * n) ∖ group : gset nat)
            = S (size (set_seq 0 (n * n) ∖ (group ∪ {[current]}) : gset nat))) as Hsize.
    { replace (set_seq 0 (n * n) ∖ group : gset nat)
        with ({[current]} ∪ set_seq 0 (n * n) ∖ (group ∪ {[current]}) : gset nat).
      - rewrite size_union by set_solver. by rewrite size_singleton.
      - apply set_eq. intros q. rewrite elem_of_union, !elem_of_difference,
          elem_of_union, !elem_of_singleton, !elem_of_set_seq.
        destruct (decide (q = current)) as [->|?]; [|naive_solver].
        split; [intros _; split; [lia|done]|by left]. }
    lia.
Qed.

Lemma find_group_conn pos c q :
  pos < n * n → b !! pos = Some c → c ≠ EMPTY →
  q ∈ _find_group b n pos ↔ conn n b c pos q.
Proof.
  intros Hpos Hc Hne. unfold _find_group. rewrite Hc.
  destruct (find_group_loop_ends c (flood_fuel n) ∅ [pos]) as [G HG].
  { by intros q' ->%list_elem_of_singleton. }
  { rewrite difference_empty_L, size_set_seq. unfold flood_fuel. cbn [length]. lia. }
  replace (match c with EMPTY => ∅ | _ => default ∅ (find_group_loop (flood_fuel n) b n c ∅ [pos]) end)
    with G by (rewrite HG; by destruct c).
  apply find_group_loop_spec in HG as (_ & Hcheck & Hreach & Hclosed).
  split.
  - intros Hq. destruct (Hreach q Hq ltac:(set_solver)) as (t & ->%list_elem_of_singleton & ?).
    done.
  - induction 1 as [Hp|q r Hpq IH Hr Hcr].
    + apply Hcheck; [by apply list_elem_of_singleton|done].
    + apply (Hclosed q r); [by apply IH|set_solver|done..].
Qed.

Lemma find_group_empty pos : b !! pos = Some EMPTY → _find_group b n pos = ∅.
Proof. intros Hc. unfold _find_group. by rewrite Hc. Qed.

End flood.

(** ** Liberties and removal *)

Lemma liberties_of_spec b n group e :
  e ∈ liberties_of b n group ↔
  ∃ p, p ∈ group ∧ e ∈ _get_neighbors n p ∧ b !! e = Some EMPTY.
Proof.
  unfold liberties_of.
  assert (∀ (nbs : list nat) (libs : gset nat),
    e ∈ foldl (λ libs nb, if decide (b !! nb = Some EMPTY) then libs ∪ {[nb]} else libs)
              libs nbs ↔ e ∈ libs ∨ (e ∈ nbs ∧ b !! e = Some EMPTY)) as Hinner.
  { induction nbs as [|nb nbs IH]; intros libs; cbn [foldl].
    - split; [by left|]. intros [?|[?%elem_of_nil ?]]; done.
    - rewrite IH. case_decide as Hnb.
      + rewrite elem_of_union, elem_of_singleton, elem_of_cons. naive_solver.
      + rewrite elem_of_cons. naive_solver. }
  assert (∀ (ps : list nat) (libs : gset nat),
    e ∈ foldl (λ libs pos,
                 foldl (λ libs nb, if decide (b !! nb = Some EMPTY) then libs ∪ {[nb]}
                                   else libs) libs (_get_neighbors n pos)) libs ps ↔
    e ∈ libs ∨ ∃ p, p ∈ ps ∧ e ∈ _get_neighbors n p ∧ b !! e = Some EMPTY) as Houter.
  { induction ps as [|p ps IH]; intros libs; cbn [foldl].
    - split; [by left|]. intros [?|(p & ?%elem_of_nil & _)]; done.
    - rewrite IH, Hinner. split.
      + intros [[?|[? ?]]|(p' & ? & ? & ?)]; [by left| |].
        * right. exists p. split; [by left|done].
        * right. exists p'. split; [by right|done].
      + intros [?|(p' & [->|?]%elem_of_cons & ? & ?)]; [by left; left| |].
        * left; right. done.
        * right. by exists p'. }
  rewrite Houter. setoid_rewrite elem_of_elements. split.
  - intros [?%not_elem_of_empty|?]; done.
  - intros ?. by right.
Qed.

Lemma count_liberties_zero b n group :
  _count_liberties b n group = 0 ↔
  ∀ p e, p ∈ group → e ∈ _get_neighbors n p → b !! e ≠ Some EMPTY.
Proof.
  unfold _count_liberties. rewrite size_empty_iff. split.
  - intros Hempty p e Hp He Hc.
    assert (e ∈ liberties_of b n group) as Hin
      by (apply liberties_of_spec; by exists p).
    by apply Hempty in Hin.
  - intros Hnone. apply elem_of_equiv_empty.
    intros e (p & Hp & He & Hc)%liberties_of_spec. by apply (Hnone p e).
Qed.

(** Setting every cell of [group] to [EMPTY]. *)
Lemma capture_stones_lookup b group q :
  (_capture_stones b group).1 !! q =
  if decide (q ∈ group) then (λ _, EMPTY) <$> b !! q else b !! q.
Proof.
  unfold _capture_stones. cbn [fst].
  assert (∀ (l : list nat) (b : list Stone), foldl (λ b pos, <[pos := EMPTY]> b) b l !! q =
                 if decide (q ∈ l) then (λ _, EMPTY) <$> b !! q else b !! q) as Hfold.
  { clear. induction l as [|a l IH]; intros b; cbn [foldl].
    - rewrite decide_False; [done|]. by intros ?%elem_of_nil.
    - rewrite IH. destruct (decide (a = q)) as [->|Hne].
      + rewrite (decide_True (P := q ∈ q :: l)) by (by left).
        destruct (decide (q < length b)) as [Hlt|Hge].
        * rewrite list_lookup_insert_eq by done.
          destruct (lookup_lt_is_Some_2 b q Hlt) as [s ->]. by case_decide.
        * rewrite list_insert_ge by lia. rewrite (lookup_ge_None_2 b q) by lia.
          by case_decide.
      + rewrite list_lookup_insert_ne by done.
        repeat case_decide; try done; set_solver. }
  rewrite Hfold. repeat case_decide; try done; set_solver.
Qed.

Lemma capture_stones_size b group : (_capture_stones b group).2 = size group.
Proof. done. Qed.

(** ** The capture loop of [make_move] *)

(** The group of the stone of colour [c] at [q] has no liberty on [b]: no
    cell next to a member of the group is empty. *)
Definition dead (n : nat) (b : list Stone) (c : Stone) (q : nat) : Prop :=
  ∀ m e, conn n b c q m → e ∈ _get_neighbors n m → b !! e ≠ Some EMPTY.

Section capture.
Context (n : nat) (b1 : list Stone) (opp : Stone).
Context (Hn : 0 < n) (Hlen : length b1 = n * n) (Hopp : opp ≠ EMPTY).

(** The state of the loop after the neighbours [seen]: [C] is the set of
    cells emptied so far, [b] the board and [k] the running count. *)
Record captured_so_far (seen : list nat) (C : gset nat) (b : list Stone) (k : Z)
    : Prop := CapturedSoFar {
  csf_len : length b = n * n;
  csf_board : ∀ q, b !! q = if decide (q ∈ C) then Some EMPTY else b1 !! q;
  csf_count : k = Z.of_nat (size C);
  csf_only : ∀ q, q ∈ C →
             ∃ nb, nb ∈ seen ∧ conn n b1 opp nb q ∧ dead n b1 opp nb;
  csf_all : ∀ nb q, nb ∈ seen → conn n b1 opp nb q → dead n b1 opp nb → q ∈ C
}.

Lemma csf_colour seen C b k q :
  captured_so_far seen C b k → q ∈ C → b1 !! q = Some opp.
Proof. intros H Hq. destruct (csf_only _ _ _ _ H q Hq) as (nb & _ & Hc & _). by eapply conn_end. Qed.

Lemma csf_closed seen C b k q m :
  captured_so_far seen C b k → q ∈ C → conn n b1 opp q m → m ∈ C.
Proof.
  intros H Hq Hqm. destruct (csf_only _ _ _ _ H q Hq) as (nb & Hnb & Hc & Hdead).
  apply (csf_all _ _ _ _ H nb m Hnb); [|done]. by apply conn_trans with q.
Qed.

(** Emptying dead groups of the opponent neither joins nor splits, nor
    gives a liberty to, a group of the opponent that stays. *)
Lemma csf_conn seen C b k nb q :
  captured_so_far seen C b k → nb ∉ C →
  conn n b opp nb q ↔ conn n b1 opp nb q.
Proof.
  intros H Hnb.
  assert (∀ r, b !! r = Some opp → b1 !! r = Some opp) as Hkeep.
  { intros r. rewrite (csf_board _ _ _ _ H). case_decide; [|done]. congruence. }
  split.
  - induction 1 as [Hc|q r Hq IH Hr Hc]; [by apply conn_here, Hkeep|].
    eapply conn_next; [done..|]. by apply Hkeep.
  - intros Hq.
    assert (∀ r, conn n b1 opp nb r → b !! r = Some opp) as Hstay.
    { intros r Hr. rewrite (csf_board _ _ _ _ H). rewrite decide_False.
      - by eapply conn_end.
      - intros Hin. apply Hnb. apply (csf_closed _ _ _ _ r nb H Hin).
        by apply conn_sym. }
    induction Hq as [Hc|q r Hq IH Hr Hc]; [apply conn_here, Hstay; by apply conn_here|].
    eapply conn_next; [done..|]. apply Hstay. by eapply conn_next.
Qed.

Lemma csf_dead seen C b k nb :
  captured_so_far seen C b k → nb ∉ C → b1 !! nb = Some opp →
  _count_liberties b n (_find_group b n nb) = 0 ↔ dead n b1 opp nb.
Proof.
  intros H Hnb Hc. rewrite count_liberties_zero.
  assert (nb < n * n) as Hlt by (by eapply cell_lt).
  assert (b !! nb = Some opp) as Hc'
    by (rewrite (csf_board _ _ _ _ H); by rewrite decide_False).
  assert (∀ q, q ∈ _find_group b n nb ↔ conn n b1 opp nb q) as Hgroup.
  { intros q. rewrite (find_group_conn n b Hn (csf_len _ _ _ _ H) nb opp q Hlt Hc' Hopp).
    by eapply csf_conn. }
  split.
  - intros Hzero m e Hm He Hempty.
    apply (Hzero m e); [by apply Hgroup|done|].
    rewrite (csf_board _ _ _ _ H). by case_decide.
  - intros Hdead p e Hp%Hgroup He. rewrite (csf_board _ _ _ _ H).
    case_decide as Hin; [|by apply (Hdead p e)]. intros _.
    apply Hnb. apply (csf_closed _ _ _ _ e nb H Hin).
    apply conn_trans with p; [|by apply conn_sym].
    eapply conn_next; [apply conn_here; by eapply csf_colour| |by eapply conn_end].
    apply neighbors_sym; [done| |done]. eapply cell_lt; [done|]. by eapply conn_end.
Qed.

Lemma capture_round_step seen C b k nb :
  captured_so_far seen C b k →
  ∃ C', captured_so_far (seen ++ [nb]) C'
          (capture_round n opp (b, k) nb).1 (capture_round n opp (b, k) nb).2.
Proof.
  intros H. unfold capture_round.
  assert (∀ C', (∀ q, q ∈ C' → q ∈ C ∨ (conn n b1 opp nb q ∧ dead n b1 opp nb)) →
                C ⊆ C' →
                ∀ q, q ∈ C' → ∃ nb', nb' ∈ seen ++ [nb] ∧ conn n b1 opp nb' q ∧
                                dead n b1 opp nb') as Honly.
  { intros C' HC' _ q [Hq|[Hq Hd]]%HC'.
    - destruct (csf_only _ _ _ _ H q Hq) as (nb' & ? & ? & ?).
      exists nb'. split; [apply elem_of_app; by left|done].
    - exists nb. split; [apply elem_of_app; right; by apply list_elem_of_singleton|done]. }
  case_decide as Hc.
  - assert (nb ∉ C) as Hnb.
    { intros Hin. rewrite (csf_board _ _ _ _ H), decide_True in Hc by done. congruence. }
    assert (b1 !! nb = Some opp) as Hc1
      by (rewrite (csf_board _ _ _ _ H), decide_False in Hc by done; done).
    assert (nb < n * n) as Hlt by (by eapply cell_lt).
    assert (∀ q, q ∈ _find_group b n nb ↔ conn n b1 opp nb q) as Hgroup.
    { intros q. rewrite (find_group_conn n b Hn (csf_len _ _ _ _ H) nb opp q Hlt Hc Hopp).
      by eapply csf_conn. }
    case_decide as Hzero.
    + apply (csf_dead _ _ _ _ nb H Hnb Hc1) in Hzero.
      pose proof (capture_stones_lookup b (_find_group b n nb)) as Hlook.
      pose proof (capture_stones_length b (_find_group b n nb)) as Hlength.
      destruct (_capture_stones b (_find_group b n nb)) as [b' k'] eqn:Hcap.
      assert (k' = size (_find_group b n nb)) as ->
        by (unfold _capture_stones in Hcap; congruence).
      cbn [fst snd] in *. exists (C ∪ _find_group b n nb). split.
      * rewrite Hlength. apply H.
      * intros q. rewrite Hlook.
        destruct (decide (q ∈ _find_group b n nb)) as [Hq|Hq].
        -- rewrite (decide_True (P := q ∈ C ∪ _find_group b n nb))
             by (apply elem_of_union; by right).
           apply Hgroup in Hq. rewrite (csf_board _ _ _ _ H). case_decide; [done|].
           by rewrite (conn_end _ _ _ _ _ Hq).
        -- rewrite (csf_board _ _ _ _ H). destruct (decide (q ∈ C)).
           ++ rewrite (decide_True (P := q ∈ C ∪ _find_group b n nb))
                by (apply elem_of_union; by left). done.
           ++ rewrite (decide_False (P := q ∈ C ∪ _find_group b n nb)); [done|].
              intros [?|?]%elem_of_union; done.
      * rewrite size_union.
        -- rewrite (csf_count _ _ _ _ H). lia.
        -- intros q Hq1 Hq2%Hgroup. apply Hnb.
           apply (csf_closed _ _ _ _ q nb H Hq1). by apply conn_sym.
      * apply Honly; [|apply union_subseteq_l].
        intros q [?|?%Hgroup]%elem_of_union; [by left|by right].
      * intros nb' q [Hin| ->%list_elem_of_singleton]%elem_of_app Hq Hd;
          apply elem_of_union; [left; by eapply (csf_all _ _ _ _ H)|right; by apply Hgroup].
    + cbn [fst snd]. exists C. split; try apply H.
      * apply Honly; [by left|done].
      * intros nb' q [Hin| ->%list_elem_of_singleton]%elem_of_app Hq Hd;
          [by eapply (csf_all _ _ _ _ H)|].
        by apply (csf_dead _ _ _ _ nb H Hnb Hc1) in Hd.
  - cbn [fst snd]. exists C. split; try apply H.
    + apply Honly; [by left|done].
    + intros nb' q [Hin| ->%list_elem_of_singleton]%elem_of_app Hq Hd;
        [by eapply (csf_all _ _ _ _ H)|].
      assert (nb ∈ C) as Hin.
      { destruct (decide (nb ∈ C)) as [|Hout]; [done|]. destruct Hc.
        rewrite (csf_board _ _ _ _ H), decide_False by done. by eapply conn_start. }
      by eapply csf_closed.
Qed.

Lemma capture_loop_spec nbs :
  ∃ C, captured_so_far nbs C
         (foldl (capture_round n opp) (b1, 0%Z) nbs).1
         (foldl (capture_round n opp) (b1, 0%Z) nbs).2.
Proof.
  assert (∀ nbs seen C b k, captured_so_far seen C b k →
            ∃ C', captured_so_far (seen ++ nbs) C'
                    (foldl (capture_round n opp) (b, k) nbs).1
                    (foldl (capture_round n opp) (b, k) nbs).2) as Hgen.
  { clear nbs. induction nbs as [|nb nbs IH]; intros seen C b k H.
    - exists C. by rewrite app_nil_r.
    - cbn [foldl]. destruct (capture_round_step seen C b k nb H) as (C' & H').
      destruct (capture_round n opp (b, k) nb) as [b' k'].
      destruct (IH _ _ _ _ H') as (C'' & H''). exists C''.
      by rewrite <- app_assoc in H''. }
  apply (Hgen nbs [] ∅ b1 0%Z). split.
  - done.
  - intros q. by rewrite decide_False by apply not_elem_of_empty.
  - by rewrite size_empty.
  - intros q Hq. by apply not_elem_of_empty in Hq.
  - intros nb q Hnb. by apply elem_of_nil in Hnb.
Qed.

End capture.

(** ** What a successful move captures *)

(** The cells a stone put at [pos] takes: the members of a group of colour
    [opp] that touches [pos] and has no liberty on [b1], the board with the
    new stone on it. *)
Definition taken (n : nat) (b1 : list Stone) (opp : Stone) (pos q : nat) : Prop :=
  ∃ nb, nb ∈ _get_neighbors n pos ∧ conn n b1 opp nb q ∧ dead n b1 opp nb.

(** The number of cells that hold a stone on [b1] and are empty on [b']. *)
Definition stones_removed (n : nat) (b1 b' : list Stone) : nat :=
  length (filter (λ q, b1 !! q ≠ Some EMPTY ∧ b' !! q = Some EMPTY) (seq 0 (n * n))).

Lemma filter_seq_size (P : nat → Prop) `{∀ q, Decision (P q)} (N : nat) (C : gset nat) :
  (∀ q, q ∈ C → q < N) → (∀ q, q < N → (P q ↔ q ∈ C)) →
  length (filter P (seq 0 N)) = size C.
Proof.
  intros Hbound Hiff. unfold size, set_size. cbn.
  apply Permutation_length, NoDup_Permutation.
  - apply NoDup_filter, NoDup_seq.
  - apply NoDup_elements.
  - intros q. rewrite list_elem_of_filter, elem_of_seq, elem_of_elements. split.
    + intros [HP [_ Hq]]. by apply Hiff.
    + intros Hq. pose proof (Hbound q Hq). split; [apply Hiff; [lia|done]|lia].
Qed.

Lemma placed_lt g x y :
  in_range (board_size g) x y = true → placed g x y < board_size g * board_size g.
Proof.
  unfold in_range, placed. intros Hr%bool_decide_eq_true.
  apply go_xy_to_pos_lt; lia.
Qed.

Lemma opponent_colour c :
  c = BLACK ∨ c = WHITE → _get_opponent c ≠ EMPTY ∧ _get_opponent c ≠ c.
Proof. unfold _get_opponent. intros [-> | ->]; by case_decide. Qed.

(** The tests of [make_move] that come before the stone is put on the
    board: the game goes on and has two players, it is the turn of
    [player_id], the cell is on the board and empty. *)
Definition may_place (g : GoGame) (player_id : string) (x y : Z) : Prop :=
  is_finished g = false ∧ player_white g ≠ None ∧
  (current_turn g = BLACK → player_id = player_black g) ∧
  (current_turn g = WHITE → Some player_id = player_white g) ∧
  in_range (board_size g) x y = true ∧
  board g !! placed g x y = Some EMPTY.

(** On the board [b] the group of colour [c] through [pos] has a liberty:
    one of its stones has an empty neighbour. *)
Definition has_liberty (n : nat) (b : list Stone) (c : Stone) (pos : nat) : Prop :=
  ∃ m e, conn n b c pos m ∧ e ∈ _get_neighbors n m ∧ b !! e = Some EMPTY.

(** [make_move] accepts a move that passes every test. *)
Lemma go_make_move_accepts g player_id x y b captured :
  may_place g player_id x y →
  foldl (capture_round (board_size g) (_get_opponent (current_turn g)))
        (<[placed g x y := current_turn g]> (board g), 0%Z)
        (_get_neighbors (board_size g) (placed g x y)) = (b, captured) →
  _count_liberties b (board_size g) (_find_group b (board_size g) (placed g x y)) ≠ 0 →
  _get_board_hash b ∉ board_history g →
  ok (make_move g player_id x y) = true.
Proof.
  intros (Hfin & Hw & Hblack & Hwhite & Hrange & Hfree) Hloop Hlib Hko.
  destruct g as [n pb pw bd ct cb cw mc lm kp fin win cp sb sw km bh lbs lc lp cu srb].
  unfold make_move, placed in *. go_fields. subst fin.
  case_decide; [done|].
  case_decide as Hb; [destruct Hb as [Hb1 Hb2]; by destruct Hb2; apply Hblack|].
  case_decide as Hwt; [destruct Hwt as [Hw1 Hw2]; by destruct Hw2; apply Hwhite|].
  rewrite Hrange. cbn [negb].
  case_decide; [done|]. rewrite Hloop. go_fields.
  case_decide; [done|].
  unfold py_in. rewrite bool_decide_eq_false_2 by done. by case_decide.
Qed.

(** The liberty count of the group through a stone is not zero exactly
    when the group has a liberty. *)
Lemma count_liberties_has n b c pos :
  0 < n → length b = n * n → pos < n * n → b !! pos = Some c → c ≠ EMPTY →
  _count_liberties b n (_find_group b n pos) ≠ 0 ↔ has_liberty n b c pos.
Proof.
  intros Hn Hlen Hpos Hc Hne. unfold _count_liberties. rewrite size_non_empty_iff. split.
  - intros [e He]%set_choose.
    apply liberties_of_spec in He as (m & Hm & He & Hempty).
    exists m, e. split; [|done]. by apply (find_group_conn n b Hn Hlen pos c m).
  - intros (m & e & Hm & He & Hempty) Hnone.
    assert (e ∈ liberties_of b n (_find_group b n pos)) as Hin.
    { apply liberties_of_spec. exists m. split; [|done].
      by apply (find_group_conn n b Hn Hlen pos c m). }
    by apply Hnone in Hin.
Qed.

(** C2: the board [b2] on which [make_move] tests the move is the board
    with the new stone without the members of the groups of the opponent
    that touch the new stone and have no liberty once it is placed; every
    other cell holds what it held.  The move is accepted exactly when it
    passes the tests made before the stone is put, the group of the new
    stone has a liberty on [b2], that is after the removals, and [b2] is
    not a position of the history.  An accepted move leaves [b2] as the
    board, and the capture tally of the mover grows by the number of stones
    removed while the other tally stays. *)
Theorem captures_exact g p x y :
  reachable g →
  let n := board_size g in
  let pos := placed g x y in
  let stone := current_turn g in
  let opp := _get_opponent stone in
  let b1 := <[pos := stone]> (board g) in
  let g' := after (make_move g p x y) in
  ∃ b2 : list Stone,
    (∀ q, (taken n b1 opp pos q → b2 !! q = Some EMPTY) ∧
          (¬ taken n b1 opp pos q → b2 !! q = b1 !! q)) ∧
    (ok (make_move g p x y) = true ↔
     may_place g p x y ∧ has_liberty n b2 stone pos ∧
     _get_board_hash b2 ∉ board_history g) ∧
    (ok (make_move g p x y) = true →
     board g' = b2 ∧
     if decide (stone = BLACK)
     then captured_white g'
          = (captured_white g + Z.of_nat (stones_removed n b1 b2))%Z ∧
          captured_black g' = captured_black g
     else captured_black g'
          = (captured_black g + Z.of_nat (stones_removed n b1 b2))%Z ∧
          captured_white g' = captured_white g).
Proof.
  intros Hreach. apply go_reachable_wf in Hreach as [Hn Hlen Hturn _ _].
  cbv zeta. apply opponent_colour in Hturn as Hopp. destruct Hopp as [Hopp Hdiff].
  assert (current_turn g ≠ EMPTY) as Hstone by (destruct Hturn; congruence).
  set (n := board_size g) in *. set (pos := placed g x y) in *.
  set (stone := current_turn g) in *. set (opp := _get_opponent stone) in *.
  set (b1 := <[pos := stone]> (board g)) in *.
  assert (length b1 = n * n) as Hlen1 by (unfold b1; by rewrite length_insert).
  destruct (capture_loop_spec n b1 opp Hn Hlen1 Hopp (_get_neighbors n pos)) as [C HC].
  destruct (foldl (capture_round n opp) (b1, 0%Z) (_get_neighbors n pos))
    as [b captured] eqn:Hloop.
  cbn [fst snd] in HC.
  assert (∀ q, q ∈ C ↔ taken n b1 opp pos q) as Htaken.
  { intros q. split.
    - intros Hq. by apply (csf_only _ _ _ _ _ _ _ HC).
    - intros (nb & Hnb & Hq & Hdead). by apply (csf_all _ _ _ _ _ _ _ HC nb q). }
  assert (may_place g p x y → pos < n * n ∧ b !! pos = Some stone) as Hput.
  { intros (_ & _ & _ & _ & Hrange & _). apply placed_lt in Hrange.
    split; [done|]. rewrite (csf_board _ _ _ _ _ _ _ HC pos).
    assert (b1 !! pos = Some stone) as Hpos
      by (unfold b1; apply list_lookup_insert_eq; by rewrite Hlen).
    rewrite decide_False; [done|].
    intros Hin. pose proof (csf_colour _ _ _ _ _ _ _ pos HC Hin). congruence. }
  assert (may_place g p x y →
          _count_liberties b n (_find_group b n pos) ≠ 0 ↔ has_liberty n b stone pos)
    as Hlibs.
  { intros [Hpos Hcell]%Hput.
    by apply count_liberties_has; [|apply (csf_len _ _ _ _ _ _ _ HC)|..]. }
  exists b. split; [|split].
  - intros q. rewrite (csf_board _ _ _ _ _ _ _ HC q), <- Htaken.
    split; intros Hq; [by rewrite decide_True|by rewrite decide_False].
  - split.
    + intros Hok. destruct (go_make_move_inv g p x y)
        as [[Hno _]|(_ & Hfin & Hw & Hblack & Hwhite & Hrange & Hfree & b' & captured'
                     & Hloop' & Hlib & Hko & _)]; [congruence|].
      fold n pos stone opp b1 in Hloop', Hlib. rewrite Hloop in Hloop'.
      injection Hloop' as <- <-.
      assert (may_place g p x y) as Hmay by done.
      split; [done|]. split; [by apply Hlibs|done].
    + intros (Hmay & Hlib & Hko).
      apply (go_make_move_accepts g p x y b captured); [done..| |done].
      by apply Hlibs.
  - intros Hok. destruct (go_make_move_inv g p x y)
      as [[Hno _]|(_ & _ & _ & _ & _ & _ & _ & b' & captured' & Hloop' & _ & _ & Heq)];
      [congruence|].
    fold n pos stone opp b1 in Hloop'. rewrite Hloop in Hloop'.
    injection Hloop' as <- <-. rewrite Heq.
    split; [done|].
    assert (captured = Z.of_nat (stones_removed n b1 b)) as ->.
    { rewrite (csf_count _ _ _ _ _ _ _ HC). f_equal. symmetry.
      apply filter_seq_size.
      - intros q Hq. eapply (cell_lt n b1 Hlen1), (csf_colour _ _ _ _ _ _ _ q HC Hq).
      - intros q _. rewrite (csf_board _ _ _ _ _ _ _ HC q). case_decide as Hq.
        + rewrite (csf_colour _ _ _ _ _ _ _ q HC Hq). split; [done|].
          intros _. split; [congruence|done].
        + split; [|done]. intros [? ?]. congruence. }
    unfold committed. go_fields. fold stone. by case_decide.
Qed.

(** White to move with black stones on B1 and A2, each down to its last
    liberty, the corner A1. *)
Definition capture_game : GoGame :=
  foldl apply_op (new_game 9 "alice")
    [OpJoin "bob"; OpMove "alice" 1 0; OpMove "bob" 2 0; OpMove "alice" 0 1;
     OpMove "bob" 1 1; OpMove "alice" 8 8; OpMove "bob" 0 2; OpMove "alice" 8 7]%Z.

Lemma capture_game_reachable : reachable capture_game.
Proof. apply go_reachable_ops, reach_create. set_solver. Qed.

Lemma captures_exact_witness :
  ok (make_move capture_game "bob" 0 0) = true ∧
  (λ e, <[0 := WHITE]> (board capture_game) !! e) <$> _get_neighbors 9 0
  = [Some BLACK; Some BLACK] ∧
  stones_removed 9 (<[0 := WHITE]> (board capture_game))
                 (board (after (make_move capture_game "bob" 0 0))) = 2 ∧
  captured_black (after (make_move capture_game "bob" 0 0)) = 2%Z ∧
  has_liberty (board_size capture_game)
              (board (after (make_move capture_game "bob" 0 0)))
              (current_turn capture_game) (placed capture_game 0 0).
Proof.
  assert (ok (make_move capture_game "bob" 0 0) = true) as Hok
    by (vm_compute; reflexivity).
  split; [exact Hok|].
  split; [vm_compute; reflexivity|].
  split; [vm_compute; reflexivity|]. split; [vm_compute; reflexivity|].
  pose proof (captures_exact capture_game "bob" 0 0 capture_game_reachable) as Hthm.
  cbv zeta in Hthm. destruct Hthm as (b2 & _ & Hiff & Hafter).
  apply proj1 in Hiff. specialize (Hiff Hok). apply proj2, proj1 in Hiff.
  specialize (Hafter Hok). apply proj1 in Hafter. subst b2. exact Hiff.
Defined.

End GoFacts.

(* ================================================================== *)
(** * Properties of the xiangqi engine *)
Module XiangqiFacts.
Import Xiangqi.

Ltac xq_fields :=
  cbv zeta;
  cbn [player_red player_black board current_turn move_count last_move is_finished
       winner in_check set_player_black set_board set_current_turn set_move_count
       set_last_move set_is_finished set_winner set_in_check ok msg after fst snd]
    in *.

(** ** The search for a legal move *)

(** The board on which [_has_valid_move] and [make_move] test a move: the
    piece of [from_pos] stands on [to_pos] and [from_pos] is empty. *)
Definition trial (b : list Piece) (from_pos to_pos : nat) : list Piece :=
  <[from_pos := EMPTY]> (<[to_pos := piece_at b from_pos]> b).

(** The move from [from_pos] to [to_pos] is one [side] may make: the piece
    is its own, the move follows the rule of the piece, and afterwards the
    king of [side] is not in check and the kings do not face each other. *)
Definition legal (b : list Piece) (side : Side) (from_pos to_pos : nat) : Prop :=
  get_piece_side (piece_at b from_pos) = Some side ∧
  _is_valid_piece_move b from_pos to_pos = true ∧
  _is_in_check (trial b from_pos to_pos) side = false ∧
  _kings_facing (trial b from_pos to_pos) = false.

#[local] Instance legal_dec b side from_pos to_pos :
  Decision (legal b side from_pos to_pos).
Proof. unfold legal. apply _. Defined.

(** [side] has no legal move on [b]. *)
Definition no_legal_move (b : list Piece) (side : Side) : Prop :=
  ∀ from_pos to_pos, from_pos < length b → to_pos < 90 → ¬ legal b side from_pos to_pos.

Lemma valid_move_distinct b from_pos to_pos :
  _is_valid_piece_move b from_pos to_pos = true → from_pos ≠ to_pos.
Proof.
  unfold _is_valid_piece_move. cbv zeta. case_decide; [done|].
  destruct (_pos_to_rc from_pos), (_pos_to_rc to_pos). by case_decide.
Qed.

Lemma valid_move_piece b from_pos to_pos :
  _is_valid_piece_move b from_pos to_pos = true → piece_at b from_pos ≠ EMPTY.
Proof. unfold _is_valid_piece_move. cbv zeta. by case_decide. Qed.

Lemma piece_at_lt b pos : piece_at b pos ≠ EMPTY → pos < length b.
Proof.
  unfold piece_at. intros Hp. destruct (b !! pos) eqn:E; [|done].
  by eapply lookup_lt_Some.
Qed.

(** A trial leaves the board as it found it. *)
Lemma try_move_restores b side from_pos to_pos :
  from_pos ≠ to_pos → from_pos < length b →
  try_move b side from_pos (piece_at b from_pos) to_pos
  = (_is_in_check (trial b from_pos to_pos) side || _kings_facing (trial b from_pos to_pos),
     b).
Proof.
  intros Hne Hfrom. unfold try_move, trial. cbv zeta. f_equal.
  apply list_eq. intros i.
  destruct (decide (i = to_pos)) as [->|Hto].
  - destruct (decide (to_pos < length b)) as [Hlt|Hge].
    + rewrite list_lookup_insert_eq by (by rewrite !length_insert).
      unfold piece_at. by destruct (lookup_lt_is_Some_2 b to_pos Hlt) as [x ->].
    + rewrite list_insert_ge by (rewrite !length_insert; lia).
      rewrite !list_lookup_insert_ne by done. by rewrite list_insert_ge by lia.
  - rewrite list_lookup_insert_ne by done.
    destruct (decide (i = from_pos)) as [->|Hfr].
    + rewrite list_lookup_insert_eq by (by rewrite !length_insert).
      unfold piece_at. by destruct (lookup_lt_is_Some_2 b from_pos Hfrom) as [x ->].
    + by rewrite !list_lookup_insert_ne by done.
Qed.

Lemma targets_loop_spec b side from_pos targets :
  get_piece_side (piece_at b from_pos) = Some side →
  targets_loop b side from_pos (piece_at b from_pos) targets
  = (bool_decide (Exists (legal b side from_pos) targets), b).
Proof.
  intros Hside. induction targets as [|to_pos rest IH]; cbn [targets_loop].
  - reflexivity.
  - destruct (_is_valid_piece_move b from_pos to_pos) eqn:Hvalid.
    + rewrite try_move_restores;
        [|by eapply valid_move_distinct|by eapply piece_at_lt, valid_move_piece].
      destruct (_is_in_check (trial b from_pos to_pos) side) eqn:Hcheck;
        [|destruct (_kings_facing (trial b from_pos to_pos)) eqn:Hface];
        cbn [orb negb].
      * rewrite IH. f_equal. apply bool_decide_ext. rewrite Exists_cons.
        assert (¬ legal b side from_pos to_pos)
          by (intros (_ & _ & ? & _); congruence). tauto.
      * rewrite IH. f_equal. apply bool_decide_ext. rewrite Exists_cons.
        assert (¬ legal b side from_pos to_pos)
          by (intros (_ & _ & _ & ?); congruence). tauto.
      * f_equal. symmetry. apply bool_decide_eq_true. by left.
    + rewrite IH. f_equal. apply bool_decide_ext. rewrite Exists_cons.
      assert (¬ legal b side from_pos to_pos)
        by (intros (_ & ? & _); congruence). tauto.
Qed.

Lemma sources_loop_spec b side sources :
  sources_loop b side sources
  = (bool_decide (Exists (λ from_pos, Exists (legal b side from_pos) (seq 0 90)) sources),
     b).
Proof.
  induction sources as [|from_pos rest IH]; cbn [sources_loop].
  - reflexivity.
  - cbv zeta. case_decide as Hside.
    + rewrite IH. f_equal. apply bool_decide_ext. rewrite Exists_cons.
      split; [by right|]. intros [Hex|?]; [|done].
      apply Exists_exists in Hex as (to_pos & _ & Hs & _). done.
    + assert (get_piece_side (piece_at b from_pos) = Some side) as Hside'
        by (by destruct (decide (get_piece_side (piece_at b from_pos) = Some side))).
      rewrite targets_loop_spec by done.
      destruct (bool_decide (Exists (legal b side from_pos) (seq 0 90))) eqn:Hex.
      * apply bool_decide_eq_true in Hex.
        f_equal. symmetry. apply bool_decide_eq_true. by left.
      * apply bool_decide_eq_false in Hex.
        rewrite IH. f_equal. apply bool_decide_ext. rewrite Exists_cons. tauto.
Qed.

(** [_has_valid_move] answers whether [side] has a legal move, and hands the
    board back as it was. *)
Lemma has_valid_move_spec b side :
  (_has_valid_move b side).2 = b ∧
  ((_has_valid_move b side).1 = false ↔ no_legal_move b side).
Proof.
  unfold _has_valid_move. rewrite sources_loop_spec. cbn [fst snd]. split; [done|].
  rewrite bool_decide_eq_false. unfold no_legal_move. split.
  - intros Hnone from_pos to_pos Hfrom Hto Hlegal. apply Hnone.
    apply Exists_exists. exists from_pos. split; [apply elem_of_seq; lia|].
    apply Exists_exists. exists to_pos. split; [apply elem_of_seq; lia|done].
  - intros Hnone (from_pos & Hfrom%elem_of_seq & Hex)%Exists_exists.
    apply Exists_exists in Hex as (to_pos & Hto%elem_of_seq & Hlegal).
    apply (Hnone from_pos to_pos); [lia|lia|done].
Qed.

Lemma opponent_twice side : _get_opponent (_get_opponent side) = side.
Proof. by destruct side. Qed.

(** ** The end of the game *)

(** C5: after a move the engine accepts, the board is the one of the trial
    and the opponent is to move; the check flag says whether the opponent
    is in check on it; if the opponent then has no legal move, the game is
    over and the mover has won, by checkmate when the flag is set and by
    stalemate when it is not; and if the opponent has a legal move the game
    goes on. *)
Theorem mate_and_stalemate g p from_pos to_pos :
  length (board g) = 90 →
  ok (make_move g p from_pos to_pos) = true →
  let r := make_move g p from_pos to_pos in
  let mover := current_turn g in
  let opponent := _get_opponent mover in
  board (after r) = trial (board g) (Z.to_nat from_pos) (Z.to_nat to_pos) ∧
  current_turn (after r) = opponent ∧
  in_check (after r) = _is_in_check (board (after r)) opponent ∧
  (in_check (after r) = true → no_legal_move (board (after r)) opponent →
   is_finished (after r) = true ∧ winner (after r) = Some mover ∧
   msg r = "将死！游戏结束") ∧
  (in_check (after r) = false → no_legal_move (board (after r)) opponent →
   is_finished (after r) = true ∧ winner (after r) = Some mover ∧
   msg r = "困毙！游戏结束") ∧
  (¬ no_legal_move (board (after r)) opponent → is_finished (after r) = false).
Proof.
  intros Hlen. cbv zeta. unfold make_move.
  destruct g as [pr pb bd ct mc lm fin win ic]. xq_fields.
  destruct fin; [done|].
  do 3 (case_decide; [done|]).
  case_bool_decide as Hrange; cbn [negb]; [|done].
  do 2 (case_decide; [done|]).
  destruct (_is_valid_piece_move bd (Z.to_nat from_pos) (Z.to_nat to_pos)) eqn:Hvalid;
    cbn [negb]; [|done].
  fold (trial bd (Z.to_nat from_pos) (Z.to_nat to_pos)).
  set (b' := trial bd (Z.to_nat from_pos) (Z.to_nat to_pos)).
  destruct (_is_in_check b' ct || _kings_facing b') eqn:Hself; [done|].
  destruct (has_valid_move_spec b' (_get_opponent ct)) as [Hboard Hmove].
  destruct (_has_valid_move b' (_get_opponent ct)) as [has_move b''].
  cbn [fst snd] in Hboard, Hmove. subst b''. xq_fields.
  rewrite opponent_twice.
  destruct (_is_in_check b' (_get_opponent ct)) eqn:Hcheck, has_move;
    cbn [andb negb]; xq_fields; intros _;
    (split; [done|]); (split; [done|]); (split; [done|]);
    (split; [intros Hic Hnone|split; [intros Hic Hnone|intros Hsome]]);
    try done; try (apply Hmove in Hnone; done);
    try (destruct Hsome; by apply Hmove).
Qed.

(** A king alone against two chariots: red to move, black king on E10, red
    chariots on A9 and B6, red king on D1. *)
Definition mating_game : XiangqiGame :=
  mkXiangqi "alice" (Some "bob")
    (<[85 := B_KING]> (<[72 := R_CHARIOT]> (<[46 := R_CHARIOT]>
       (<[3 := R_KING]> (replicate 90 EMPTY)))))
    RED 10 None false None false.

Lemma mate_and_stalemate_witness :
  ok (make_move mating_game "alice" 46 82) = true ∧
  in_check (after (make_move mating_game "alice" 46 82)) = true ∧
  is_finished (after (make_move mating_game "alice" 46 82)) = true ∧
  winner (after (make_move mating_game "alice" 46 82)) = Some RED ∧
  msg (make_move mating_game "alice" 46 82) = "将死！游戏结束".
Proof.
  assert (ok (make_move mating_game "alice" 46 82) = true) as Hok
    by (vm_compute; reflexivity).
  assert (in_check (after (make_move mating_game "alice" 46 82)) = true) as Hcheck
    by (vm_compute; reflexivity).
  assert (no_legal_move (board (after (make_move mating_game "alice" 46 82)))
                        (_get_opponent (current_turn mating_game))) as Hnone.
  { apply has_valid_move_spec. vm_compute. reflexivity. }
  assert (length (board mating_game) = 90) as Hlen by (vm_compute; reflexivity).
  pose proof (mate_and_stalemate mating_game "alice" 46 82 Hlen Hok) as Hthm.
  cbv zeta in Hthm. destruct Hthm as (_ & _ & _ & Hmate & _).
  split; [exact Hok|]. split; [exact Hcheck|]. exact (Hmate Hcheck Hnone).
Defined.

(** ** The cannon *)

Definition same_rank (from_pos to_pos : nat) : Prop := from_pos / 9 = to_pos / 9.
Definition same_file (from_pos to_pos : nat) : Prop := from_pos mod 9 = to_pos mod 9.

(** The cell [p] lies strictly between two cells of one rank or one file. *)
Definition strictly_between (from_pos to_pos p : nat) : Prop :=
  (same_rank from_pos to_pos ∧ same_rank from_pos p ∧
   (from_pos mod 9) `min` (to_pos mod 9) < p mod 9
   < (from_pos mod 9) `max` (to_pos mod 9)) ∨
  (same_file from_pos to_pos ∧ same_file from_pos p ∧
   (from_pos / 9) `min` (to_pos / 9) < p / 9 < (from_pos / 9) `max` (to_pos / 9)).

#[local] Instance strictly_between_dec from_pos to_pos p :
  Decision (strictly_between from_pos to_pos p).
Proof. unfold strictly_between, same_rank, same_file. apply _. Defined.

(** The number of pieces on the cells strictly between two cells. *)
Definition pieces_strictly_between (b : list Piece) (from_pos to_pos : nat) : nat :=
  length (filter (λ p, strictly_between from_pos to_pos p ∧ piece_at b p ≠ EMPTY)
                 (seq 0 90)).

Lemma py_range_elem a b c : c ∈ py_range a b ↔ (a ≤ c < b)%Z.
Proof.
  unfold py_range. rewrite list_elem_of_fmap. split.
  - intros (i & -> & Hi%elem_of_seq). lia.
  - intros Hc. exists (Z.to_nat (c - a)). split; [lia|]. apply elem_of_seq. lia.
Qed.

Lemma py_range_NoDup a b : NoDup (py_range a b).
Proof.
  unfold py_range. apply NoDup_fmap_2_strong; [|apply NoDup_seq].
  intros x y _ _ Heq. lia.
Qed.

(** Counting along a line of the board and counting over all its cells. *)
Lemma count_along (P : nat → Prop) `{∀ p, Decision (P p)}
    (Q : Z → Prop) `{∀ c, Decision (Q c)} (f : Z → nat) (l : list Z) (N : nat) :
  NoDup l →
  (∀ c d, c ∈ l → d ∈ l → f c = f d → c = d) →
  (∀ p, p < N ∧ P p ↔ ∃ c, c ∈ l ∧ Q c ∧ f c = p) →
  length (filter P (seq 0 N)) = length (filter Q l).
Proof.
  intros Hnd Hinj Hiff. rewrite <- (length_fmap f (filter Q l)).
  apply Permutation_length, NoDup_Permutation.
  - apply NoDup_filter, NoDup_seq.
  - apply NoDup_fmap_2_strong; [|by apply NoDup_filter].
    intros c d [_ Hc]%list_elem_of_filter [_ Hd]%list_elem_of_filter. by apply Hinj.
  - intros p. rewrite list_elem_of_filter, elem_of_seq, list_elem_of_fmap. split.
    + intros [HP [_ Hp]]. destruct (proj1 (Hiff p)) as (c & Hc & HQ & Hf); [done|].
      exists c. split; [done|]. by apply list_elem_of_filter.
    + intros (c & -> & [HQ Hc]%list_elem_of_filter).
      destruct (proj2 (Hiff (f c))) as [? ?]; [by exists c|]. split; [done|lia].
Qed.

Lemma filter_none {A} (P : A → Prop) `{∀ x, Decision (P x)} (l : list A) :
  Forall (λ x, ¬ P x) l → filter P l = [].
Proof.
  induction 1 as [|x l Hx _ IH]; [done|]. by rewrite filter_cons_False, IH.
Qed.

Lemma pos_rc pos : _pos_to_rc pos = (Z.of_nat (pos / 9), Z.of_nat (pos mod 9)).
Proof. done. Qed.

Lemma rc_pos_div row col :
  (0 ≤ row)%Z → (0 ≤ col < 9)%Z →
  _rc_to_pos row col / 9 = Z.to_nat row ∧ _rc_to_pos row col mod 9 = Z.to_nat col.
Proof.
  intros Hrow Hcol. unfold _rc_to_pos.
  replace (Z.to_nat (row * 9 + col)) with (Z.to_nat col + Z.to_nat row * 9) by lia.
  split.
  - rewrite Nat.div_add by lia. rewrite Nat.div_small by lia. done.
  - rewrite Nat.Div0.mod_add. apply Nat.mod_small. lia.
Qed.

(** [_get_pieces_between] counts the pieces strictly between the two
    cells. *)
Lemma get_pieces_between_spec b from_pos to_pos :
  from_pos < 90 → to_pos < 90 →
  _get_pieces_between b from_pos to_pos = pieces_strictly_between b from_pos to_pos.
Proof.
  intros Hfrom Hto. unfold _get_pieces_between, pieces_strictly_between.
  rewrite !pos_rc.
  pose proof (Nat.mod_upper_bound from_pos 9 ltac:(lia)) as Hfc.
  pose proof (Nat.mod_upper_bound to_pos 9 ltac:(lia)) as Htc.
  assert (from_pos / 9 < 10) as Hfr by (apply Nat.Div0.div_lt_upper_bound; lia).
  assert (to_pos / 9 < 10) as Htr by (apply Nat.Div0.div_lt_upper_bound; lia).
  symmetry. case_decide as Hrow; [|case_decide as Hcol].
  - cbv zeta. apply (count_along _ _ (λ c, _rc_to_pos (Z.of_nat (from_pos / 9)) c)).
    + apply py_range_NoDup.
    + intros c d Hc%py_range_elem Hd%py_range_elem. unfold _rc_to_pos. lia.
    + intros p. split.
      * intros (Hp & Hbetween & Hpiece). unfold strictly_between, same_rank, same_file in *.
        exists (Z.of_nat (p mod 9)).
        assert (p = _rc_to_pos (Z.of_nat (from_pos / 9)) (Z.of_nat (p mod 9))) as Hpos.
        { unfold _rc_to_pos. pose proof (Nat.div_mod p 9). lia. }
        rewrite py_range_elem, <- Hpos. split; [lia|done].
      * intros (c & Hc%py_range_elem & Hpiece & <-).
        destruct (rc_pos_div (Z.of_nat (from_pos / 9)) c) as [Hd Hm]; [lia..|].
        split; [unfold _rc_to_pos; lia|]. split; [|done].
        left. unfold same_rank. rewrite Hd, Hm. lia.
  - cbv zeta. apply (count_along _ _ (λ r, _rc_to_pos r (Z.of_nat (from_pos mod 9)))).
    + apply py_range_NoDup.
    + intros c d Hc%py_range_elem Hd%py_range_elem. unfold _rc_to_pos. lia.
    + intros p. split.
      * intros (Hp & Hbetween & Hpiece). unfold strictly_between, same_rank, same_file in *.
        exists (Z.of_nat (p / 9)).
        assert (p = _rc_to_pos (Z.of_nat (p / 9)) (Z.of_nat (from_pos mod 9))) as Hpos.
        { unfold _rc_to_pos. pose proof (Nat.div_mod p 9). lia. }
        rewrite py_range_elem, <- Hpos. split; [lia|done].
      * intros (c & Hc%py_range_elem & Hpiece & <-).
        destruct (rc_pos_div c (Z.of_nat (from_pos mod 9))) as [Hd Hm]; [lia..|].
        split; [unfold _rc_to_pos; lia|]. split; [|done].
        right. unfold same_file. rewrite Hd, Hm. lia.
  - rewrite filter_none; [done|]. apply Forall_forall. intros p _ [Hbetween _].
    unfold strictly_between, same_rank, same_file in Hbetween. lia.
Qed.

Definition is_cannon (piece : Piece) : Prop := piece = R_CANNON ∨ piece = B_CANNON.

(** [target] is a piece of the side that [piece] is not on. *)
Definition opposing (piece target : Piece) : Prop :=
  target ≠ EMPTY ∧ get_piece_side target ≠ get_piece_side piece.

(** C6: the rule of the piece accepts the move of a cannon to another cell
    exactly when the two cells share a rank or a file and either the target
    is empty and no piece stands strictly between them, or the target holds
    a piece of the other side and exactly one piece stands strictly between
    them. *)
Theorem cannon_move_rule b from_pos to_pos :
  from_pos < 90 → to_pos < 90 → from_pos ≠ to_pos →
  is_cannon (piece_at b from_pos) →
  _is_valid_piece_move b from_pos to_pos = true ↔
  (same_rank from_pos to_pos ∨ same_file from_pos to_pos) ∧
  ((piece_at b to_pos = EMPTY ∧ pieces_strictly_between b from_pos to_pos = 0) ∨
   (opposing (piece_at b from_pos) (piece_at b to_pos) ∧
    pieces_strictly_between b from_pos to_pos = 1)).
Proof.
  intros Hfrom Hto Hne Hcannon. unfold _is_valid_piece_move. cbv zeta.
  rewrite !pos_rc, get_pieces_between_spec by done.
  unfold opposing, same_rank, same_file.
  set (piece := piece_at b from_pos) in *. set (target := piece_at b to_pos) in *.
  set (k := pieces_strictly_between b from_pos to_pos).
  assert (piece ≠ EMPTY) as Hpiece by (destruct Hcannon; congruence).
  rewrite (decide_False (P := piece = EMPTY)) by done.
  rewrite (decide_False (P := from_pos = to_pos)) by done.
  assert (piece ∉ [R_KING; B_KING] ∧ piece ∉ [R_ADVISOR; B_ADVISOR] ∧
          piece ∉ [R_ELEPHANT; B_ELEPHANT] ∧ piece ∉ [R_HORSE; B_HORSE] ∧
          piece ∉ [R_CHARIOT; B_CHARIOT] ∧ piece ∈ [R_CANNON; B_CANNON])
    as (Hk & Ha & He & Hh & Hc & Hn).
  { destruct Hcannon as [-> | ->]; repeat split; set_solver. }
  rewrite (decide_False (P := piece ∈ [R_KING; B_KING])) by done.
  rewrite (decide_False (P := piece ∈ [R_ADVISOR; B_ADVISOR])) by done.
  rewrite (decide_False (P := piece ∈ [R_ELEPHANT; B_ELEPHANT])) by done.
  rewrite (decide_False (P := piece ∈ [R_HORSE; B_HORSE])) by done.
  rewrite (decide_False (P := piece ∈ [R_CHARIOT; B_CHARIOT])) by done.
  rewrite (decide_True (P := piece ∈ [R_CANNON; B_CANNON])) by done.
  clear Hk Ha He Hh Hc Hn.
  destruct (decide (target ≠ EMPTY ∧ get_piece_side piece = get_piece_side target))
    as [[Htarget Hsame]|Hfoe].
  { split; [done|]. intros [_ [[? _]|[[_ ?] _]]]; congruence. }
  destruct (decide ((Z.of_nat (to_pos / 9) - Z.of_nat (from_pos / 9))%Z ≠ 0%Z ∧
                    (Z.of_nat (to_pos mod 9) - Z.of_nat (from_pos mod 9))%Z ≠ 0%Z))
    as [Hskew|Hline].
  { split; [done|]. intros [[?|?] _]; lia. }
  assert (from_pos / 9 = to_pos / 9 ∨ from_pos mod 9 = to_pos mod 9) as Hstraight by lia.
  destruct (decide (target = EMPTY)) as [Hempty|Hfull].
  - rewrite bool_decide_eq_true. split; [by intros ?; split; [|left]|].
    intros [_ [[_ ?]|[[? _] _]]]; done.
  - rewrite bool_decide_eq_true. split.
    + intros Hone. split; [done|]. right. split; [|done]. split; [done|].
      intros Heq. apply Hfoe. done.
    + intros [_ [[? _]|[_ ?]]]; done.
Qed.

Lemma cannon_move_rule_witness :
  _is_valid_piece_move INITIAL_BOARD 19 82 = true ∧
  piece_at INITIAL_BOARD 19 = R_CANNON ∧ piece_at INITIAL_BOARD 82 = B_HORSE ∧
  pieces_strictly_between INITIAL_BOARD 19 82 = 1.
Proof.
  split; [|vm_compute; done].
  apply cannon_move_rule; [lia|lia|lia|by left|].
  split; [right; reflexivity|]. right. split; [|vm_compute; reflexivity].
  split; [vm_compute; congruence|vm_compute; congruence].
Defined.
End XiangqiFacts.

(* ================================================================== *)
(** * Properties of the gomoku engine *)
Module GomokuFacts.
Import Gomoku.

Ltac gm_fields :=
  cbv zeta;
  cbn [board_size player_black player_white board current_turn move_count last_move
       is_finished winner win_line set_player_white set_board set_current_turn
       set_move_count set_last_move set_is_finished set_winner set_win_line
       ok msg after fst snd] in *.

(** ** Lines of stones *)

(** The cell with coordinates [(x, y)] is on the board and holds a stone of
    colour [c]. *)
Definition holds (b : list Stone) (n : nat) (c : Stone) (x y : Z) : Prop :=
  (0 ≤ x < Z.of_nat n)%Z ∧ (0 ≤ y < Z.of_nat n)%Z ∧ b !! _xy_to_pos n x y = Some c.

#[local] Instance holds_dec b n c x y : Decision (holds b n c x y).
Proof. unfold holds. apply _. Defined.

(** The four axes of the board, each as the step from a cell to the next:
    along a row, along a column, and along the two diagonals. *)
Inductive axis : Z * Z → Prop :=
| horizontal : axis (1, 0)%Z
| vertical : axis (0, 1)%Z
| diagonal : axis (1, 1)%Z
| anti_diagonal : axis (1, -1)%Z.

(** Five stones of colour [c] in a row, from [(x, y)] on in direction [d]. *)
Definition five_from (b : list Stone) (n : nat) (c : Stone) (x y : Z) (d : Z * Z)
    : Prop :=
  ∀ k, (0 ≤ k < 5)%Z → holds b n c (x + d.1 * k) (y + d.2 * k).

(** The board shows five in a row of colour [c]. *)
Definition has_five (b : list Stone) (n : nat) (c : Stone) : Prop :=
  ∃ x y d, axis d ∧ five_from b n c x y d.

(** Five in a row of colour [c] along direction [d] that include the cell
    [(x, y)]. *)
Definition five_along (b : list Stone) (n : nat) (c : Stone) (x y : Z) (d : Z * Z)
    : Prop :=
  ∃ j, (0 ≤ j < 5)%Z ∧ five_from b n c (x - d.1 * j) (y - d.2 * j) d.

Definition five_through (b : list Stone) (n : nat) (c : Stone) (x y : Z) : Prop :=
  ∃ d, axis d ∧ five_along b n c x y d.

(** The cell [k] steps from [(x, y)] along [d] belongs to the unbroken run
    of colour [c] through [(x, y)]: every cell from [(x, y)] up to it holds
    colour [c]. *)
Definition in_run (b : list Stone) (n : nat) (c : Stone) (x y : Z) (d : Z * Z) (k : Z)
    : Prop :=
  ∀ j, (Z.min 0 k ≤ j ≤ Z.max 0 k)%Z → holds b n c (x + d.1 * j) (y + d.2 * j).

Lemma xy_to_pos_inj n x y x' y' :
  (0 ≤ x < Z.of_nat n)%Z → (0 ≤ y)%Z → (0 ≤ x' < Z.of_nat n)%Z → (0 ≤ y')%Z →
  _xy_to_pos n x y = _xy_to_pos n x' y' → x = x' ∧ y = y'.
Proof.
  unfold _xy_to_pos. intros Hx Hy Hx' Hy' Heq.
  assert (y * Z.of_nat n + x = y' * Z.of_nat n + x')%Z as Heq' by nia.
  assert (y = y') as -> by nia. lia.
Qed.

Lemma gomoku_xy_to_pos_lt n x y :
  (0 ≤ x < Z.of_nat n)%Z → (0 ≤ y < Z.of_nat n)%Z → _xy_to_pos n x y < n * n.
Proof. unfold _xy_to_pos. intros Hx Hy. nia. Qed.

Lemma pos_to_xy_to_pos n x y :
  (0 ≤ x < Z.of_nat n)%Z → (0 ≤ y)%Z → _pos_to_xy n (_xy_to_pos n x y) = (x, y).
Proof.
  intros Hx Hy. unfold _pos_to_xy, _xy_to_pos.
  replace (Z.to_nat (y * Z.of_nat n + x)) with (Z.to_nat x + Z.to_nat y * n) by nia.
  rewrite Nat.Div0.mod_add, Nat.div_add by lia.
  rewrite Nat.mod_small, Nat.div_small by lia. f_equal; lia.
Qed.

Lemma direction_cases d :
  d ∈ directions → d = (1, 0)%Z ∨ d = (0, 1)%Z ∨ d = (1, 1)%Z ∨ d = (1, -1)%Z.
Proof. unfold directions. set_solver. Qed.

(** The directions [_check_win] scans are the four axes, all of them and
    nothing else. *)
Lemma directions_axes d : d ∈ directions ↔ axis d.
Proof.
  split.
  - intros Hd. apply direction_cases in Hd as [-> | [-> | [-> | ->]]]; constructor.
  - intros Hd. unfold directions. destruct Hd; set_solver.
Qed.

(** Two cells of one line that are a different number of steps away are
    different cells. *)
Lemma line_cells_distinct n x y d j k :
  d ∈ directions →
  (0 ≤ x + d.1 * j < Z.of_nat n)%Z → (0 ≤ y + d.2 * j)%Z →
  (0 ≤ x + d.1 * k < Z.of_nat n)%Z → (0 ≤ y + d.2 * k)%Z →
  _xy_to_pos n (x + d.1 * j) (y + d.2 * j) = _xy_to_pos n (x + d.1 * k) (y + d.2 * k) →
  j = k.
Proof.
  intros Hd Hxj Hyj Hxk Hyk Heq.
  apply xy_to_pos_inj in Heq as [Hx Hy]; [|done..].
  apply direction_cases in Hd as [-> | [-> | [-> | ->]]]; cbn [fst snd] in *; lia.
Qed.

(** ** The scan of [_check_win] *)

Section scan.
Context (b : list Stone) (n : nat) (c : Stone) (at_step : Z → Z * Z).

Definition step_holds (i : Z) : Prop := holds b n c (at_step i).1 (at_step i).2.
Definition step_pos (i : Z) : nat := _xy_to_pos n (at_step i).1 (at_step i).2.

Lemma scan_cons i rest :
  scan b n c at_step (i :: rest)
  = if decide (step_holds i) then step_pos i :: scan b n c at_step rest else [].
Proof.
  cbn [scan]. unfold step_holds, step_pos, holds, in_range.
  destruct (at_step i) as [nx ny]. cbn [fst snd].
  case_bool_decide as Hr.
  - destruct Hr as [Hx Hy]. case_decide as Hc.
    + by rewrite decide_True.
    + rewrite decide_False; [done|]. by intros (_ & _ & ?).
  - rewrite decide_False; [done|]. intros (? & ? & _). by apply Hr.
Qed.

(** The scan takes the cells of the rounds up to the first round whose
    cell is off the board or does not hold colour [c]. *)
Lemma scan_spec rounds :
  let m := length (scan b n c at_step rounds) in
  m ≤ length rounds ∧
  scan b n c at_step rounds = step_pos <$> take m rounds ∧
  (∀ idx i, idx < m → rounds !! idx = Some i → step_holds i) ∧
  (∀ i, rounds !! m = Some i → ¬ step_holds i).
Proof.
  induction rounds as [|i rest IH]; [cbn; repeat split; try done; lia|].
  rewrite scan_cons. case_decide as Hi.
  - cbn [length take fmap list_fmap]. destruct IH as (Hle & Heq & Hall & Hstop).
    split; [lia|]. split; [by rewrite <- Heq|]. split.
    + intros [|idx] j Hidx; cbn; [by intros [= <-]|]. apply Hall. lia.
    + done.
  - cbn. split; [lia|]. split; [done|]. split; [lia|]. by intros j [= <-].
Qed.

End scan.

Lemma four_rounds idx : idx < 4 → [1; 2; 3; 4]%Z !! idx = Some (Z.of_nat idx + 1)%Z.
Proof. intros H. do 4 (destruct idx as [|idx]; [done|]). lia. Qed.

(** The scan over the rounds 1 to 4: the cells of the first [m] rounds,
    each holding colour [c], with [m] at most 4 and, when less, stopped by
    the cell of round [m + 1]. *)
Lemma scan_four b n c at_step :
  let cells := scan b n c at_step [1; 2; 3; 4]%Z in
  length cells ≤ 4 ∧
  (∀ i, (1 ≤ i ≤ Z.of_nat (length cells))%Z → step_holds b n c at_step i) ∧
  (length cells < 4 → ¬ step_holds b n c at_step (Z.of_nat (length cells) + 1)) ∧
  (∀ q, q ∈ cells ↔
        ∃ i, (1 ≤ i ≤ Z.of_nat (length cells))%Z ∧ q = step_pos n at_step i) ∧
  (∀ idx, idx < length cells →
          cells !! idx = Some (step_pos n at_step (Z.of_nat idx + 1))).
Proof.
  cbv zeta. destruct (scan_spec b n c at_step [1; 2; 3; 4]%Z) as (Hle & Heq & Hall & Hstop).
  cbn [length] in Hle. split; [done|].
  set (m := length (scan b n c at_step [1; 2; 3; 4]%Z)) in *.
  assert (∀ idx, idx < m →
            scan b n c at_step [1; 2; 3; 4]%Z !! idx
            = Some (step_pos n at_step (Z.of_nat idx + 1))) as Hlook.
  { intros idx Hidx. rewrite Heq, list_lookup_fmap, lookup_take_lt by done.
    by rewrite four_rounds by lia. }
  split; [|split; [|split]].
  - intros i Hi. apply (Hall (Z.to_nat (i - 1))); [lia|].
    rewrite four_rounds by lia. f_equal. lia.
  - intros Hm. apply Hstop. by apply four_rounds.
  - intros q. rewrite list_elem_of_lookup. split.
    + intros (idx & Hq). assert (idx < m) as Hidx by (by eapply lookup_lt_Some).
      rewrite Hlook in Hq by done. injection Hq as <-.
      exists (Z.of_nat idx + 1)%Z. split; [lia|done].
    + intros (i & Hi & ->). exists (Z.to_nat (i - 1)). rewrite Hlook by lia.
      do 2 f_equal. lia.
  - done.
Qed.

(** ** The line of one direction *)

Section line.
Context (b : list Stone) (n : nat) (c : Stone) (x y : Z) (d : Z * Z).
Context (Hd : d ∈ directions) (Hhere : holds b n c x y).

Let ahead := scan b n c (λ i, (x + d.1 * i, y + d.2 * i)%Z) [1; 2; 3; 4]%Z.
Let behind := scan b n c (λ i, (x - d.1 * i, y - d.2 * i)%Z) [1; 2; 3; 4]%Z.

Lemma line_along_eq :
  line_along b n c (_xy_to_pos n x y) x y d = [_xy_to_pos n x y] ++ ahead ++ behind.
Proof. unfold line_along. by destruct d. Qed.

(** The cells the two scans have taken: [k] steps ahead for [k] up to the
    length of the first, [k] steps behind for [k] up to the length of the
    second. *)
Lemma line_holds k :
  (- Z.of_nat (length behind) ≤ k ≤ Z.of_nat (length ahead))%Z →
  holds b n c (x + d.1 * k) (y + d.2 * k).
Proof.
  intros Hk.
  destruct (scan_four b n c (λ i, (x + d.1 * i, y + d.2 * i)%Z)) as (_ & Ha & _).
  destruct (scan_four b n c (λ i, (x - d.1 * i, y - d.2 * i)%Z)) as (_ & Hb & _).
  fold ahead in Ha. fold behind in Hb.
  destruct (Z.lt_trichotomy k 0) as [Hneg|[-> |Hpos]].
  - specialize (Hb (- k)%Z ltac:(lia)). unfold step_holds in Hb. cbn [fst snd] in Hb.
    by replace (x - d.1 * - k)%Z with (x + d.1 * k)%Z in Hb by lia;
       replace (y - d.2 * - k)%Z with (y + d.2 * k)%Z in Hb by lia.
  - by replace (x + d.1 * 0)%Z with x by lia; replace (y + d.2 * 0)%Z with y by lia.
  - by apply (Ha k ltac:(lia)).
Qed.

Lemma line_ahead_stop :
  length ahead < 4 →
  ¬ holds b n c (x + d.1 * (Z.of_nat (length ahead) + 1))
               (y + d.2 * (Z.of_nat (length ahead) + 1)).
Proof.
  destruct (scan_four b n c (λ i, (x + d.1 * i, y + d.2 * i)%Z)) as (_ & _ & Hs & _).
  done.
Qed.

Lemma line_behind_stop :
  length behind < 4 →
  ¬ holds b n c (x + d.1 * (- (Z.of_nat (length behind) + 1)))
               (y + d.2 * (- (Z.of_nat (length behind) + 1))).
Proof.
  destruct (scan_four b n c (λ i, (x - d.1 * i, y - d.2 * i)%Z)) as (_ & _ & Hs & _).
  intros Hlt Hh. apply (Hs Hlt). unfold step_holds. cbn [fst snd]. fold behind.
  by replace (x - d.1 * (Z.of_nat (length behind) + 1))%Z
       with (x + d.1 * - (Z.of_nat (length behind) + 1))%Z by lia;
     replace (y - d.2 * (Z.of_nat (length behind) + 1))%Z
       with (y + d.2 * - (Z.of_nat (length behind) + 1))%Z by lia.
Qed.

Lemma line_lengths : length ahead ≤ 4 ∧ length behind ≤ 4.
Proof.
  destruct (scan_four b n c (λ i, (x + d.1 * i, y + d.2 * i)%Z)) as (? & _).
  destruct (scan_four b n c (λ i, (x - d.1 * i, y - d.2 * i)%Z)) as (? & _).
  done.
Qed.

(** The line has five cells or more exactly when five in a row along [d]
    include [(x, y)]. *)
Lemma line_five :
  5 ≤ length (line_along b n c (_xy_to_pos n x y) x y d) ↔ five_along b n c x y d.
Proof.
  rewrite line_along_eq, !length_app. cbn [length].
  destruct line_lengths as [Hla Hlb]. split.
  - intros Hlen. exists (Z.of_nat (length behind)). split; [lia|].
    intros k Hk.
    replace (x - d.1 * Z.of_nat (length behind) + d.1 * k)%Z
      with (x + d.1 * (k - Z.of_nat (length behind)))%Z by lia.
    replace (y - d.2 * Z.of_nat (length behind) + d.2 * k)%Z
      with (y + d.2 * (k - Z.of_nat (length behind)))%Z by lia.
    apply line_holds. lia.
  - intros (j & Hj & Hfive).
    assert (∀ k, (- j ≤ k ≤ 4 - j)%Z → holds b n c (x + d.1 * k) (y + d.2 * k)) as Hrun.
    { intros k Hk. specialize (Hfive (k + j)%Z ltac:(lia)).
      by replace (x - d.1 * j + d.1 * (k + j))%Z with (x + d.1 * k)%Z in Hfive by lia;
         replace (y - d.2 * j + d.2 * (k + j))%Z with (y + d.2 * k)%Z in Hfive by lia. }
    assert (4 - j ≤ Z.of_nat (length ahead))%Z as Hahead.
    { destruct (decide (4 - j ≤ Z.of_nat (length ahead))%Z) as [|Hless]; [done|].
      destruct line_ahead_stop; [lia|]. apply Hrun. lia. }
    assert (j ≤ Z.of_nat (length behind))%Z as Hbehind.
    { destruct (decide (j ≤ Z.of_nat (length behind))%Z) as [|Hless]; [done|].
      destruct line_behind_stop; [lia|]. apply Hrun. lia. }
    lia.
Qed.

(** When the run through [(x, y)] stops within four cells on either side,
    the line is the run: it lists every cell of the run once. *)
Lemma line_is_run :
  ¬ five_from b n c (x + d.1) (y + d.2) d →
  ¬ five_from b n c (x - d.1 * 5) (y - d.2 * 5) d →
  NoDup (line_along b n c (_xy_to_pos n x y) x y d) ∧
  ∀ q, q ∈ line_along b n c (_xy_to_pos n x y) x y d ↔
       ∃ k, in_run b n c x y d k ∧ q = _xy_to_pos n (x + d.1 * k) (y + d.2 * k).
Proof.
  intros Hno_ahead Hno_behind.
  destruct line_lengths as [Hla Hlb].
  destruct (scan_four b n c (λ i, (x + d.1 * i, y + d.2 * i)%Z))
    as (_ & _ & _ & Hina & Hlooka).
  destruct (scan_four b n c (λ i, (x - d.1 * i, y - d.2 * i)%Z))
    as (_ & _ & _ & Hinb & Hlookb).
  fold ahead in Hina, Hlooka. fold behind in Hinb, Hlookb.
  unfold step_pos in *. cbn [fst snd] in *.
  assert (∀ k, in_run b n c x y d k →
               (- Z.of_nat (length behind) ≤ k ≤ Z.of_nat (length ahead))%Z) as Hbound.
  { intros k Hk. split.
    - destruct (decide (- Z.of_nat (length behind) ≤ k)%Z) as [|Hless]; [done|].
      destruct (decide (length behind < 4)) as [Hshort|Hfull].
      + destruct (line_behind_stop Hshort). apply Hk. lia.
      + destruct Hno_behind. intros i Hi.
        replace (x - d.1 * 5 + d.1 * i)%Z with (x + d.1 * (i - 5))%Z by lia.
        replace (y - d.2 * 5 + d.2 * i)%Z with (y + d.2 * (i - 5))%Z by lia.
        apply Hk. lia.
    - destruct (decide (k ≤ Z.of_nat (length ahead))%Z) as [|Hmore]; [done|].
      destruct (decide (length ahead < 4)) as [Hshort|Hfull].
      + destruct (line_ahead_stop Hshort). apply Hk. lia.
      + destruct Hno_ahead. intros i Hi.
        replace (x + d.1 + d.1 * i)%Z with (x + d.1 * (i + 1))%Z by lia.
        replace (y + d.2 + d.2 * i)%Z with (y + d.2 * (i + 1))%Z by lia.
        apply Hk. lia. }
  assert (∀ j k, (- Z.of_nat (length behind) ≤ j ≤ Z.of_nat (length ahead))%Z →
                 (- Z.of_nat (length behind) ≤ k ≤ Z.of_nat (length ahead))%Z →
                 _xy_to_pos n (x + d.1 * j) (y + d.2 * j)
                 = _xy_to_pos n (x + d.1 * k) (y + d.2 * k) → j = k) as Hinj.
  { intros j k Hj%line_holds Hk%line_holds.
    destruct Hj as (? & ? & _), Hk as (? & ? & _).
    apply line_cells_distinct; [done|lia..]. }
  assert (∀ q, q ∈ behind ↔
               ∃ k, (- Z.of_nat (length behind) ≤ k ≤ -1)%Z ∧
                    q = _xy_to_pos n (x + d.1 * k) (y + d.2 * k)) as Hinb'.
  { intros q. rewrite Hinb. split.
    - intros (i & Hi & ->). exists (- i)%Z. split; [lia|]. f_equal; lia.
    - intros (k & Hk & ->). exists (- k)%Z. split; [lia|]. f_equal; lia. }
  split.
  - rewrite line_along_eq. apply NoDup_app. split; [apply NoDup_singleton|]. split.
    { intros q ->%list_elem_of_singleton [Hq|Hq]%elem_of_app.
      - apply Hina in Hq as (i & Hi & Heq).
        assert (0 = i)%Z; [|lia]. apply Hinj; [lia..|]. rewrite <- Heq. f_equal; lia.
      - apply Hinb' in Hq as (k & Hk & Heq).
        assert (0 = k)%Z; [|lia]. apply Hinj; [lia..|]. rewrite <- Heq. f_equal; lia. }
    apply NoDup_app. split; [|split].
    + apply NoDup_alt. intros i j q Hi Hj.
      assert (i < length ahead) as Hil by (by eapply lookup_lt_Some).
      assert (j < length ahead) as Hjl by (by eapply lookup_lt_Some).
      rewrite Hlooka in Hi, Hj by done. rewrite <- Hi in Hj. injection Hj as Hj.
      apply Hinj in Hj; lia.
    + intros q (i & Hi & ->)%Hina (k & Hk & Heq)%Hinb'.
      apply Hinj in Heq; lia.
    + apply NoDup_alt. intros i j q Hi Hj.
      assert (i < length behind) as Hil by (by eapply lookup_lt_Some).
      assert (j < length behind) as Hjl by (by eapply lookup_lt_Some).
      rewrite Hlookb in Hi, Hj by done. rewrite <- Hi in Hj. injection Hj as Hj.
      replace (x - d.1 * (Z.of_nat j + 1))%Z
        with (x + d.1 * - (Z.of_nat j + 1))%Z in Hj by lia.
      replace (y - d.2 * (Z.of_nat j + 1))%Z
        with (y + d.2 * - (Z.of_nat j + 1))%Z in Hj by lia.
      replace (x - d.1 * (Z.of_nat i + 1))%Z
        with (x + d.1 * - (Z.of_nat i + 1))%Z in Hj by lia.
      replace (y - d.2 * (Z.of_nat i + 1))%Z
        with (y + d.2 * - (Z.of_nat i + 1))%Z in Hj by lia.
      apply Hinj in Hj; lia.
  - intros q. rewrite line_along_eq, !elem_of_app, list_elem_of_singleton, Hina, Hinb'.
    split.
    + intros [-> |[(i & Hi & ->)|(k & Hk & ->)]].
      * exists 0%Z. split; [|f_equal; lia]. intros j Hj. apply line_holds. lia.
      * exists i. split; [|done]. intros j Hj. apply line_holds. lia.
      * exists k. split; [|done]. intros j Hj. apply line_holds. lia.
    + intros (k & Hk%Hbound & ->).
      destruct (Z.lt_trichotomy k 0) as [Hneg|[-> |Hpos]].
      * right; right. exists k. split; [lia|done].
      * left. f_equal; lia.
      * right; left. exists k. split; [lia|done].
Qed.

End line.

(** ** The test for a win *)

Lemma first_win_spec b n c pos x y ds :
  match first_win b n c pos x y ds with
  | Some line => ∃ d, d ∈ ds ∧ line = line_along b n c pos x y d ∧ 5 ≤ length line
  | None => ∀ d, d ∈ ds → length (line_along b n c pos x y d) < 5
  end.
Proof.
  induction ds as [|d ds IH]; cbn [first_win]; [by intros d ?%elem_of_nil|].
  cbv zeta. case_decide as Hlen.
  - exists d. split; [by left|done].
  - destruct (first_win b n c pos x y ds) as [line|].
    + destruct IH as (d' & Hd' & Heq & Hlen'). exists d'. split; [by right|done].
    + intros d' [-> |Hd']%elem_of_cons; [lia|by apply IH].
Qed.

(** [_check_win] at a cell that holds colour [c]: it returns the line of
    the first direction along which five in a row include the cell, and
    nothing when there is no such direction. *)
Lemma check_win_spec b n c x y :
  c ≠ EMPTY → holds b n c x y →
  match _check_win b n (_xy_to_pos n x y) with
  | Some line =>
    ∃ d, d ∈ directions ∧ five_along b n c x y d ∧
         line = line_along b n c (_xy_to_pos n x y) x y d
  | None => ¬ five_through b n c x y
  end.
Proof.
  intros Hc Hhere. unfold _check_win. destruct Hhere as (Hx & Hy & Hcell) eqn:E.
  rewrite Hcell. rewrite pos_to_xy_to_pos by lia.
  replace (match c with EMPTY => None | _ =>
             first_win b n c (_xy_to_pos n x y) x y directions end)
    with (first_win b n c (_xy_to_pos n x y) x y directions) by (by destruct c).
  pose proof (first_win_spec b n c (_xy_to_pos n x y) x y directions) as Hspec.
  destruct (first_win b n c (_xy_to_pos n x y) x y directions) as [line|].
  - destruct Hspec as (d & Hd & -> & Hlen). exists d. split; [done|]. split; [|done].
    by apply line_five.
  - intros (d & Hd%directions_axes & Hfive). apply line_five in Hfive; [|done..].
    specialize (Hspec d Hd). lia.
Qed.

(** ** Placing a stone *)

Section placing.
Context (b : list Stone) (n : nat) (c : Stone) (x y : Z).
Context (Hx : (0 ≤ x < Z.of_nat n)%Z) (Hy : (0 ≤ y < Z.of_nat n)%Z).
Context (Hlen : length b = n * n).

Let b' := <[_xy_to_pos n x y := c]> b.

Lemma placed_here : holds b' n c x y.
Proof.
  split; [done|]. split; [done|]. unfold b'. apply list_lookup_insert_eq.
  rewrite Hlen. by apply gomoku_xy_to_pos_lt.
Qed.

Lemma placed_elsewhere c' x' y' :
  (x', y') ≠ (x, y) → holds b' n c' x' y' → holds b n c' x' y'.
Proof.
  intros Hne (Hx' & Hy' & Hcell). split; [done|]. split; [done|].
  unfold b' in Hcell. rewrite list_lookup_insert_ne in Hcell; [done|].
  intros Heq. apply xy_to_pos_inj in Heq as [-> ->]; [done|lia..].
Qed.

(** Five in a row that do not include the new stone were there before. *)
Lemma five_from_before c' x0 y0 d :
  (∀ k, (0 ≤ k < 5)%Z → (x0 + d.1 * k, y0 + d.2 * k)%Z ≠ (x, y)) →
  five_from b' n c' x0 y0 d → five_from b n c' x0 y0 d.
Proof. intros Hne Hfive k Hk. apply placed_elsewhere; [by apply Hne|by apply Hfive]. Qed.

(** Five in a row on the new board were there before or include the new
    stone. *)
Lemma placed_five c' :
  has_five b' n c' → has_five b n c' ∨ (c' = c ∧ five_through b' n c x y).
Proof.
  intros (x0 & y0 & d & Hd & Hfive).
  destruct (decide (Exists (λ k, (x0 + d.1 * k, y0 + d.2 * k)%Z = (x, y))
                           [0; 1; 2; 3; 4]%Z)) as [Hhit|Hmiss].
  - right. apply Exists_exists in Hhit as (k & Hk & [= Hkx Hky]).
    assert (0 ≤ k < 5)%Z as Hk' by set_solver by lia.
    assert (c' = c) as ->.
    { destruct (Hfive k Hk') as (_ & _ & Hcell). rewrite Hkx, Hky in Hcell.
      destruct placed_here as (_ & _ & Hcell'). congruence. }
    split; [done|]. exists d. split; [done|]. exists k. split; [done|].
    by replace (x - d.1 * k)%Z with x0 by lia; replace (y - d.2 * k)%Z with y0 by lia.
  - left. exists x0, y0, d. split; [done|]. apply five_from_before; [|done].
    intros k Hk Heq. apply Hmiss. apply Exists_exists. exists k. split; [|done].
    assert (k = 0 ∨ k = 1 ∨ k = 2 ∨ k = 3 ∨ k = 4)%Z as Hcases by lia.
    set_solver.
Qed.

(** The run through the new stone along [d] stops within four cells on
    either side when there was no five in a row before. *)
Lemma no_five_beyond d :
  d ∈ directions → ¬ has_five b n c →
  ¬ five_from b' n c (x + d.1) (y + d.2) d ∧
  ¬ five_from b' n c (x - d.1 * 5) (y - d.2 * 5) d.
Proof.
  intros Hd Hnone. apply directions_axes in Hd as Haxis.
  split; intros Hfive; apply Hnone.
  - exists (x + d.1)%Z, (y + d.2)%Z, d. split; [done|].
    apply five_from_before; [|done]. intros k Hk [= Hkx Hky].
    apply direction_cases in Hd as [-> | [-> | [-> | ->]]]; cbn [fst snd] in *; lia.
  - exists (x - d.1 * 5)%Z, (y - d.2 * 5)%Z, d. split; [done|].
    apply five_from_before; [|done]. intros k Hk [= Hkx Hky].
    apply direction_cases in Hd as [-> | [-> | [-> | ->]]]; cbn [fst snd] in *; lia.
Qed.

End placing.

(** ** The session after a move *)

Definition other (c : Stone) : Stone := if decide (c = BLACK) then WHITE else BLACK.

(** What a call of [make_move] can do: reject the move and leave the
    session alone, or put the stone and end the game on a line, end it on a
    full board, or pass the turn. *)
Lemma gomoku_make_move_inv g p x y :
  let r := make_move g p x y in
  let n := board_size g in
  let pos := _xy_to_pos n x y in
  let b' := <[pos := current_turn g]> (board g) in
  (ok r = false ∧ after r = g) ∨
  (ok r = true ∧ is_finished g = false ∧ in_range n x y = true ∧
   board g !! pos = Some EMPTY ∧
   board (after r) = b' ∧ board_size (after r) = n ∧
   match _check_win b' n pos with
   | Some line =>
     is_finished (after r) = true ∧ winner (after r) = Some (current_turn g) ∧
     win_line (after r) = Some line ∧ current_turn (after r) = current_turn g
   | None =>
     winner (after r) = winner g ∧ win_line (after r) = win_line g ∧
     (is_finished (after r) = false → current_turn (after r) = other (current_turn g)) ∧
     (is_finished (after r) = true → current_turn (after r) = current_turn g)
   end).
Proof.
  destruct g as [n pb pw bd ct mc lm fin win wl]. unfold make_move. gm_fields.
  destruct fin; [by left|].
  do 3 (case_decide; [by left|]).
  destruct (in_range n x y) eqn:Hrange; cbn [negb]; [|by left].
  case_decide as Hfree; [by left|].
  assert (bd !! _xy_to_pos n x y = Some EMPTY) as Hfree'
    by (by destruct (decide (bd !! _xy_to_pos n x y = Some EMPTY))).
  right. destruct (_check_win (<[_xy_to_pos n x y := ct]> bd) n (_xy_to_pos n x y)).
  - gm_fields. done.
  - case_decide; gm_fields; done.
Qed.

(** ** The shape of a session *)

Definition no_five (b : list Stone) (n : nat) : Prop :=
  ∀ c, c ≠ EMPTY → ¬ has_five b n c.

Record wf (g : GomokuGame) : Prop := Wf {
  wf_board : length (board g) = board_size g * board_size g;
  wf_turn : current_turn g = BLACK ∨ current_turn g = WHITE;
  wf_open : is_finished g = false → winner g = None ∧ no_five (board g) (board_size g)
}.

Lemma in_range_bounds n x y :
  in_range n x y = true → (0 ≤ x < Z.of_nat n)%Z ∧ (0 ≤ y < Z.of_nat n)%Z.
Proof. unfold in_range. by intros ?%bool_decide_eq_true. Qed.

Lemma empty_board_no_five n : no_five (replicate (n * n) EMPTY) n.
Proof.
  intros c Hc (x & y & d & _ & Hfive).
  destruct (Hfive 0%Z ltac:(lia)) as (_ & _ & Hcell).
  apply lookup_replicate in Hcell as [? _]. congruence.
Qed.

Lemma gomoku_wf_step g o : wf g → wf (apply_op g o).
Proof.
  intros Hwf. destruct o as [p|p x y|p]; cbn [apply_op].
  - unfold join. repeat case_decide; try done. destruct Hwf. by destruct g.
  - destruct (gomoku_make_move_inv g p x y)
      as [[_ ->]|(_ & Hfin & Hrange%in_range_bounds & _ & Hb & Hn & Hres)]; [done|].
    destruct Hwf as [Hlen Hturn Hopen]. destruct (Hopen Hfin) as [Hwin Hnone].
    destruct Hrange as [Hx Hy].
    assert (current_turn g ≠ EMPTY) as Hcol by (destruct Hturn; congruence).
    pose proof (check_win_spec (<[_xy_to_pos (board_size g) x y := current_turn g]>
                                  (board g)) (board_size g) (current_turn g) x y Hcol
                  (placed_here (board g) (board_size g) (current_turn g) x y Hx Hy Hlen))
      as Hcheck.
    destruct (_check_win _ _ _) as [line|].
    + destruct Hres as (Hf' & _ & _ & Ht'). split.
      * by rewrite Hb, Hn, length_insert.
      * by rewrite Ht'.
      * by rewrite Hf'.
    + destruct Hres as (Hw' & _ & Hgo & Hstay). split.
      * by rewrite Hb, Hn, length_insert.
      * destruct (is_finished (after (make_move g p x y))) eqn:Hf'.
        -- by rewrite Hstay.
        -- rewrite Hgo by done. unfold other. case_decide; eauto.
      * intros Hf'. split; [congruence|]. rewrite Hb, Hn. intros c' Hc' Hfive.
        apply placed_five in Hfive as [Hold|[-> Hnew]]; [by apply (Hnone c')|done|..];
          done.
  - unfold surrender. destruct (is_finished g); [done|].
    repeat case_decide; try done; destruct Hwf; destruct g; split; gm_fields; done.
Qed.

Lemma gomoku_reachable_wf g : reachable g → wf g.
Proof.
  induction 1 as [n p Hn|g o _ IH]; [|by apply gomoku_wf_step].
  split; cbn; [by rewrite length_replicate|by left|].
  intros _. split; [done|]. apply empty_board_no_five.
Qed.

Lemma gomoku_reachable_ops g os : reachable g → reachable (foldl apply_op g os).
Proof.
  revert g. induction os as [|o os IH]; intros g Hg; [done|].
  cbn [foldl]. apply IH. by apply reach_op.
Qed.

(** C9: in a session the engine can reach, a board on which the game goes
    on shows no five in a row along any of the four axes.  A move the
    engine accepts ends the game with the mover as winner exactly when five
    stones of the mover in a row along a row, a column or one of the two
    diagonals include the new stone; [win_line] is then, for one of these
    axes, the whole unbroken run of the mover's stones through the new
    stone, each cell once, five cells or more. *)
Theorem five_ends_game g :
  reachable g →
  (is_finished g = false → no_five (board g) (board_size g)) ∧
  ∀ p x y,
    ok (make_move g p x y) = true →
    let g' := after (make_move g p x y) in
    let n := board_size g in
    let c := current_turn g in
    board g' = <[_xy_to_pos n x y := c]> (board g) ∧
    (is_finished g' = true ∧ winner g' = Some c ↔ five_through (board g') n c x y) ∧
    (five_through (board g') n c x y →
     ∃ d line,
       axis d ∧ five_along (board g') n c x y d ∧
       win_line g' = Some line ∧ 5 ≤ length line ∧ NoDup line ∧
       ∀ q, q ∈ line ↔
            ∃ k, in_run (board g') n c x y d k ∧
                 q = _xy_to_pos n (x + d.1 * k) (y + d.2 * k)).
Proof.
  intros Hwf%gomoku_reachable_wf. destruct Hwf as [Hlen Hturn Hopen].
  split; [intros Hfin; by apply Hopen|].
  intros p x y Hok. cbv zeta.
  destruct (gomoku_make_move_inv g p x y)
    as [[Hno _]|(_ & Hfin & Hrange%in_range_bounds & _ & Hb & Hn & Hres)];
    [congruence|]. clear Hok.
  destruct (Hopen Hfin) as [Hwin Hnone]. destruct Hrange as [Hx Hy].
  assert (current_turn g ≠ EMPTY) as Hcol by (destruct Hturn; congruence).
  pose proof (placed_here (board g) (board_size g) (current_turn g) x y Hx Hy Hlen)
    as Hhere.
  pose proof (check_win_spec _ _ _ x y Hcol Hhere) as Hcheck.
  rewrite Hb. split; [done|].
  destruct (_check_win _ _ _) as [line|].
  - destruct Hres as (Hf' & Hw' & Hl' & _).
    destruct Hcheck as (d & Hd & Hfive & ->).
    apply directions_axes in Hd as Haxis.
    split; [split; [intros _; by exists d|done]|].
    intros _. exists d. eexists.
    split; [done|]. split; [done|]. split; [exact Hl'|].
    split; [by apply line_five|].
    destruct (no_five_beyond (board g) (board_size g) (current_turn g) x y Hx Hy Hlen d Hd
                (Hnone _ Hcol)) as [Hahead Hbehind].
    by apply line_is_run.
  - destruct Hres as (Hw' & _). split; [|done].
    split; [|done]. intros [_ Hw'']. congruence.
Qed.

(** Black to move with black stones on A1, B1, C1, E1 and F1 of a board of
    fifteen lines. *)
Definition six_game : GomokuGame :=
  foldl apply_op (new_game 15 "alice")
    [OpJoin "bob"; OpMove "alice" 0 0; OpMove "bob" 0 5; OpMove "alice" 1 0;
     OpMove "bob" 1 5; OpMove "alice" 2 0; OpMove "bob" 2 5; OpMove "alice" 4 0;
     OpMove "bob" 3 5; OpMove "alice" 5 0; OpMove "bob" 9 9]%Z.

Lemma six_game_reachable : reachable six_game.
Proof. apply gomoku_reachable_ops, reach_create. set_solver. Qed.

Lemma five_ends_game_witness :
  ok (make_move six_game "alice" 3 0) = true ∧
  five_through (board (after (make_move six_game "alice" 3 0)))
               (board_size six_game) (current_turn six_game) 3 0 ∧
  win_line (after (make_move six_game "alice" 3 0)) = Some [3; 4; 5; 2; 1; 0].
Proof.
  assert (ok (make_move six_game "alice" 3 0) = true) as Hok
    by (vm_compute; reflexivity).
  split; [exact Hok|]. split; [|vm_compute; reflexivity].
  pose proof (proj2 (five_ends_game six_game six_game_reachable) "alice" 3%Z 0%Z Hok)
    as Hthm.
  cbv zeta in Hthm. destruct Hthm as (_ & Hiff & _).
  apply Hiff. split; vm_compute; reflexivity.
Defined.
End GomokuFacts.

(* ================================================================== *)
(** * Properties of the flip-and-capture engine *)
Module JunqiFacts.
Import Junqi.

Ltac jq_fields :=
  cbv zeta;
  cbn [player_a player_b player_a_side board current_turn move_count last_action
       last_pos is_finished winner red_flag_captured blue_flag_captured ROWS COLS
       set_player_b set_player_a_side set_board set_current_turn set_move_count
       set_last_action set_last_pos set_is_finished set_winner
       set_red_flag_captured set_blue_flag_captured _switch_turn
       ok msg after fst snd] in *.

Inductive reachable : JunqiGame → Prop :=
| reach_create g : created g → reachable g
| reach_op g o : reachable g → reachable (apply_op g o).

Lemma junqi_reachable_ops g os : reachable g → reachable (foldl apply_op g os).
Proof.
  revert g. induction os as [|o os IH]; intros g Hg; [done|].
  cbn [foldl]. apply IH. by apply reach_op.
Qed.

(** ** The session after a flip *)

Definition flipped (g : JunqiGame) (pos : Z) (piece : Piece) (action : string)
    : JunqiGame :=
  mkJunqi (player_a g) (player_b g)
          (match player_a_side g with None => Some (side piece) | Some s => Some s end)
          (<[Z.to_nat pos := Some (mkPiece (piece_type piece) (side piece) true)]>
             (board g))
          (if decide (current_turn g = 1)%Z then 2%Z else 1%Z)
          (move_count g + 1)%Z (Some action) (Some pos) (is_finished g) (winner g)
          (red_flag_captured g) (blue_flag_captured g) (ROWS g) (COLS g).

Lemma flip_inv g p pos :
  (ok (flip g p pos) = false ∧ after (flip g p pos) = g) ∨
  (ok (flip g p pos) = true ∧ is_finished g = false ∧ player_b g ≠ None ∧
   Some p = get_current_player g ∧ valid_pos g pos = true ∧
   ∃ piece action, cell g pos = Some piece ∧ revealed piece = false ∧
                   after (flip g p pos) = flipped g pos piece action).
Proof.
  unfold flip.
  destruct (is_finished g) eqn:Hfin; [by left|].
  case_decide as Hb; [by left|].
  case_decide as Hcur; [by left|].
  destruct (valid_pos g pos) eqn:Hvalid; cbn [negb]; [|by left].
  destruct (cell g pos) as [piece|] eqn:Hcell; [|by left].
  destruct (revealed piece) eqn:Hrev; [by left|].
  right. split; [done|]. split; [done|]. split; [done|].
  split; [by destruct (decide (Some p = get_current_player g))|]. split; [done|].
  exists piece. unfold flipped.
  destruct g as [pa pb pas bd ct mc la lp fin win rf bf rows cols]. jq_fields.
  subst fin.
  destruct pas as [s|].
  - rewrite decide_False by done. jq_fields. eexists. split; [done|]. split; [done|].
    reflexivity.
  - rewrite decide_True by done. jq_fields. eexists. split; [done|]. split; [done|].
    reflexivity.
Qed.

(** ** The session after a move *)

(** The board once [piece] has left [from_pos] for [to_pos], which held
    [target]. *)
Definition moved_board (b : list (option Piece)) (from_pos to_pos : nat)
    (piece : Piece) (target : option Piece) : list (option Piece) :=
  match target with
  | None => <[from_pos := None]> (<[to_pos := Some piece]> b)
  | Some t =>
    if decide (_battle piece t = "win")
    then <[from_pos := None]> (<[to_pos := Some piece]> b)
    else if decide (_battle piece t = "lose") then <[from_pos := None]> b
    else <[to_pos := None]> (<[from_pos := None]> b)
  end.

Definition is_flag (target : option Piece) : bool :=
  match target with
  | Some t => bool_decide (piece_type t = FLAG)
  | None => false
  end.

Definition moved (g : JunqiGame) (from_pos to_pos : Z) (piece : Piece)
    (target : option Piece) (action : string) : JunqiGame :=
  let red := match target with
             | Some t => if decide (piece_type t = FLAG ∧ side t = RED) then true
                         else red_flag_captured g
             | None => red_flag_captured g
             end in
  let blue := match target with
              | Some t => if decide (piece_type t = FLAG ∧ side t ≠ RED) then true
                          else blue_flag_captured g
              | None => blue_flag_captured g
              end in
  let ended := is_flag target && (red || blue) in
  mkJunqi (player_a g) (player_b g) (player_a_side g)
          (moved_board (board g) (Z.to_nat from_pos) (Z.to_nat to_pos) piece target)
          (if decide (current_turn g = 1)%Z then 2%Z else 1%Z)
          (move_count g + 1)%Z (Some action) (Some to_pos)
          (if ended then true else is_finished g)
          (if ended then
             if red then
               if decide (player_a_side g = Some BLUE) then Some (player_a g)
               else player_b g
             else
               if decide (player_a_side g = Some RED) then Some (player_a g)
               else player_b g
           else winner g)
          red blue (ROWS g) (COLS g).

Lemma move_inv g p from_pos to_pos :
  (ok (move g p from_pos to_pos) = false ∧ after (move g p from_pos to_pos) = g) ∨
  (ok (move g p from_pos to_pos) = true ∧ is_finished g = false ∧
   player_b g ≠ None ∧ Some p = get_current_player g ∧ player_a_side g ≠ None ∧
   valid_pos g from_pos = true ∧ valid_pos g to_pos = true ∧
   ∃ piece action,
     cell g from_pos = Some piece ∧ revealed piece = true ∧
     Some (side piece) = get_player_side g p ∧
     piece_type piece ≠ MINE ∧ piece_type piece ≠ FLAG ∧
     Z.to_nat to_pos ∈ _get_neighbors g (Z.to_nat from_pos) ∧
     (∀ t, cell g to_pos = Some t →
           revealed t = true ∧ Some (side t) ≠ get_player_side g p) ∧
     after (move g p from_pos to_pos)
     = moved g from_pos to_pos piece (cell g to_pos) action).
Proof.
  unfold move.
  destruct (is_finished g) eqn:Hfin; [by left|].
  case_decide as Hb; [by left|].
  case_decide as Hcur; [by left|].
  case_decide as Hside; [by left|].
  destruct (valid_pos g from_pos) eqn:Hfrom; cbn [negb]; [|by left].
  destruct (valid_pos g to_pos) eqn:Hto; cbn [negb]; [|by left].
  destruct (cell g from_pos) as [piece|] eqn:Hcell; [|by left].
  destruct (revealed piece) eqn:Hrev; cbn [negb]; [|by left].
  cbv zeta.
  case_decide as Hown; [by left|].
  case_decide as Hfixed; [by left|].
  case_decide as Hadj; [by left|].
  assert (Some (side piece) = get_player_side g p) as Hown'
    by (by destruct (decide (Some (side piece) = get_player_side g p))).
  assert (Z.to_nat to_pos ∈ _get_neighbors g (Z.to_nat from_pos)) as Hadj'
    by (by destruct (decide (Z.to_nat to_pos ∈ _get_neighbors g (Z.to_nat from_pos)))).
  assert (piece_type piece ≠ MINE ∧ piece_type piece ≠ FLAG) as [Hm Hf].
  { split; intros Heq; apply Hfixed; rewrite Heq; set_solver. }
  destruct (cell g to_pos) as [target|] eqn:Htarget.
  - destruct (revealed target) eqn:Hrevt; cbn [negb]; [|by left].
    case_decide as Hfriend; [by left|]. right.
    split; [reflexivity|]. do 6 (split; [done|]).
    match goal with
    | |- context [after ?r = _] =>
      exists piece, (default "" (last_action (after r)))
    end.
    do 6 (split; [done|]).
    split; [intros t [= <-]; split; [done|congruence]|].
    unfold moved, moved_board, is_flag. clear -Hfin.
    destruct g as [pa pb pas bd ct mc la lp fin win rf bf rows cols]. jq_fields.
    subst fin.
    destruct (decide (_battle piece target = "win")) as [Hwin|Hwin];
      [|destruct (decide (_battle piece target = "lose")) as [Hlose|Hlose]];
      (destruct (decide (piece_type target = FLAG)) as [Hflag|Hflag];
       [rewrite (bool_decide_eq_true_2 _ Hflag);
        destruct (decide (side target = RED)) as [Hred|Hred];
        [rewrite (decide_True (P := piece_type target = FLAG ∧ side target = RED))
           by done;
         rewrite (decide_False (P := piece_type target = FLAG ∧ side target ≠ RED))
           by (by intros [_ ?])
        |rewrite (decide_False (P := piece_type target = FLAG ∧ side target = RED))
           by (by intros [_ ?]);
         rewrite (decide_True (P := piece_type target = FLAG ∧ side target ≠ RED))
           by done]
       |rewrite (bool_decide_eq_false_2 _ Hflag);
        rewrite (decide_False (P := piece_type target = FLAG ∧ side target = RED))
          by (by intros [? _]);
        rewrite (decide_False (P := piece_type target = FLAG ∧ side target ≠ RED))
          by (by intros [? _])]);
      unfold _check_game_end; jq_fields; cbn [andb orb];
      destruct rf, bf; destruct pas as [[]|]; reflexivity.
  - right. split; [reflexivity|]. do 6 (split; [done|]).
    match goal with
    | |- context [after ?r = _] =>
      exists piece, (default "" (last_action (after r)))
    end.
    do 6 (split; [done|]). split; [by intros t [=]|].
    unfold moved, moved_board, is_flag. clear -Hfin.
    destruct g as [pa pb pas bd ct mc la lp fin win rf bf rows cols]. jq_fields.
    subst fin.
    reflexivity.
Qed.

(** ** The shape of a session *)

Definition coloured (s : Side) : Prop := s = RED ∨ s = BLUE.

Definition opposite (s : Side) : Side :=
  match s with RED => BLUE | BLUE => RED | NONE => NONE end.

(** What every session the engine builds satisfies. *)
Record wf (g : JunqiGame) : Prop := Wf {
  wf_rows : ROWS g = 10;
  wf_cols : COLS g = 6;
  wf_board : length (board g) = 60;
  wf_sides : ∀ i piece, board g !! i = Some (Some piece) → coloured (side piece);
  wf_first : player_a_side g = None → current_turn g = 1%Z;
  wf_distinct : player_b g ≠ Some (player_a g);
  wf_a_side : ∀ s, player_a_side g = Some s → coloured s;
  wf_flags : is_finished g = false →
             red_flag_captured g = false ∧ blue_flag_captured g = false
}.

Lemma fresh_pieces_coloured piece : piece ∈ fresh_pieces → coloured (side piece).
Proof.
  intros Hin. assert (Forall (λ q, coloured (side q)) fresh_pieces) as Hall.
  { vm_compute. repeat (constructor; [by (left + right)|]). constructor. }
  by apply (proj1 (Forall_forall _ _) Hall).
Qed.

Lemma init_board_cells rows cols pieces positions i piece :
  _init_board rows cols pieces positions !! i = Some (Some piece) → piece ∈ pieces.
Proof.
  unfold _init_board.
  assert (∀ (l : list (nat * Piece)) (b : list (option Piece)),
            foldl (λ b '(i, piece), match positions !! i with
                                    | Some pos => <[pos := Some piece]> b
                                    | None => b
                                    end) b l !! i = Some (Some piece) →
            b !! i = Some (Some piece) ∨ piece ∈ l.*2) as Hfold.
  { induction l as [|[j q] l IH]; intros b; cbn [foldl]; [by left|].
    intros [Hb|Hl]%IH; [|right; cbn; by right].
    destruct (positions !! j) as [pos|]; [|by left].
    apply list_lookup_insert_Some in Hb as [(_ & [= ->] & _)|[_ Hb]]; [|by left].
    right. cbn. by left. }
  intros [Hb|Hl]%Hfold.
  - apply lookup_replicate in Hb as [? _]. done.
  - apply list_elem_of_fmap in Hl as ([j q] & -> & Hq).
    apply elem_of_lookup_imap in Hq as (k & q' & [= -> ->] & Hk).
    by eapply list_elem_of_lookup_2.
Qed.

Lemma init_board_length rows cols pieces positions :
  length (_init_board rows cols pieces positions) = rows * cols.
Proof.
  unfold _init_board. generalize (imap (λ i piece, (i, piece)) pieces). intros l.
  assert (∀ b : list (option Piece),
            length (foldl (λ b '(i, piece), match positions !! i with
                                            | Some pos => <[pos := Some piece]> b
                                            | None => b
                                            end) b l) = length b) as Hfold.
  { induction l as [|[j q] l IH]; intros b; cbn [foldl]; [done|].
    rewrite IH. destruct (positions !! j); [apply length_insert|done]. }
  by rewrite Hfold, length_replicate.
Qed.

Lemma created_wf g : created g → wf g.
Proof.
  intros (p & pieces & positions & Hpieces & _ & ->). split; cbn; try done.
  - apply init_board_length.
  - intros i piece Hcell%init_board_cells. apply fresh_pieces_coloured.
    by rewrite <- Hpieces.
Qed.

Lemma cell_lookup g pos piece :
  cell g pos = Some piece → board g !! Z.to_nat pos = Some (Some piece).
Proof.
  unfold cell. destruct (board g !! Z.to_nat pos) as [c|]; cbn; [|done]. by intros ->.
Qed.

Lemma moved_board_cells b from_pos to_pos piece target i q :
  moved_board b from_pos to_pos piece target !! i = Some (Some q) →
  q = piece ∨ b !! i = Some (Some q).
Proof.
  unfold moved_board. intros Hq.
  repeat case_match;
    repeat match goal with
           | H : <[_ := _]> _ !! _ = Some _ |- _ =>
             apply list_lookup_insert_Some in H as [(_ & ? & _)|[_ H]]; simplify_eq
           end; auto.
Qed.

Lemma moved_board_length b from_pos to_pos piece target :
  length (moved_board b from_pos to_pos piece target) = length b.
Proof. unfold moved_board. repeat case_match; by rewrite !length_insert. Qed.

Lemma junqi_wf_step g o : wf g → wf (apply_op g o).
Proof.
  intros Hwf. destruct o as [p|p pos|p from_pos to_pos|p]; cbn [apply_op].
  - unfold join. repeat case_decide; try done. destruct Hwf.
    destruct g. split; jq_fields; try done. congruence.
  - destruct (flip_inv g p pos) as [[_ ->]|(_ & Hfin & _ & _ & _ & Hflip)]; [done|].
    destruct Hflip as (piece & action & Hcell%cell_lookup & _ & ->).
    destruct Hwf as [Hr Hc Hb Hs Hf Hd Ha Hfl]. unfold flipped.
    split; jq_fields; try done.
    + by rewrite length_insert.
    + intros i q [(_ & [= <-] & _)|[_ Hq]]%list_lookup_insert_Some; cbn; eauto.
    + by destruct (player_a_side g).
    + intros s. destruct (player_a_side g) as [s'|] eqn:E; intros [= <-]; eauto.
  - destruct (move_inv g p from_pos to_pos)
      as [[_ ->]|(_ & Hfin & _ & _ & Hside & _ & _ & Hmove)]; [done|].
    destruct Hmove as (piece & action & Hcell%cell_lookup & _ & _ & _ & _ & _ & _ & ->).
    destruct Hwf as [Hr Hc Hb Hs Hf Hd Ha Hfl]. unfold moved.
    split; jq_fields; try done.
    + by rewrite moved_board_length.
    + intros i q [->|Hq]%moved_board_cells; eauto.
    + destruct (Hfl Hfin) as [-> ->]. rewrite Hfin. unfold is_flag.
      destruct (cell g to_pos) as [t|]; [|done].
      destruct (decide (piece_type t = FLAG)) as [Hflag|Hflag].
      * rewrite (bool_decide_eq_true_2 _ Hflag).
        destruct (decide (side t = RED)).
        -- rewrite (decide_True (P := piece_type t = FLAG ∧ side t = RED)) by done.
           done.
        -- rewrite (decide_False (P := piece_type t = FLAG ∧ side t = RED))
             by (by intros [_ ?]).
           rewrite (decide_True (P := piece_type t = FLAG ∧ side t ≠ RED)) by done.
           done.
      * rewrite (decide_False (P := piece_type t = FLAG ∧ side t = RED))
          by (by intros [? _]).
        by rewrite (decide_False (P := piece_type t = FLAG ∧ side t ≠ RED))
          by (by intros [? _]).
  - unfold surrender. destruct (is_finished g); [done|].
    repeat case_decide; try done; destruct Hwf; destruct g; split; jq_fields; done.
Qed.

Lemma junqi_reachable_wf g : reachable g → wf g.
Proof. induction 1; [by apply created_wf|by apply junqi_wf_step]. Qed.

(** ** Sides *)

(** Once both seats are taken and a side is fixed, no operation changes
    who sits where or which side player A has. *)
Lemma seats_stable g o :
  player_a (apply_op g o) = player_a g ∧
  (∀ q, player_b g = Some q → player_b (apply_op g o) = Some q) ∧
  (∀ s, player_a_side g = Some s → player_a_side (apply_op g o) = Some s).
Proof.
  destruct o as [p|p pos|p from_pos to_pos|p]; cbn [apply_op].
  - unfold join. repeat case_decide; try done.
    destruct g; jq_fields. split; [done|]. split; [|done]. intros q Hq. congruence.
  - destruct (flip_inv g p pos) as [[_ ->]|(_ & _ & _ & _ & _ & Hflip)]; [done|].
    destruct Hflip as (piece & action & _ & _ & ->). unfold flipped. jq_fields.
    split; [done|]. split; [done|]. by intros s ->.
  - destruct (move_inv g p from_pos to_pos)
      as [[_ ->]|(_ & _ & _ & _ & _ & _ & _ & Hmove)]; [done|].
    by destruct Hmove as (piece & action & _ & _ & _ & _ & _ & _ & _ & ->).
  - unfold surrender. destruct (is_finished g); [done|].
    repeat case_decide; try done; by destruct g.
Qed.

Lemma seats_stable_ops g os :
  player_a (foldl apply_op g os) = player_a g ∧
  (∀ q, player_b g = Some q → player_b (foldl apply_op g os) = Some q) ∧
  (∀ s, player_a_side g = Some s → player_a_side (foldl apply_op g os) = Some s).
Proof.
  revert g. induction os as [|o os IH]; intros g; [done|]. cbn [foldl].
  destruct (IH (apply_op g o)) as (Ha & Hb & Hs).
  destruct (seats_stable g o) as (Ha' & Hb' & Hs').
  split; [congruence|]. split; [intros q Hq; by apply Hb, Hb'|].
  intros s Hq. by apply Hs, Hs'.
Qed.

(** Whether an operation is a flip that the session accepts. *)
Definition successful_flip (g : JunqiGame) (o : op) : bool :=
  match o with
  | OpFlip p pos => ok (flip g p pos)
  | _ => false
  end.

(** No operation of [ops], run from [g], is an accepted flip. *)
Fixpoint no_flip_yet (g : JunqiGame) (ops : list op) : Prop :=
  match ops with
  | [] => True
  | o :: ops => successful_flip g o = false ∧ no_flip_yet (apply_op g o) ops
  end.

Lemma no_flip_no_side g ops :
  player_a_side g = None → no_flip_yet g ops →
  player_a_side (foldl apply_op g ops) = None.
Proof.
  revert g. induction ops as [|o ops IH]; intros g Hnone; [done|].
  cbn [no_flip_yet foldl]. intros [Hno Hrest]. apply IH; [|done].
  destruct o as [p|p pos|p from_pos to_pos|p]; cbn [apply_op successful_flip] in *.
  - unfold join. repeat case_decide; try done. by destruct g.
  - destruct (flip_inv g p pos) as [[_ ->]|[Hok _]]; [done|congruence].
  - destruct (move_inv g p from_pos to_pos)
      as [[_ ->]|(_ & _ & _ & _ & Hside & _)]; done.
  - unfold surrender. destruct (is_finished g); [done|].
    repeat case_decide; try done; by destruct g.
Qed.

(** C8: the first flip a session accepts is made by the player whose turn
    comes first; it gives that player the side of the piece it turns over
    and the other player the opposite side, and whatever operations follow,
    both players keep these sides. *)
Theorem first_flip_fixes_sides g0 ops p pos :
  created g0 →
  no_flip_yet g0 ops →
  ok (flip (foldl apply_op g0 ops) p pos) = true →
  let g := foldl apply_op g0 ops in
  ∃ piece other,
    cell g pos = Some piece ∧ coloured (side piece) ∧
    player_a g = p ∧ player_b g = Some other ∧ other ≠ p ∧
    get_player_side g p = None ∧ get_player_side g other = None ∧
    ∀ later,
      let g' := foldl apply_op (after (flip g p pos)) later in
      get_player_side g' p = Some (side piece) ∧
      get_player_side g' other = Some (opposite (side piece)).
Proof.
  intros Hcreated Hnone Hok. cbv zeta.
  assert (player_a_side g0 = None) as Hg0
    by (by destruct Hcreated as (? & ? & ? & _ & _ & ->)).
  pose proof (no_flip_no_side g0 ops Hg0 Hnone) as Hside.
  assert (wf (foldl apply_op g0 ops)) as Hwf
    by (apply junqi_reachable_wf, junqi_reachable_ops; by constructor).
  set (g := foldl apply_op g0 ops) in *.
  destruct (flip_inv g p pos) as [[Hno _]|(_ & _ & Hb & Hcur & _ & Hflip)]; [congruence|].
  destruct Hflip as (piece & action & Hcell & _ & Hafter).
  destruct (player_b g) as [other|] eqn:Hother; [|done].
  exists piece, other.
  assert (coloured (side piece)) as Hcol
    by (eapply (wf_sides g Hwf); by apply cell_lookup).
  assert (player_a g = p) as Hp.
  { unfold get_current_player in Hcur. rewrite (wf_first g Hwf Hside) in Hcur.
    rewrite decide_True in Hcur by done. congruence. }
  assert (other ≠ p) as Hne.
  { intros ->. apply (wf_distinct g Hwf). congruence. }
  split; [done|]. split; [done|]. split; [done|]. split; [done|]. split; [done|].
  unfold get_player_side at 1 2. rewrite Hside. split; [done|]. split; [done|].
  intros later. rewrite Hafter.
  destruct (seats_stable_ops (flipped g pos piece action) later) as (Ha & Hpb & Hs).
  unfold get_player_side.
  rewrite (Hs (side piece)) by (unfold flipped; jq_fields; by rewrite Hside).
  rewrite Ha, (Hpb other) by done. unfold flipped. jq_fields. rewrite Hp.
  rewrite decide_True by done. rewrite (decide_False (P := other = p)) by done.
  rewrite decide_True by done. split; [done|].
  destruct Hcol as [-> | ->]; done.
Qed.

(** ** A bomb on the flag *)

(** C10: when a bomb moves onto the revealed flag of the other side, the
    fight is a draw and leaves both cells empty, the flag counts as
    captured, and the game is over with the player who moved, who is on
    the side opposite to the flag, as winner. *)
Theorem bomb_takes_flag g p from_pos to_pos bomb flag :
  reachable g →
  cell g from_pos = Some bomb → piece_type bomb = BOMB →
  cell g to_pos = Some flag → piece_type flag = FLAG →
  ok (move g p from_pos to_pos) = true →
  let g' := after (move g p from_pos to_pos) in
  _battle bomb flag = "draw" ∧
  cell g' from_pos = None ∧ cell g' to_pos = None ∧
  (if decide (side flag = RED) then red_flag_captured g' = true
   else blue_flag_captured g' = true) ∧
  is_finished g' = true ∧
  winner g' = Some p ∧
  revealed flag = true ∧
  get_player_side g p = Some (side bomb) ∧
  side bomb = opposite (side flag).
Proof.
  intros Hwf%junqi_reachable_wf Hbomb Hbt Hflag Hft Hok. cbv zeta.
  destruct (move_inv g p from_pos to_pos)
    as [[Hno _]|(_ & Hfin & Hb & Hcur & Hside & Hfrom & Hto & Hmove)]; [congruence|].
  destruct Hmove as (piece & action & Hpiece & _ & Hown & _ & _ & Hadj & Htarget & ->).
  rewrite Hbomb in Hpiece. injection Hpiece as <-.
  destruct (Htarget flag Hflag) as [Hrev Hfoe]. rewrite Hflag. clear Htarget Hok.
  assert (_battle bomb flag = "draw") as Hdraw.
  { unfold _battle. rewrite decide_True; [done|by left]. }
  destruct Hwf as [Hr Hc Hlen Hs Hf Hd Ha Hfl].
  assert (coloured (side bomb)) as Hcb by (eapply Hs; by apply cell_lookup).
  assert (coloured (side flag)) as Hcf by (eapply Hs; by apply cell_lookup).
  assert (side bomb = opposite (side flag)) as Hopp.
  { rewrite <- Hown in Hfoe.
    destruct Hcb as [Hx|Hx], Hcf as [Hy|Hy]; rewrite Hx, Hy in *; cbn; congruence. }
  assert (Z.to_nat from_pos ≠ Z.to_nat to_pos) as Hne.
  { intros Heq. apply cell_lookup in Hbomb, Hflag. rewrite Heq in Hbomb.
    rewrite Hbomb in Hflag. injection Hflag as <-. congruence. }
  assert (Z.to_nat from_pos < 60 ∧ Z.to_nat to_pos < 60) as [Hlf Hlt].
  { apply cell_lookup, lookup_lt_Some in Hbomb, Hflag. lia. }
  destruct (Hfl Hfin) as [Hred Hblue].
  split; [done|].
  split.
  { unfold cell, moved, moved_board. jq_fields. rewrite Hdraw.
    rewrite decide_False by done. rewrite decide_False by done.
    rewrite list_lookup_insert_ne by done.
    by rewrite list_lookup_insert_eq by lia. }
  split.
  { unfold cell, moved, moved_board. jq_fields. rewrite Hdraw.
    rewrite decide_False by done. rewrite decide_False by done.
    rewrite list_lookup_insert_eq; [done|]. rewrite length_insert. lia. }
  assert (winner_is : ∀ s, get_player_side g p = Some s →
            (if decide (player_a_side g = Some s) then Some (player_a g) else player_b g)
            = Some p).
  { intros s. unfold get_player_side.
    destruct (player_a_side g) as [a|] eqn:Ea; [|done].
    destruct (Ha a eq_refl) as [-> | ->];
      repeat case_decide; intros [= <-]; try done; congruence. }
  unfold moved, is_flag. jq_fields. rewrite (bool_decide_eq_true_2 _ Hft).
  rewrite Hred, Hblue. rewrite <- Hown in winner_is.
  destruct Hcf as [Hfr|Hfb].
  - rewrite Hfr in *. cbn [opposite] in Hopp.
    rewrite (decide_True (P := RED = RED)) by done.
    rewrite (decide_True (P := piece_type flag = FLAG ∧ RED = RED)) by done.
    rewrite (decide_False (P := piece_type flag = FLAG ∧ RED ≠ RED)) by (by intros [_ ?]).
    cbn [andb orb]. repeat split; try done.
    rewrite <- Hopp. by apply winner_is.
  - rewrite Hfb in *. cbn [opposite] in Hopp.
    rewrite (decide_False (P := BLUE = RED)) by done.
    rewrite (decide_False (P := piece_type flag = FLAG ∧ BLUE = RED))
      by (by intros [_ ?]).
    rewrite (decide_True (P := piece_type flag = FLAG ∧ BLUE ≠ RED)) by done.
    cbn [andb orb]. repeat split; try done.
    rewrite <- Hopp. by apply winner_is.
Qed.

(** ** A sample session *)

(** The pieces in the order of [fresh_pieces], laid out cell by cell except
    that the seventh blue mine and the first red bomb swap cells; this puts
    a red bomb on B2, right above the blue flag on B1. *)
Definition sample_positions : list nat := [0; 1; 2; 3; 4; 5; 6; 8; 7] ++ seq 9 51.

Definition sample_game : JunqiGame := new_game "alice" fresh_pieces sample_positions.

Lemma sample_game_created : created sample_game.
Proof.
  exists "alice", fresh_pieces, sample_positions. split; [done|]. split; [|done].
  change (seq 0 60) with ([0; 1; 2; 3; 4; 5; 6; 7; 8] ++ seq 9 51).
  unfold sample_positions. apply Permutation_app_tail.
  do 7 apply perm_skip. apply perm_swap.
Qed.

Definition sample_joined : JunqiGame := foldl apply_op sample_game [OpJoin "bob"].

Definition sample_revealed : JunqiGame :=
  foldl apply_op sample_game [OpJoin "bob"; OpFlip "alice" 7; OpFlip "bob" 1]%Z.

Lemma sample_revealed_reachable : reachable sample_revealed.
Proof. apply junqi_reachable_ops, reach_create, sample_game_created. Qed.

Lemma first_flip_fixes_sides_witness :
  ok (flip sample_joined "alice" 7) = true ∧
  ∀ later,
    get_player_side (foldl apply_op (after (flip sample_joined "alice" 7)) later)
                    "alice" = Some RED ∧
    get_player_side (foldl apply_op (after (flip sample_joined "alice" 7)) later)
                    "bob" = Some BLUE.
Proof.
  assert (ok (flip sample_joined "alice" 7) = true) as Hok by (vm_compute; reflexivity).
  split; [exact Hok|].
  assert (no_flip_yet sample_game [OpJoin "bob"]) as Hnone by (cbn; done).
  pose proof (first_flip_fixes_sides sample_game [OpJoin "bob"] "alice" 7
                sample_game_created Hnone Hok) as Hthm.
  cbv zeta in Hthm.
  destruct Hthm as (piece & other & Hcell & _ & _ & Hother & _ & _ & _ & Hlater).
  change (foldl apply_op sample_game [OpJoin "bob"]) with sample_joined in *.
  assert (cell sample_joined 7 = Some (mkPiece BOMB RED false)) as Hbomb
    by (vm_compute; reflexivity).
  assert (player_b sample_joined = Some "bob") as Hbob by (vm_compute; reflexivity).
  rewrite Hbomb in Hcell. injection Hcell as <-.
  rewrite Hbob in Hother. injection Hother as <-.
  exact Hlater.
Defined.

Lemma bomb_takes_flag_witness :
  ok (move sample_revealed "alice" 7 1) = true ∧
  is_finished (after (move sample_revealed "alice" 7 1)) = true ∧
  winner (after (move sample_revealed "alice" 7 1)) = Some "alice" ∧
  cell (after (move sample_revealed "alice" 7 1)) 7 = None ∧
  cell (after (move sample_revealed "alice" 7 1)) 1 = None.
Proof.
  assert (ok (move sample_revealed "alice" 7 1) = true) as Hok
    by (vm_compute; reflexivity).
  assert (cell sample_revealed 7 = Some (mkPiece BOMB RED true)) as Hbomb
    by (vm_compute; reflexivity).
  assert (cell sample_revealed 1 = Some (mkPiece FLAG BLUE true)) as Hflag
    by (vm_compute; reflexivity).
  pose proof (bomb_takes_flag sample_revealed "alice" 7 1 _ _
                sample_revealed_reachable Hbomb eq_refl Hflag eq_refl Hok) as Hthm.
  cbv zeta in Hthm. destruct Hthm as (_ & Hfrom & Hto & _ & Hfin & Hwin & _).
  split; [exact Hok|]. split; [exact Hfin|]. split; [exact Hwin|].
  split; [exact Hfrom|exact Hto].
Defined.
End JunqiFacts.

(* ================================================================== *)
(** * Properties of the tic-tac-toe engine *)

Module TicTacToeFacts.
Import TicTacToe.

Ltac ttt_fields :=
  cbv zeta;
  cbn [player_x player_o board current_turn winner is_finished
       set_player_o set_board set_current_turn set_winner set_is_finished
       ok msg after fst snd] in *.

(** [player] holds a full row, a full column or one of the two diagonals of
    the 3x3 grid, whose cell in row [r] and column [c] has index [3 * r + c]. *)
Definition has_line (b : list Player) (player : Player) : Prop :=
  (∃ r, r < 3 ∧ ∀ c, c < 3 → b !! (3 * r + c) = Some player) ∨
  (∃ c, c < 3 ∧ ∀ r, r < 3 → b !! (3 * r + c) = Some player) ∨
  (∀ k, k < 3 → b !! (3 * k + k) = Some player) ∨
  (∀ k, k < 3 → b !! (3 * k + (2 - k)) = Some player).

Definition count (b : list Player) (player : Player) : nat :=
  length (filter (λ cell, cell = player) b).

Definition full (b : list Player) : Prop := ∀ cell, cell ∈ b → cell ≠ NONE.

Definition other (player : Player) : Player :=
  match player with X => O | O => X | NONE => NONE end.

Lemma ttt_check_win_spec b player : _check_win b player = true ↔ has_line b player.
Proof.
  unfold _check_win, has_line, WIN_PATTERNS. cbn [existsb forallb].
  rewrite !orb_true_iff, !andb_true_iff, !bool_decide_eq_true. split.
  - intros [H|[H|[H|[H|[H|[H|[H|[H|H]]]]]]]]; [..|done].
    + left. exists 0. split; [lia|]. intros [|[|[|c]]] Hc; cbn; try lia; tauto.
    + left. exists 1. split; [lia|]. intros [|[|[|c]]] Hc; cbn; try lia; tauto.
    + left. exists 2. split; [lia|]. intros [|[|[|c]]] Hc; cbn; try lia; tauto.
    + right; left. exists 0. split; [lia|]. intros [|[|[|c]]] Hc; cbn; try lia; tauto.
    + right; left. exists 1. split; [lia|]. intros [|[|[|c]]] Hc; cbn; try lia; tauto.
    + right; left. exists 2. split; [lia|]. intros [|[|[|c]]] Hc; cbn; try lia; tauto.
    + right; right; left. intros [|[|[|c]]] Hc; cbn; try lia; tauto.
    + right; right; right. intros [|[|[|c]]] Hc; cbn; try lia; tauto.
  - intros [(r & Hr & H)|[(c & Hc & H)|[H|H]]].
    + pose proof (H 0 ltac:(lia)) as H0. pose proof (H 1 ltac:(lia)) as H1.
      pose proof (H 2 ltac:(lia)) as H2.
      destruct r as [|[|[|r]]]; cbn in H0, H1, H2; try lia; tauto.
    + pose proof (H 0 ltac:(lia)) as H0. pose proof (H 1 ltac:(lia)) as H1.
      pose proof (H 2 ltac:(lia)) as H2.
      destruct c as [|[|[|c]]]; cbn in H0, H1, H2; try lia; tauto.
    + pose proof (H 0 ltac:(lia)) as H0. pose proof (H 1 ltac:(lia)) as H1.
      pose proof (H 2 ltac:(lia)) as H2. cbn in H0, H1, H2. tauto.
    + pose proof (H 0 ltac:(lia)) as H0. pose proof (H 1 ltac:(lia)) as H1.
      pose proof (H 2 ltac:(lia)) as H2. cbn in H0, H1, H2. tauto.
Qed.

Lemma full_spec b : forallb (λ cell, bool_decide (cell ≠ NONE)) b = true ↔ full b.
Proof.
  unfold full. induction b as [|a b IH]; cbn [forallb].
  - split; [|done]. by intros _ cell ?%elem_of_nil.
  - rewrite andb_true_iff, bool_decide_eq_true, IH. split.
    + intros [Ha Hb] cell [->|?]%elem_of_cons; [done|by apply Hb].
    + intros H. split; [apply H; by left|]. intros cell ?. apply H. by right.
Qed.

(** A line on the board after one cell has changed was a line before,
    unless it is a line of the colour that was written. *)
Lemma has_line_insert b i c player :
  player ≠ c → has_line (<[i := c]> b) player → has_line b player.
Proof.
  intros Hne.
  assert (∀ j, <[i := c]> b !! j = Some player → b !! j = Some player) as Hcell.
  { intros j. destruct (decide (i = j)) as [->|Hij].
    - destruct (decide (j < length b)).
      + rewrite list_lookup_insert_eq by done. congruence.
      + by rewrite list_insert_ge by lia.
    - by rewrite list_lookup_insert_ne. }
  unfold has_line. intros [(r & Hr & H)|[(k & Hk & H)|[H|H]]].
  - left. exists r. split; [done|]. intros. by apply Hcell, H.
  - right; left. exists k. split; [done|]. intros. by apply Hcell, H.
  - right; right; left. intros. by apply Hcell, H.
  - right; right; right. intros. by apply Hcell, H.
Qed.

Lemma count_insert b i c player :
  b !! i = Some NONE → player ≠ NONE →
  count (<[i := c]> b) player = count b player + (if decide (c = player) then 1 else 0).
Proof.
  unfold count. revert i. induction b as [|a b IH]; intros i Hi Hp; [done|].
  destruct i as [|i].
  - injection Hi as ->. change (<[0 := c]> (NONE :: b)) with (c :: b).
    rewrite !filter_cons.
    rewrite (decide_False (P := NONE = player)) by done.
    case_decide; cbn [length]; lia.
  - change (<[S i := c]> (a :: b)) with (a :: <[i := c]> b).
    rewrite !filter_cons. specialize (IH i Hi Hp).
    destruct (decide (a = player)); cbn [length]; lia.
Qed.

(** ** What a call of [make_move] can do *)

(** The cell a position names. *)
Definition cell_of (position : Z) : nat := Z.to_nat (position - 1).

Definition played (g : TicTacToeGame) (position : Z) : list Player :=
  <[cell_of position := current_turn g]> (board g).

Lemma ttt_make_move_inv g p position :
  let r := make_move g p position in
  let b := played g position in
  (ok r = false ∧ after r = g) ∨
  (ok r = true ∧ is_finished g = false ∧ player_o g ≠ None ∧
   (current_turn g = X → p = player_x g) ∧
   (current_turn g = O → Some p = player_o g) ∧
   (1 ≤ position ≤ 9)%Z ∧ board g !! cell_of position = Some NONE ∧
   ((has_line b (current_turn g) ∧ msg r = "获胜" ∧
     after r = mkTicTacToe (player_x g) (player_o g) b (current_turn g)
                           (Some (current_turn g)) true) ∨
    (¬ has_line b (current_turn g) ∧ full b ∧ msg r = "平局" ∧
     after r = mkTicTacToe (player_x g) (player_o g) b (current_turn g)
                           (winner g) true) ∨
    (¬ has_line b (current_turn g) ∧ ¬ full b ∧ msg r = "落子成功" ∧
     after r = mkTicTacToe (player_x g) (player_o g) b
                           (if decide (current_turn g = X) then O else X)
                           (winner g) false))).
Proof.
  destruct g as [px po bd ct win fin]. unfold make_move, played, cell_of. ttt_fields.
  destruct fin; [by left|].
  case_decide as Hw; [by left|].
  case_decide as Hx; [by left|].
  case_decide as Ho; [by left|].
  case_decide as Hpos; [by left|].
  case_decide as Hfree; [by left|].
  right. split; [|split; [done|split; [done|split; [|split; [|split; [lia|split]]]]]].
  - repeat case_match; done.
  - intros ->. destruct (decide (p = px)); [done|]. destruct Hx. done.
  - intros ->. destruct (decide (Some p = po)); [done|]. destruct Ho. done.
  - by destruct (decide (bd !! Z.to_nat (position - 1) = Some NONE)).
  - destruct (_check_win _ ct) eqn:Hwin.
    + left. apply ttt_check_win_spec in Hwin. done.
    + assert (¬ has_line (<[Z.to_nat (position - 1) := ct]> bd) ct) as Hno.
      { intros H%ttt_check_win_spec. congruence. }
      destruct (forallb _ _) eqn:Hfull.
      * right; left. apply full_spec in Hfull. done.
      * right; right. split; [done|]. split; [|done].
        intros H%full_spec. congruence.
Qed.

(** ** The shape of a session *)

Record wf (g : TicTacToeGame) : Prop := Wf {
  wf_board : length (board g) = 9;
  wf_turn : current_turn g = X ∨ current_turn g = O;
  wf_open : is_finished g = false →
            winner g = None ∧ ¬ has_line (board g) X ∧ ¬ has_line (board g) O ∧
            ¬ full (board g);
  wf_one : ¬ (has_line (board g) X ∧ has_line (board g) O);
  wf_count : count (board g) O ≤ count (board g) X ≤ count (board g) O + 1;
  wf_next : is_finished g = false →
            (current_turn g = X → count (board g) X = count (board g) O) ∧
            (current_turn g = O → count (board g) X = count (board g) O + 1)
}.

Lemma ttt_new_game_wf p : wf (new_game p).
Proof.
  split; unfold new_game; ttt_fields; try done.
  - by left.
  - intros _. split; [done|]. split; [|split].
    + intros H%ttt_check_win_spec. done.
    + intros H%ttt_check_win_spec. done.
    + intros H. apply (H NONE); [by left|done].
  - intros [H%ttt_check_win_spec _]. done.
  - vm_compute. lia.
Qed.

Lemma ttt_wf_step g o : wf g → wf (apply_op g o).
Proof.
  intros Hwf. destruct o as [p|p position|p]; cbn [apply_op].
  - unfold join. repeat case_decide; cbn [snd]; try done.
    destruct Hwf. destruct g. split; ttt_fields; done.
  - destruct (ttt_make_move_inv g p position)
      as [[_ ->]|(_ & Hfin & _ & _ & _ & Hpos & Hfree & Hcase)]; [done|].
    destruct Hwf as [Hlen Hturn Hopen Hone Hcount Hnext].
    destruct (Hopen Hfin) as (Hwin & HnoX & HnoO & _).
    destruct (Hnext Hfin) as [HcX HcO].
    pose proof (count_insert (board g) (cell_of position) (current_turn g) X Hfree
                  ltac:(done)) as HnX.
    pose proof (count_insert (board g) (cell_of position) (current_turn g) O Hfree
                  ltac:(done)) as HnO.
    fold (played g position) in HnX, HnO.
    assert (¬ has_line (played g position) (other (current_turn g))) as Hother.
    { intros H. apply has_line_insert in H.
      - destruct Hturn as [Ht|Ht]; rewrite Ht in H; cbn in H; done.
      - destruct Hturn as [Ht|Ht]; rewrite Ht; done. }
    assert (length (played g position) = 9) as Hlen'
      by (unfold played; by rewrite length_insert).
    assert (count (played g position) O ≤ count (played g position) X
              ≤ count (played g position) O + 1 ∧
            (current_turn g = X →
             count (played g position) X = count (played g position) O + 1) ∧
            (current_turn g = O →
             count (played g position) X = count (played g position) O))
      as (Hcount' & HtX & HtO).
    { rewrite HnX, HnO.
      destruct Hturn as [Ht|Ht]; rewrite Ht in *;
        [specialize (HcX eq_refl)|specialize (HcO eq_refl)];
        repeat case_decide; try done; repeat split; try lia; intros ?; done || lia. }
    assert (¬ (has_line (played g position) X ∧ has_line (played g position) O))
      as Hone'.
    { intros [HX HO].
      destruct Hturn as [Ht|Ht]; rewrite Ht in Hother; cbn in Hother; done. }
    clear HnX HnO HcX HcO.
    destruct Hcase as [(Hline & _ & ->)|[(Hno & Hfull & _ & ->)|(Hno & Hnf & _ & ->)]].
    + split; ttt_fields; done.
    + split; ttt_fields; done.
    + split; ttt_fields; try done.
      * case_decide; [by right|by left].
      * intros _. split; [done|].
        destruct Hturn as [Ht|Ht]; rewrite Ht in *; cbn in Hother; done.
      * intros _. destruct Hturn as [Ht|Ht]; rewrite Ht in *.
        -- rewrite decide_True by done. split; [done|]. intros _. by apply HtX.
        -- rewrite decide_False by done. split; [|done]. intros _. by apply HtO.
  - unfold surrender. destruct (is_finished g) eqn:Hfin; [done|].
    destruct Hwf. repeat case_decide; try done; destruct g; split; ttt_fields; done.
Qed.

Lemma ttt_reachable_wf g : reachable g → wf g.
Proof. induction 1; [apply ttt_new_game_wf|by apply ttt_wf_step]. Qed.

Lemma ttt_reachable_ops g os : reachable g → reachable (foldl apply_op g os).
Proof.
  revert g. induction os as [|o os IH]; intros g Hg; [done|].
  cbn [foldl]. apply IH. by apply reach_op.
Qed.


(** X1: a move the engine accepts ends the game with the mover as winner
    exactly when the mover then holds a full row, column or diagonal; the
    other player holds none; and when the mover holds none either, nobody
    is the winner and the game ends exactly when the board is full. *)
Theorem line_decides_game g p position :
  reachable g →
  ok (make_move g p position) = true →
  let c := current_turn g in
  let g' := after (make_move g p position) in
  board g' = <[cell_of position := c]> (board g) ∧
  (has_line (board g') c ↔ is_finished g' = true ∧ winner g' = Some c) ∧
  ¬ has_line (board g') (other c) ∧
  (¬ has_line (board g') c →
   winner g' = None ∧ (is_finished g' = true ↔ full (board g'))).
Proof.
  intros Hwf%ttt_reachable_wf Hok. cbv zeta.
  destruct (ttt_make_move_inv g p position)
    as [[Hno _]|(_ & Hfin & _ & _ & _ & _ & Hfree & Hcase)]; [congruence|].
  destruct Hwf as [_ Hturn Hopen _ _ _]. destruct (Hopen Hfin) as (Hwin & HnoX & HnoO & _).
  assert (¬ has_line (played g position) (other (current_turn g))) as Hother.
  { intros H. apply has_line_insert in H.
    - destruct Hturn as [Ht|Ht]; rewrite Ht in H; cbn in H; done.
    - destruct Hturn as [Ht|Ht]; rewrite Ht; done. }
  destruct Hcase as [(Hline & _ & ->)|[(Hno & Hfull & _ & ->)|(Hno & Hnf & _ & ->)]];
    ttt_fields; (split; [done|]); (split; [|split; [done|]]).
  - done.
  - done.
  - split; [done|]. intros [_ ?]. congruence.
  - done.
  - split; [done|]. intros [? _]. congruence.
  - intros _. split; [done|]. split; [done|]. intros ?. done.
Qed.

(** Alice has the top row but for its last cell, Bob two cells of the
    middle row, and Alice is to move. *)
Definition row_game : TicTacToeGame :=
  foldl apply_op (new_game "alice")
    [OpJoin "bob"; OpMove "alice" 1; OpMove "bob" 4; OpMove "alice" 2; OpMove "bob" 5]%Z.

Lemma row_game_reachable : reachable row_game.
Proof. apply ttt_reachable_ops, reach_create. Qed.

Lemma line_decides_game_witness :
  ok (make_move row_game "alice" 3) = true ∧
  is_finished (after (make_move row_game "alice" 3)) = true ∧
  winner (after (make_move row_game "alice" 3)) = Some X ∧
  has_line (board (after (make_move row_game "alice" 3))) X.
Proof.
  assert (ok (make_move row_game "alice" 3) = true) as Hok
    by (vm_compute; reflexivity).
  split; [exact Hok|]. split; [vm_compute; reflexivity|].
  split; [vm_compute; reflexivity|].
  pose proof (line_decides_game row_game "alice" 3%Z row_game_reachable Hok) as Hthm.
  cbv zeta in Hthm. destruct Hthm as (_ & Hiff & _).
  apply Hiff. split; vm_compute; reflexivity.
Defined.

(** X2: no session the engine can reach shows a full line of both
    players, and while the game goes on it shows no full line at all and
    names no winner. *)
Theorem no_line_while_open g :
  reachable g →
  ¬ (has_line (board g) X ∧ has_line (board g) O) ∧
  (is_finished g = false →
   ¬ has_line (board g) X ∧ ¬ has_line (board g) O ∧ winner g = None).
Proof.
  intros [_ _ Hopen Hone _ _]%ttt_reachable_wf. split; [done|].
  intros Hfin. destruct (Hopen Hfin) as (? & ? & ? & _). done.
Qed.

Lemma no_line_while_open_witness :
  ¬ (has_line (board row_game) X ∧ has_line (board row_game) O) ∧
  (is_finished row_game = false →
   ¬ has_line (board row_game) X ∧ ¬ has_line (board row_game) O ∧
   winner row_game = None).
Proof. apply (no_line_while_open row_game). apply row_game_reachable. Defined.

(** X3: the marks on the board are balanced.  O never has more marks than
    X and X at most one more than O; while the game goes on, X is to move
    exactly when both have the same number of marks. *)
Theorem marks_balanced g :
  reachable g →
  count (board g) O ≤ count (board g) X ≤ count (board g) O + 1 ∧
  (is_finished g = false →
   (current_turn g = X ↔ count (board g) X = count (board g) O)).
Proof.
  intros [_ Hturn _ _ Hcount Hnext]%ttt_reachable_wf. split; [done|].
  intros Hfin. destruct (Hnext Hfin) as [HX HO]. split; [done|].
  intros Heq. destruct Hturn as [?|Ht]; [done|]. specialize (HO Ht). lia.
Qed.

Lemma marks_balanced_witness :
  count (board row_game) O ≤ count (board row_game) X ≤ count (board row_game) O + 1 ∧
  (is_finished row_game = false →
   (current_turn row_game = X ↔ count (board row_game) X = count (board row_game) O)).
Proof. apply (marks_balanced row_game). apply row_game_reachable. Defined.

(** The player whose turn it is, once both seats are taken. *)
Definition to_move (g : TicTacToeGame) : option string :=
  if decide (current_turn g = X) then Some (player_x g) else player_o g.

(** X4: a game that goes on between two players is never stuck: the board
    has an empty cell, and the player to move is accepted on every empty
    cell. *)
Theorem open_game_can_move g q :
  reachable g →
  is_finished g = false → player_o g ≠ None → to_move g = Some q →
  (∃ position, (1 ≤ position ≤ 9)%Z ∧ board g !! cell_of position = Some NONE) ∧
  ∀ position, (1 ≤ position ≤ 9)%Z → board g !! cell_of position = Some NONE →
              ok (make_move g q position) = true.
Proof.
  intros Hwf%ttt_reachable_wf Hfin Hjoined Hq.
  destruct Hwf as [Hlen Hturn Hopen _ _ _]. destruct (Hopen Hfin) as (_ & _ & _ & Hnf).
  split.
  - assert (Exists (λ cell, ¬ cell ≠ NONE) (board g)) as Hex.
    { apply not_Forall_Exists; [apply _|]. intros Hall. apply Hnf.
      intros cell Hcell. by apply (proj1 (Forall_forall _ _) Hall). }
    apply Exists_exists in Hex as (cell & Hin & Hcell).
    apply list_elem_of_lookup in Hin as [i Hi].
    assert (cell = NONE) as -> by (by destruct (decide (cell = NONE))).
    apply lookup_lt_Some in Hi as Hlt. rewrite Hlen in Hlt.
    exists (Z.of_nat i + 1)%Z. split; [lia|].
    unfold cell_of. by replace (Z.to_nat (Z.of_nat i + 1 - 1)) with i by lia.
  - intros position Hpos Hfree. unfold to_move in Hq. unfold make_move.
    rewrite Hfin. rewrite (decide_False (P := player_o g = None)) by done.
    rewrite (decide_False (P := current_turn g = X ∧ q ≠ player_x g)).
    2: { intros [Ht Hne]. rewrite decide_True in Hq by done. congruence. }
    rewrite (decide_False (P := current_turn g = O ∧ Some q ≠ player_o g)).
    2: { intros [Ht Hne]. rewrite decide_False in Hq by congruence. congruence. }
    rewrite (decide_False (P := (position < 1 ∨ 9 < position)%Z)) by lia.
    fold (cell_of position).
    rewrite (decide_False (P := board g !! cell_of position ≠ Some NONE))
      by (intros H; by apply H).
    cbv zeta. repeat case_match; done.
Qed.

Lemma open_game_can_move_witness :
  (∃ position, (1 ≤ position ≤ 9)%Z ∧ board row_game !! cell_of position = Some NONE) ∧
  ok (make_move row_game "alice" 9) = true.
Proof.
  destruct (open_game_can_move row_game "alice" row_game_reachable)
    as [Hsome Hall]; [vm_compute; reflexivity|vm_compute; congruence|
                      vm_compute; reflexivity|].
  split; [exact Hsome|]. apply Hall; [lia|vm_compute; reflexivity].
Defined.

End TicTacToeFacts.

(* ================================================================== *)
(** * Properties of the session store of tic-tac-toe *)

Module TicTacToeManagerFacts.
Import TicTacToe TicTacToeManager.

Lemma run_frame (m : gmap string TicTacToeGame) (c : call) (b : string) :
  b ≠ group_of c → run m c !! b = m !! b.
Proof.
  intros Hne. destruct c as [a p|a p|a p position|a p|a]; cbn [run group_of] in *.
  - unfold create_game. destruct (m !! a) as [existing|]; [destruct (is_finished existing)|];
      cbn [negb games]; try done; by rewrite lookup_insert_ne.
  - unfold join_game. destruct (m !! a) as [g|]; [|done].
    destruct (is_finished g); [done|]. case_decide; [done|].
    destruct (join g p) as [[] g']; cbn [negb games]; by rewrite lookup_insert_ne.
  - unfold make_move. destruct (m !! a) as [g|]; [|done].
    cbn [games]. by rewrite lookup_insert_ne.
  - unfold surrender. destruct (m !! a) as [g|]; [|done].
    cbn [games]. by rewrite lookup_insert_ne.
  - unfold end_game. case_decide; cbn [snd]; [|done]. by rewrite lookup_delete_ne.
Qed.

(** X5: a call for one group leaves the sessions of all other groups as
    they are. *)
Theorem groups_isolated (m : gmap string TicTacToeGame) (c : call) (other_group : string) :
  other_group ≠ group_of c → run m c !! other_group = m !! other_group.
Proof. apply run_frame. Qed.

Definition two_groups : gmap string TicTacToeGame :=
  foldl run ∅ [CreateGame "g1" "alice"; CreateGame "g2" "carol"; JoinGame "g1" "bob"].

Lemma groups_isolated_witness :
  run two_groups (MakeMove "g1" "alice" 5) !! "g2" = two_groups !! "g2".
Proof. apply (groups_isolated two_groups (MakeMove "g1" "alice" 5) "g2"). done. Defined.

(** X6: a game that is still going on leaves its group only through
    [end_game].  Under every other call the group holds the same session
    afterwards, or that session after one operation of the engine; in
    particular [create_game] does not put a fresh game in its place. *)
Theorem live_game_survives (m : gmap string TicTacToeGame) (a : string)
    (g : TicTacToeGame) (c : call) :
  m !! a = Some g → is_finished g = false → c ≠ EndGame a →
  run m c !! a = Some g ∨ ∃ o, run m c !! a = Some (apply_op g o).
Proof.
  intros Hg Hfin Hc. destruct (decide (a = group_of c)) as [->|Hne].
  2: { left. by rewrite run_frame. }
  destruct c as [a p|a p|a p position|a p|a]; cbn [run group_of] in *.
  - left. unfold create_game. by rewrite Hg, Hfin.
  - unfold join_game. rewrite Hg, Hfin. case_decide; [by left|].
    right. exists (OpJoin p). cbn [apply_op].
    destruct (join g p) as [[] g']; cbn [negb games snd]; by rewrite lookup_insert_eq.
  - right. exists (OpMove p position). unfold make_move. rewrite Hg.
    cbn [games apply_op]. by rewrite lookup_insert_eq.
  - right. exists (OpSurrender p). unfold surrender. rewrite Hg.
    cbn [games apply_op]. by rewrite lookup_insert_eq.
  - done.
Qed.

Lemma live_game_survives_witness :
  run two_groups (CreateGame "g1" "mallory") !! "g1" = two_groups !! "g1".
Proof.
  assert (∃ g, two_groups !! "g1" = Some g ∧ is_finished g = false)
    as (g & Hg & Hfin) by (eexists; split; vm_compute; reflexivity).
  destruct (live_game_survives two_groups "g1" g (CreateGame "g1" "mallory") Hg Hfin)
    as [Hsame|[o Ho]]; [done|by rewrite Hg|].
  vm_compute. reflexivity.
Defined.

(** X7: once the game of a group is finished, joining, moving and
    surrendering all fail and leave the store as it is; only
    [create_game] and [end_game] change what the group holds. *)
Theorem finished_game_frozen (m : gmap string TicTacToeGame) (a : string)
    (g : TicTacToeGame) :
  m !! a = Some g → is_finished g = true →
  ∀ p position,
    (success (join_game m a p) = false ∧ games (join_game m a p) = m) ∧
    (success (make_move m a p position) = false ∧ games (make_move m a p position) = m) ∧
    (success (surrender m a p) = false ∧ games (surrender m a p) = m).
Proof.
  intros Hg Hfin p position. unfold join_game, make_move, surrender,
    TicTacToe.make_move, TicTacToe.surrender.
  rewrite Hg, Hfin. cbn [success games ok after].
  rewrite insert_id by done. done.
Qed.

Definition resigned_group : gmap string TicTacToeGame :=
  foldl run ∅ [CreateGame "g1" "alice"; JoinGame "g1" "bob"; Surrender "g1" "bob"].

Lemma finished_game_frozen_witness :
  games (make_move resigned_group "g1" "alice" 5) = resigned_group ∧
  success (join_game resigned_group "g1" "carol") = false.
Proof.
  assert (∃ g, resigned_group !! "g1" = Some g ∧ is_finished g = true)
    as (g & Hg & Hfin) by (eexists; split; vm_compute; reflexivity).
  destruct (finished_game_frozen resigned_group "g1" g Hg Hfin "alice" 5%Z)
    as (_ & [_ Hmove] & _).
  destruct (finished_game_frozen resigned_group "g1" g Hg Hfin "carol" 5%Z)
    as ([Hjoin _] & _).
  done.
Defined.

(** X8: every session the store holds, after any sequence of calls on an
    empty store, is one the engine reaches from a fresh game by its own
    operations; the facts about reachable sessions hold for it. *)
Theorem stored_games_reachable (calls : list call) (a : string) (g : TicTacToeGame) :
  foldl run ∅ calls !! a = Some g → reachable g.
Proof.
  assert (∀ m c, (∀ a g, m !! a = Some g → reachable g) →
                 ∀ a g, run m c !! a = Some g → reachable g) as Hstep.
  { clear. intros m c Hm b g. destruct (decide (b = group_of c)) as [->|Hne].
    2: { rewrite run_frame by done. apply Hm. }
    destruct c as [a p|a p|a p position|a p|a]; cbn [run group_of].
    - unfold create_game.
      destruct (m !! a) as [existing|] eqn:Ha; [destruct (is_finished existing)|];
        cbn [negb games].
      + rewrite lookup_insert_eq. intros [= <-]. apply reach_create.
      + apply Hm.
      + rewrite lookup_insert_eq. intros [= <-]. apply reach_create.
    - unfold join_game. destruct (m !! a) as [g0|] eqn:Ha; [|apply Hm].
      destruct (is_finished g0); [apply Hm|].
      case_decide; [apply Hm|].
      pose proof (reach_op g0 (OpJoin p) (Hm _ _ Ha)) as Hr. cbn [apply_op] in Hr.
      destruct (join g0 p) as [[] g']; cbn [negb games snd] in *;
        rewrite lookup_insert_eq; by intros [= <-].
    - unfold make_move. destruct (m !! a) as [g0|] eqn:Ha; [|apply Hm].
      cbn [games]. rewrite lookup_insert_eq. intros [= <-].
      apply (reach_op g0 (OpMove p position)). by eapply Hm.
    - unfold surrender. destruct (m !! a) as [g0|] eqn:Ha; [|apply Hm].
      cbn [games]. rewrite lookup_insert_eq. intros [= <-].
      apply (reach_op g0 (OpSurrender p)). by eapply Hm.
    - unfold end_game. case_decide; cbn [snd].
      + by rewrite lookup_delete_eq.
      + apply Hm. }
  revert a g. induction calls as [|c calls IH] using rev_ind; intros a g.
  - cbn. by rewrite lookup_empty.
  - rewrite foldl_app. cbn [foldl]. by apply Hstep.
Qed.

Lemma stored_games_reachable_witness :
  ∃ g, two_groups !! "g1" = Some g ∧ reachable g.
Proof.
  eexists. split; [vm_compute; reflexivity|].
  apply (stored_games_reachable
           [CreateGame "g1" "alice"; CreateGame "g2" "carol"; JoinGame "g1" "bob"] "g1").
  vm_compute. reflexivity.
Defined.

End TicTacToeManagerFacts.

(* ================================================================== *)
(** * Invariants of the go engine *)

Module GoInvariants.
Import Go GoFacts.

(** The operations that place or take back no stone leave the board, the
    undo snapshot and the tallies alone; they can withdraw the permission
    to undo but never grant it. *)
Definition quiet (o : op) : Prop :=
  match o with
  | OpMove _ _ _ | OpUndo _ => False
  | _ => True
  end.

#[local] Instance quiet_dec o : Decision (quiet o).
Proof. destruct o; apply _. Defined.

Record same_stones (g g' : GoGame) : Prop := SameStones {
  ss_size : board_size g' = board_size g;
  ss_board : board g' = board g;
  ss_saved : last_board_state g' = last_board_state g;
  ss_black : captured_black g' = captured_black g;
  ss_white : captured_white g' = captured_white g;
  ss_count : move_count g' = move_count g;
  ss_last : last_captured g' = last_captured g;
  ss_undo : can_undo g' = true → can_undo g = true
}.

Lemma same_stones_refl g : same_stones g g.
Proof. by split. Qed.

Lemma finish_with_score_same g : same_stones g (_finish_with_score g).
Proof.
  destruct (finish_with_score_fields g) as (sb & sw & win & ->). by destruct g.
Qed.

Lemma same_stones_trans g1 g2 g3 :
  same_stones g1 g2 → same_stones g2 g3 → same_stones g1 g3.
Proof. intros [] []. split; try congruence. auto. Qed.

Lemma quiet_same_stones g o : quiet o → same_stones g (apply_op g o).
Proof.
  destruct o as [p|p x y|p|p|p|p|p]; cbn [quiet apply_op]; try done; intros _.
  - unfold join. repeat case_decide; cbn [snd]; try apply same_stones_refl.
    by destruct g.
  - unfold pass_turn. destruct (is_finished g) eqn:Hfin; [apply same_stones_refl|].
    do 3 (case_decide; [apply same_stones_refl|]). cbv zeta.
    case_decide; cbn [after].
    + eapply same_stones_trans; [|apply finish_with_score_same]. by destruct g.
    + by destruct g.
  - unfold request_score. destruct (is_finished g); [apply same_stones_refl|].
    case_decide; [apply same_stones_refl|]. destruct (score_request_by g) eqn:Hreq.
    + case_decide; [apply same_stones_refl|]. cbv zeta. cbn [after].
      eapply same_stones_trans; [|apply finish_with_score_same]. by destruct g.
    + cbn [after]. by destruct g.
  - unfold reject_score. destruct (score_request_by g); [|apply same_stones_refl].
    case_decide; [apply same_stones_refl|]. by destruct g.
  - unfold surrender. destruct (is_finished g); [apply same_stones_refl|].
    repeat case_decide; try apply same_stones_refl; by destruct g.
Qed.

(** ** No group without a liberty *)

(** Every stone on [b] belongs to a group that touches an empty cell. *)
Definition alive (n : nat) (b : list Stone) : Prop :=
  ∀ q c, b !! q = Some c → c ≠ EMPTY →
         ∃ m e, conn n b c q m ∧ e ∈ _get_neighbors n m ∧ b !! e = Some EMPTY.

Lemma conn_keep n b b' c p q :
  (∀ x, b !! x = Some c → b' !! x = Some c) → conn n b c p q → conn n b' c p q.
Proof.
  intros Hkeep. induction 1 as [Hp|q r Hq IH Hr Hc]; [by apply conn_here, Hkeep|].
  eapply conn_next; [done..|]. by apply Hkeep.
Qed.

Lemma move_keeps_alive g p x y :
  wf g → alive (board_size g) (board g) →
  alive (board_size g) (board (after (make_move g p x y))).
Proof.
  intros [Hn Hlen Hturn _ _] Halive.
  destruct (go_make_move_inv g p x y)
    as [[_ ->]|(_ & _ & _ & _ & _ & Hrange & Hfree & b & captured & Hloop & Hlib & _ & ->)];
    [done|].
  apply placed_lt in Hrange. apply opponent_colour in Hturn as Hopp.
  destruct Hopp as [Hopp Hdiff].
  set (n := board_size g) in *. set (pos := placed g x y) in *.
  set (stone := current_turn g) in *. set (opp := _get_opponent stone) in *.
  set (b1 := <[pos := stone]> (board g)) in *.
  assert (stone ≠ EMPTY) as Hstone by (destruct Hturn; congruence).
  assert (length b1 = n * n) as Hlen1 by (unfold b1; by rewrite length_insert).
  assert (b1 !! pos = Some stone) as Hpos
    by (unfold b1; apply list_lookup_insert_eq; by rewrite Hlen).
  assert (∀ q c, c ≠ EMPTY → board g !! q = Some c → b1 !! q = Some c) as Hup.
  { intros q c Hc Hq. unfold b1. rewrite list_lookup_insert_ne; [done|]. congruence. }
  assert (∀ q, q ≠ pos → b1 !! q = board g !! q) as Hoff.
  { intros q Hq. unfold b1. by rewrite list_lookup_insert_ne. }
  destruct (capture_loop_spec n b1 opp Hn Hlen1 Hopp (_get_neighbors n pos)) as [C HC].
  rewrite Hloop in HC. cbn [fst snd] in HC.
  pose proof (csf_board _ _ _ _ _ _ _ HC) as Hb.
  pose proof (csf_len _ _ _ _ _ _ _ HC) as Hlenb.
  assert (∀ q, q ∈ C → b1 !! q = Some opp) as Hcol
    by (intros q Hq; exact (csf_colour _ _ _ _ _ _ _ q HC Hq)).
  assert (board (committed g pos b captured) = b) as -> by done.
  assert (∀ q c, c ≠ opp → b1 !! q = Some c → b !! q = Some c) as Hdown.
  { intros q c Hc Hq. rewrite Hb. rewrite decide_False; [done|].
    intros Hin%Hcol. congruence. }
  assert (∀ q, b1 !! q = Some EMPTY → b !! q = Some EMPTY) as Hfree'.
  { intros q Hq. by apply Hdown. }
  assert (b !! pos = Some stone) as Hposb by (by apply Hdown).
  assert (∃ m e, conn n b stone pos m ∧ e ∈ _get_neighbors n m ∧ b !! e = Some EMPTY)
    as (m0 & e0 & Hm0 & He0 & Hempty0).
  { assert (liberties_of b n (_find_group b n pos) ≢ ∅) as Hsome.
    { intros Hempty. apply Hlib. unfold _count_liberties. by apply size_empty_iff. }
    apply set_choose in Hsome as [e He].
    apply liberties_of_spec in He as (m & Hm & He & Hempty).
    exists m, e. split; [|done].
    by apply (find_group_conn n b Hn Hlenb pos stone m). }
  intros q c Hq Hc.
  destruct (decide (q = pos)) as [->|Hqpos].
  { assert (c = stone) as -> by congruence. by exists m0, e0. }
  assert (q ∉ C) as HqC.
  { intros Hin. rewrite Hb, decide_True in Hq by done. congruence. }
  assert (board g !! q = Some c) as Hq0.
  { rewrite <- Hoff by done. rewrite Hb, decide_False in Hq by done. done. }
  destruct (Halive q c Hq0 Hc) as (m & e & Hm & He & Hempty).
  assert (conn n b1 c q m) as Hm1 by (eapply conn_keep; [|exact Hm]; intros; by apply Hup).
  assert (m < n * n) as Hmlt by (eapply (cell_lt n b1 Hlen1), conn_end, Hm1).
  destruct (decide (c = opp)) as [->|Hcopp].
  - (* a stone of the opponent that stays *)
    assert (conn n b opp q m) as Hmb
      by (by apply (csf_conn n b1 opp Hn Hlen1 Hopp _ _ _ _ q m HC HqC)).
    destruct (decide (e = pos)) as [->|Hepos].
    + assert (m ∈ _get_neighbors n pos) as Hnb
        by (by apply (neighbors_sym n m pos Hn Hmlt)).
      assert (m ∉ C) as HmC.
      { intros Hin. apply HqC. eapply csf_closed; [done..|].
        by apply (conn_sym n b1 Hn Hlen1). }
      assert (b1 !! m = Some opp) as Hmcol by (by eapply conn_end).
      destruct (decide (_count_liberties b n (_find_group b n m) = 0)) as [Hzero|Hsome].
      * destruct HqC. eapply (csf_all _ _ _ _ _ _ _ HC m q Hnb).
        -- by apply (conn_sym n b1 Hn Hlen1).
        -- by apply (csf_dead n b1 opp Hn Hlen1 Hopp _ _ _ _ m HC HmC Hmcol).
      * assert (liberties_of b n (_find_group b n m) ≢ ∅) as Hne.
        { intros Hempty'. apply Hsome. unfold _count_liberties. by apply size_empty_iff. }
        apply set_choose in Hne as [e2 He2].
        apply liberties_of_spec in He2 as (m2 & Hm2 & He2 & Hempty2).
        exists m2, e2. split; [|done]. apply conn_trans with m; [done|].
        apply (find_group_conn n b Hn Hlenb m opp m2); try done.
        by eapply conn_end.
    + exists m, e. split; [done|]. split; [done|].
      apply Hfree'. by rewrite Hoff.
  - (* a stone of the mover away from the new one *)
    assert (conn n b c q m) as Hmb.
    { eapply conn_keep; [|exact Hm1]. intros; by apply Hdown. }
    destruct (decide (e = pos)) as [->|Hepos].
    + assert (c = stone) as ->.
      { destruct Hturn as [Ht|Ht]; fold stone in Ht; unfold opp in Hcopp;
          rewrite Ht in *; unfold _get_opponent in Hcopp; destruct c; try done;
          by case_decide. }
      exists m0, e0. split; [|done]. apply conn_trans with pos; [|done].
      eapply conn_next; [exact Hmb|done..].
    + exists m, e. split; [done|]. split; [done|].
      apply Hfree'. by rewrite Hoff.
Qed.


(** Liveness of the board and of the undo snapshot, which [undo] puts back. *)
Record sound (g : GoGame) : Prop := Sound {
  sound_board : alive (board_size g) (board g);
  sound_saved : ∀ s, last_board_state g = Some s → alive (board_size g) s
}.

Lemma sound_step g o : wf g → sound g → sound (apply_op g o).
Proof.
  intros Hwf [Hboard Hsaved].
  destruct (decide (quiet o)) as [Hq|Hq].
  { destruct (quiet_same_stones g o Hq) as [Hn Hb Hs _ _ _ _ _].
    split; rewrite Hn; [by rewrite Hb|by rewrite Hs]. }
  destruct o as [p|p x y|p|p|p|p|p]; cbn [quiet] in Hq; try done; cbn [apply_op].
  - pose proof (move_keeps_alive g p x y Hwf Hboard) as Hnew.
    destruct (go_make_move_inv g p x y)
      as [[_ Heq]|(_ & _ & _ & _ & _ & _ & _ & b & captured & _ & _ & _ & Heq)];
      rewrite Heq in *; [done|].
    split; [done|]. unfold committed. go_fields. by intros s [= <-].
  - destruct (decide (undo_allowed g p)) as [Hyes|Hno];
      [|by destruct (undo_fail g p Hno) as [_ ->]].
    destruct (last_board_state g) as [saved|] eqn:Hsv;
      [|by destruct Hyes as (_ & _ & ? & _)].
    rewrite (undo_ok g p saved Hyes Hsv). cbn [after]. unfold restored.
    split; go_fields; [by apply Hsaved|done].
Qed.

Lemma reachable_sound g : reachable g → sound g.
Proof.
  induction 1 as [n p Hn|g o Hg IH]; [|apply sound_step; [by apply go_reachable_wf|done]].
  split; cbn; [|done]. intros q c Hq Hc.
  apply lookup_replicate in Hq as [-> _]. done.
Qed.

(** X9: no session the engine can reach has a stone without a liberty on
    its board: every stone belongs to a group, of stones of its colour
    joined along the lines, that touches an empty cell. *)
Theorem no_dead_group g : reachable g → alive (board_size g) (board g).
Proof. intros Hg. by destruct (reachable_sound g Hg). Qed.

Lemma no_dead_group_witness : alive (board_size capture_game) (board capture_game).
Proof. apply (no_dead_group capture_game), capture_game_reachable. Defined.

(** ** Where the stones are *)

(** The cells of the board that hold colour [s]; [count_stones] is their
    number. *)
Definition cells (b : list Stone) (n : nat) (s : Stone) : gset nat :=
  list_to_set (filter (λ pos, b !! pos = Some s) (seq 0 (n * n))).

Lemma elem_of_cells b n s q : q ∈ cells b n s ↔ q < n * n ∧ b !! q = Some s.
Proof.
  unfold cells. rewrite elem_of_list_to_set, list_elem_of_filter, elem_of_seq.
  intuition lia.
Qed.

Lemma count_stones_cells b n s : count_stones b n s = size (cells b n s).
Proof.
  unfold count_stones, cells. rewrite size_list_to_set; [done|].
  apply NoDup_filter, NoDup_seq.
Qed.

(** The stones on the board, of both colours. *)
Definition on_board (b : list Stone) (n : nat) : nat :=
  count_stones b n BLACK + count_stones b n WHITE.

Lemma on_board_colours b n c :
  c = BLACK ∨ c = WHITE →
  on_board b n = count_stones b n c + count_stones b n (_get_opponent c).
Proof. unfold on_board, _get_opponent. intros [-> | ->]; case_decide; try done; lia. Qed.

Lemma move_counts g p x y :
  wf g → ok (make_move g p x y) = true →
  let g' := after (make_move g p x y) in
  (Z.of_nat (on_board (board g') (board_size g)) + last_captured g'
   = Z.of_nat (on_board (board g) (board_size g)) + 1)%Z.
Proof.
  intros [Hn Hlen Hturn _ _] Hok. cbv zeta.
  destruct (go_make_move_inv g p x y)
    as [[Hno _]|(_ & _ & _ & _ & _ & Hrange & Hfree & b & captured & Hloop & _ & _ & ->)];
    [congruence|]. clear Hok.
  apply placed_lt in Hrange. apply opponent_colour in Hturn as Hopp.
  destruct Hopp as [Hopp Hdiff].
  rewrite !(on_board_colours _ _ (current_turn g) Hturn).
  set (n := board_size g) in *. set (pos := placed g x y) in *.
  set (stone := current_turn g) in *. set (opp := _get_opponent stone) in *.
  set (b1 := <[pos := stone]> (board g)) in *.
  assert (stone ≠ EMPTY) as Hstone by (destruct Hturn; congruence).
  assert (length b1 = n * n) as Hlen1 by (unfold b1; by rewrite length_insert).
  assert (b1 !! pos = Some stone) as Hpos
    by (unfold b1; apply list_lookup_insert_eq; by rewrite Hlen).
  assert (∀ q, q ≠ pos → b1 !! q = board g !! q) as Hoff.
  { intros q Hq. unfold b1. by rewrite list_lookup_insert_ne. }
  destruct (capture_loop_spec n b1 opp Hn Hlen1 Hopp (_get_neighbors n pos)) as [C HC].
  rewrite Hloop in HC. cbn [fst snd] in HC.
  pose proof (csf_board _ _ _ _ _ _ _ HC) as Hb.
  pose proof (csf_count _ _ _ _ _ _ _ HC) as Hk.
  assert (∀ q, q ∈ C → b1 !! q = Some opp) as Hcol
    by (intros q Hq; exact (csf_colour _ _ _ _ _ _ _ q HC Hq)).
  assert (pos ∉ C) as HposC by (intros Hin%Hcol; congruence).
  unfold committed. go_fields. rewrite !count_stones_cells.
  assert (cells b n stone = cells (board g) n stone ∪ {[pos]}) as ->.
  { apply set_eq. intros q.
    rewrite elem_of_union, elem_of_singleton, !elem_of_cells, Hb.
    destruct (decide (q = pos)) as [->|Hq].
    - rewrite decide_False by done. rewrite Hpos. intuition.
    - rewrite <- Hoff by done. case_decide as Hin; [|intuition].
      rewrite (Hcol q Hin). intuition congruence. }
  assert (cells (board g) n opp = cells b n opp ∪ C) as ->.
  { apply set_eq. intros q.
    rewrite elem_of_union, !elem_of_cells, Hb.
    destruct (decide (q = pos)) as [->|Hq].
    - rewrite decide_False by done. rewrite Hpos, Hfree. intuition congruence.
    - rewrite <- Hoff by done. case_decide as Hin.
      + rewrite (Hcol q Hin). split; [by right|]. intros _. split; [|done].
        eapply (cell_lt n b1 Hlen1), Hcol, Hin.
      + intuition. }
  rewrite !size_union.
  - rewrite size_singleton. lia.
  - intros q Hq Hin. apply elem_of_cells in Hq as [_ Hq].
    rewrite Hb, decide_True in Hq by done. congruence.
  - intros q Hq ->%elem_of_singleton. apply elem_of_cells in Hq as [_ Hq]. congruence.
Qed.

(** Stones on the board and stones taken add up to the moves made; the
    same holds, one move earlier, for the snapshot [undo] would restore. *)
Record tallied (g : GoGame) : Prop := Tallied {
  tally_now : (Z.of_nat (on_board (board g) (board_size g))
               + captured_black g + captured_white g = move_count g)%Z;
  tally_saved : can_undo g = true →
                ∀ s, last_board_state g = Some s →
                     (Z.of_nat (on_board s (board_size g))
                      + captured_black g + captured_white g - last_captured g
                      = move_count g - 1)%Z
}.

Lemma tallied_step g o : wf g → tallied g → tallied (apply_op g o).
Proof.
  intros Hwf [Hnow Hsaved].
  destruct (decide (quiet o)) as [Hq|Hq].
  { destruct (quiet_same_stones g o Hq) as [Hn Hb Hs Hcb Hcw Hmc Hlc Hcu].
    split; rewrite Hn, Hcb, Hcw, Hmc; [by rewrite Hb|].
    intros Hu s Hs'. rewrite Hlc. apply Hsaved; [by apply Hcu|congruence]. }
  destruct o as [p|p x y|p|p|p|p|p]; cbn [quiet] in Hq; try done; cbn [apply_op].
  - destruct (ok (make_move g p x y)) eqn:Hok.
    2: { destruct (go_make_move_inv g p x y) as [[_ ->]|(Hyes & _)]; [done|congruence]. }
    pose proof (move_counts g p x y Hwf Hok) as Hmove. cbv zeta in Hmove.
    destruct (go_make_move_inv g p x y)
      as [[Hno _]|(_ & _ & _ & _ & _ & _ & _ & b & captured & _ & _ & _ & Heq)];
      [congruence|].
    rewrite Heq in *. unfold committed in *. go_fields.
    split; go_fields.
    + case_decide; lia.
    + intros _ s [= <-]. case_decide; lia.
  - destruct (decide (undo_allowed g p)) as [Hyes|Hno];
      [|by destruct (undo_fail g p Hno) as [_ ->]].
    destruct (last_board_state g) as [saved|] eqn:Hsv;
      [|by destruct Hyes as (_ & _ & ? & _)].
    rewrite (undo_ok g p saved Hyes Hsv). cbn [after]. unfold restored.
    destruct Hyes as (_ & Hcu & _). specialize (Hsaved Hcu saved eq_refl).
    split; go_fields; [|done]. case_decide; lia.
Qed.

Lemma reachable_tallied g : reachable g → tallied g.
Proof.
  induction 1 as [n p Hn|g o Hg IH];
    [|apply tallied_step; [by apply go_reachable_wf|done]].
  split; unfold new_game; go_fields; [|done].
  assert (∀ s, s ≠ EMPTY → count_stones (replicate (n * n) EMPTY) n s = 0) as Hzero.
  { intros s Hs. rewrite count_stones_cells. apply size_empty_iff, elem_of_equiv_empty.
    intros q [_ Hq]%elem_of_cells. apply lookup_replicate in Hq as [? _]. congruence. }
  unfold on_board. rewrite !Hzero by done. done.
Qed.

(** X10: in every session the engine can reach, the stones on the board
    and the stones counted as captured add up to [move_count]: every
    stone played and not taken back is on the board or in a tally. *)
Theorem stones_accounted g :
  reachable g →
  (Z.of_nat (count_stones (board g) (board_size g) BLACK
             + count_stones (board g) (board_size g) WHITE)
   + captured_black g + captured_white g = move_count g)%Z.
Proof. intros Hg. by destruct (reachable_tallied g Hg). Qed.

Lemma stones_accounted_witness :
  (Z.of_nat (count_stones (board capture_game) (board_size capture_game) BLACK
             + count_stones (board capture_game) (board_size capture_game) WHITE)
   + captured_black capture_game + captured_white capture_game
   = move_count capture_game)%Z.
Proof. apply (stones_accounted capture_game), capture_game_reachable. Defined.


(** ** Passing and taking back *)

(** The session after an accepted pass, before the count of passes is
    looked at. *)
Definition passed (g : GoGame) : GoGame :=
  set_current_turn (_get_opponent (current_turn g))
    (set_score_request_by None
       (set_can_undo false
          (set_ko_point None
             (set_consecutive_passes (consecutive_passes g + 1)%Z g)))).

Lemma pass_turn_inv g p :
  (ok (pass_turn g p) = false ∧ after (pass_turn g p) = g) ∨
  (ok (pass_turn g p) = true ∧ is_finished g = false ∧
   after (pass_turn g p)
   = if decide (2 ≤ consecutive_passes g + 1)%Z
     then _finish_with_score (set_is_finished true (passed g))
     else passed g).
Proof.
  unfold pass_turn. destruct (is_finished g) eqn:Hfin; [by left|].
  do 3 (case_decide; [by left|]). right. cbv zeta.
  assert (consecutive_passes
            (set_current_turn (_get_opponent (current_turn g))
               (set_score_request_by None
                  (set_can_undo false
                     (set_ko_point None
                        (set_consecutive_passes (consecutive_passes g + 1)%Z g)))))
          = (consecutive_passes g + 1)%Z) as Hcp by (by destruct g).
  unfold passed.
  assert (current_turn
            (set_score_request_by None
               (set_can_undo false
                  (set_ko_point None
                     (set_consecutive_passes (consecutive_passes g + 1)%Z g))))
          = current_turn g) as -> by (by destruct g).
  rewrite Hcp. case_decide; done.
Qed.

Lemma finish_with_score_flags g :
  is_finished (_finish_with_score g) = is_finished g ∧
  can_undo (_finish_with_score g) = can_undo g ∧
  consecutive_passes (_finish_with_score g) = consecutive_passes g.
Proof.
  destruct (finish_with_score_fields g) as (sb & sw & win & ->). by destruct g.
Qed.

Lemma passes_nonneg g : reachable g → (0 ≤ consecutive_passes g)%Z.
Proof.
  induction 1 as [n p Hn|g o Hg IH]; [done|].
  destruct o as [p|p x y|p|p|p|p|p]; cbn [apply_op].
  - unfold join. repeat case_decide; cbn [snd]; try done. by destruct g.
  - destruct (go_make_move_inv g p x y)
      as [[_ ->]|(_ & _ & _ & _ & _ & _ & _ & b & captured & _ & _ & _ & ->)]; done.
  - destruct (pass_turn_inv g p) as [[_ ->]|(_ & _ & ->)]; [done|].
    case_decide.
    + destruct (finish_with_score_flags (set_is_finished true (passed g)))
        as (_ & _ & ->).
      destruct g. unfold passed. go_fields. lia.
    + destruct g. unfold passed. go_fields. lia.
  - destruct (decide (undo_allowed g p)) as [Hyes|Hno];
      [|by destruct (undo_fail g p Hno) as [_ ->]].
    destruct (last_board_state g) as [saved|] eqn:Hsv;
      [|by destruct Hyes as (_ & _ & ? & _)].
    by rewrite (undo_ok g p saved Hyes Hsv).
  - unfold request_score. destruct (is_finished g); [done|].
    case_decide; [done|]. destruct (score_request_by g).
    + case_decide; [done|]. cbv zeta. cbn [after].
      destruct (finish_with_score_flags (set_is_finished true g)) as (_ & _ & ->).
      by destruct g.
    + cbn [after]. by destruct g.
  - unfold reject_score. destruct (score_request_by g); [|done].
    case_decide; [done|]. by destruct g.
  - unfold surrender. destruct (is_finished g); [done|].
    repeat case_decide; try done; by destruct g.
Qed.

(** X11: two passes in a row end the game.  When the engine accepts a
    pass and then accepts a pass again, the game is finished and both
    scores are the ones [count_territory] gives for the board, which the
    passes have not touched. *)
Theorem two_passes_end_game g p q :
  reachable g →
  ok (pass_turn g p) = true →
  ok (pass_turn (after (pass_turn g p)) q) = true →
  let g2 := after (pass_turn (after (pass_turn g p)) q) in
  is_finished g2 = true ∧ board g2 = board g ∧
  (score_black g2, score_white g2) = count_territory g.
Proof.
  intros Hcp%passes_nonneg Hok1 Hok2. cbv zeta.
  destruct (pass_turn_inv g p) as [[Hno _]|(_ & Hfin & Heq)]; [congruence|].
  rewrite Heq in *. clear Heq Hok1.
  case_decide as Htwo.
  { exfalso. destruct (pass_turn_inv (_finish_with_score (set_is_finished true (passed g))) q)
      as [[Hno _]|(_ & Hfin' & _)]; [congruence|].
    destruct (finish_with_score_flags (set_is_finished true (passed g))) as (Hf & _).
    rewrite Hf in Hfin'. by destruct g. }
  destruct (pass_turn_inv (passed g) q) as [[Hno _]|(_ & _ & ->)]; [congruence|].
  rewrite decide_True by (destruct g; unfold passed; go_fields; lia).
  set (g1 := set_is_finished true (passed (passed g))).
  assert (board g1 = board g ∧ board_size g1 = board_size g ∧ komi g1 = komi g ∧
          is_finished g1 = true) as (Hb & Hn & Hk & Hf) by (by destruct g).
  assert (count_territory g1 = count_territory g) as Hct
    by (unfold count_territory; by rewrite Hb, Hn, Hk).
  unfold _finish_with_score. rewrite Hct.
  destruct (count_territory g) as [sb sw]. cbv zeta.
  destruct g1 as [n pb pw bd ct cb cw mc lm kp fin win cp sb0 sw0 km bh lbs lc lp cu srb].
  go_fields. subst. repeat case_match; done.
Qed.

(** Alice and Bob on an empty board of nine lines, Alice to move. *)
Definition opened_game : GoGame := foldl apply_op (new_game 9 "alice") [OpJoin "bob"].

Lemma opened_game_reachable : reachable opened_game.
Proof. apply go_reachable_ops, reach_create. set_solver. Qed.

Lemma two_passes_end_game_witness :
  is_finished (after (pass_turn (after (pass_turn opened_game "alice")) "bob")) = true.
Proof.
  apply (two_passes_end_game opened_game "alice" "bob" opened_game_reachable);
    vm_compute; reflexivity.
Defined.

(** X12: only a fresh move can be taken back.  After an [undo] the engine
    has accepted, and after a pass it has accepted, every [undo] fails,
    whoever asks. *)
Theorem undo_needs_fresh_move g p q :
  (ok (undo g p) = true → ok (undo (after (undo g p)) q) = false) ∧
  (ok (pass_turn g p) = true → ok (undo (after (pass_turn g p)) q) = false).
Proof.
  split.
  - intros Hok. destruct (decide (undo_allowed g p)) as [Hyes|Hno];
      [|destruct (undo_fail g p Hno); congruence].
    destruct (last_board_state g) as [saved|] eqn:Hsv;
      [|by destruct Hyes as (_ & _ & ? & _)].
    rewrite (undo_ok g p saved Hyes Hsv). cbn [after].
    unfold undo, restored. go_fields. by destruct (is_finished g).
  - intros Hok. destruct (pass_turn_inv g p) as [[Hno _]|(_ & Hfin & ->)]; [congruence|].
    assert (can_undo (passed g) = false) as Hcu by (by destruct g).
    case_decide.
    + unfold undo.
      destruct (finish_with_score_flags (set_is_finished true (passed g))) as (-> & _).
      by destruct g.
    + unfold undo. destruct (is_finished (passed g)); [done|].
      destruct (last_board_state (passed g)); [|done]. by rewrite Hcu.
Qed.

Lemma undo_needs_fresh_move_witness :
  ok (undo corner_game "alice") = true ∧
  ok (undo (after (undo corner_game "alice")) "alice") = false.
Proof.
  assert (ok (undo corner_game "alice") = true) as Hok by (vm_compute; reflexivity).
  split; [exact Hok|].
  by apply (proj1 (undo_needs_fresh_move corner_game "alice" "alice")).
Defined.

End GoInvariants.

(* ================================================================== *)
(** * Invariants of the xiangqi engine *)

Module XiangqiInvariants.
Import Xiangqi XiangqiFacts.

(** The operations a session receives after its creation. *)
Inductive op :=
| OpJoin (player_id : string)
| OpMove (player_id : string) (from_pos to_pos : Z)
| OpSurrender (player_id : string).

Definition apply_op (g : XiangqiGame) (o : op) : XiangqiGame :=
  match o with
  | OpJoin p => snd (join g p)
  | OpMove p from_pos to_pos => after (make_move g p from_pos to_pos)
  | OpSurrender p => after (surrender g p)
  end.

(** Sessions the engine can be in: [XiangqiManager.create_game] sets up
    the opening position, and every later change is one operation. *)
Inductive reachable : XiangqiGame → Prop :=
| reach_create p : reachable (new_game p)
| reach_op g o : reachable g → reachable (apply_op g o).

Lemma xiangqi_reachable_ops g os : reachable g → reachable (foldl apply_op g os).
Proof.
  revert g. induction os as [|o os IH]; intros g Hg; [done|].
  cbn [foldl]. apply IH. by apply reach_op.
Qed.

(** Putting a trial back: the two writes that undo it give the board it
    started from. *)
Lemma trial_undone b from_pos to_pos :
  from_pos ≠ to_pos → from_pos < length b →
  <[to_pos := piece_at b to_pos]>
    (<[from_pos := piece_at b from_pos]> (trial b from_pos to_pos)) = b.
Proof.
  intros Hne Hfrom.
  pose proof (try_move_restores b RED from_pos to_pos Hne Hfrom) as H.
  apply (f_equal snd) in H. exact H.
Qed.

(** What a call of [make_move] can do: it rejects the move and hands the
    session back as it was, trial undone; or it commits the trial. *)
Lemma xiangqi_make_move_inv g p from_pos to_pos :
  let r := make_move g p from_pos to_pos in
  let b' := trial (board g) (Z.to_nat from_pos) (Z.to_nat to_pos) in
  (ok r = false ∧ after r = g) ∨
  (ok r = true ∧ is_finished g = false ∧
   (0 ≤ from_pos < 90)%Z ∧ (0 ≤ to_pos < 90)%Z ∧
   get_piece_side (piece_at (board g) (Z.to_nat from_pos)) = Some (current_turn g) ∧
   _is_valid_piece_move (board g) (Z.to_nat from_pos) (Z.to_nat to_pos) = true ∧
   _is_in_check b' (current_turn g) = false ∧ _kings_facing b' = false ∧
   board (after r) = b' ∧ current_turn (after r) = _get_opponent (current_turn g) ∧
   move_count (after r) = (move_count g + 1)%Z ∧
   player_red (after r) = player_red g ∧ player_black (after r) = player_black g).
Proof.
  cbv zeta. unfold make_move.
  destruct g as [pr pb bd ct mc lm fin win ic]. xq_fields.
  destruct fin; [by left|].
  do 3 (case_decide; [by left|]).
  case_bool_decide as Hrange; cbn [negb]; [|by left].
  case_decide as Hpiece; [by left|].
  case_decide as Hside; [by left|].
  destruct (_is_valid_piece_move bd (Z.to_nat from_pos) (Z.to_nat to_pos)) eqn:Hvalid;
    cbn [negb]; [|by left].
  fold (trial bd (Z.to_nat from_pos) (Z.to_nat to_pos)).
  set (b' := trial bd (Z.to_nat from_pos) (Z.to_nat to_pos)).
  destruct (_is_in_check b' ct || _kings_facing b') eqn:Hself.
  - left. xq_fields. split; [done|]. f_equal. unfold b'. apply trial_undone.
    + by eapply valid_move_distinct.
    + by apply piece_at_lt.
  - right. apply orb_false_iff in Hself as [Hcheck Hface].
    destruct (has_valid_move_spec b' (_get_opponent ct)) as [Hboard _].
    destruct (_has_valid_move b' (_get_opponent ct)) as [has_move b''].
    cbn [fst snd] in Hboard. subst b''. xq_fields.
    assert (get_piece_side (piece_at bd (Z.to_nat from_pos)) = Some ct) as Hside'
      by (by destruct (decide (get_piece_side (piece_at bd (Z.to_nat from_pos)) = Some ct))).
    destruct (_is_in_check b' (_get_opponent ct)), has_move; cbn [andb negb]; xq_fields;
      repeat split; try done; lia.
Qed.

(** X13: a move the engine turns down leaves the session exactly as it
    was, also when the move had been tried on the board and was found to
    leave the mover in check. *)
Theorem xiangqi_rejected_unchanged g p from_pos to_pos :
  ok (make_move g p from_pos to_pos) = false →
  after (make_move g p from_pos to_pos) = g.
Proof.
  intros Hno. destruct (xiangqi_make_move_inv g p from_pos to_pos) as [[_ ?]|[? _]];
    [done|congruence].
Qed.


(** The kings face each other on the E file with a red chariot between
    them, red to move. *)
Definition pinned_game : XiangqiGame :=
  mkXiangqi "alice" (Some "bob")
    (<[85 := B_KING]> (<[40 := R_CHARIOT]> (<[4 := R_KING]> (replicate 90 EMPTY))))
    RED 10 None false None false.

Lemma xiangqi_rejected_unchanged_witness :
  msg (make_move pinned_game "alice" 40 41) = "走这步会被将军或将帅对脸" ∧
  after (make_move pinned_game "alice" 40 41) = pinned_game.
Proof.
  split; [vm_compute; reflexivity|].
  apply (xiangqi_rejected_unchanged pinned_game "alice" 40 41). vm_compute. reflexivity.
Defined.

(** ** The kings *)

Definition king_of (side : Side) : Piece := if decide (side = RED) then R_KING else B_KING.

Lemma find_king_present b side : king_of side ∈ b → is_Some (_find_king b side).
Proof.
  intros Hin. unfold _find_king. fold (king_of side).
  destruct (list_find_elem_of (λ piece, piece = king_of side) b (king_of side) Hin eq_refl)
    as [[i x] ->]. by eexists.
Qed.

Lemma find_king_lookup b side k : _find_king b side = Some k → b !! k = Some (king_of side).
Proof.
  unfold _find_king. fold (king_of side). intros H.
  destruct (list_find _ b) as [[i x]|] eqn:Hfind; [|done].
  injection H as <-. apply list_find_Some in Hfind as (Hi & -> & _). done.
Qed.

(** What it means that [side] is not in check. *)
Lemma not_in_check b side :
  _is_in_check b side = false →
  ∃ k, _find_king b side = Some k ∧ _kings_facing b = false ∧
       ∀ i piece, b !! i = Some piece →
                  get_piece_side piece = Some (_get_opponent side) →
                  _is_valid_piece_move b i k = false.
Proof.
  unfold _is_in_check. destruct (_find_king b side) as [k|]; [|done]. cbv zeta.
  destruct (existsb _ _) eqn:Hany; [done|].
  destruct (_kings_facing b); [done|]. intros _. exists k. split; [done|]. split; [done|].
  intros i piece Hi Hside.
  destruct (_is_valid_piece_move b i k) eqn:Hvalid; [|done].
  assert (existsb (λ '(i, piece),
                     bool_decide (get_piece_side piece = Some (_get_opponent side)) &&
                     _is_valid_piece_move b i k)
                  (imap (λ i piece, (i, piece)) b) = true) as Hyes; [|congruence].
  apply existsb_exists. exists (i, piece). split.
  - apply list_elem_of_In, elem_of_lookup_imap. by exists i, piece.
  - rewrite Hvalid, andb_true_r. by apply bool_decide_eq_true.
Qed.

(** What every session the engine builds satisfies: a board of ninety
    cells on which the side that is not to move is not in check, and the
    side to move has its king. *)
Record guarded (g : XiangqiGame) : Prop := Guarded {
  guarded_len : length (board g) = 90;
  guarded_mover : _is_in_check (board g) (_get_opponent (current_turn g)) = false;
  guarded_king : is_Some (_find_king (board g) (current_turn g))
}.

Lemma trial_length b from_pos to_pos : length (trial b from_pos to_pos) = length b.
Proof. unfold trial. by rewrite !length_insert. Qed.

Lemma trial_lookup_ne b from_pos to_pos i :
  i ≠ from_pos → i ≠ to_pos → trial b from_pos to_pos !! i = b !! i.
Proof. intros ??. unfold trial. by rewrite !list_lookup_insert_ne. Qed.

Lemma king_side side : get_piece_side (king_of side) = Some side.
Proof. by destruct side. Qed.

Lemma opponent_differs side : _get_opponent side ≠ side.
Proof. by destruct side. Qed.

Lemma guarded_step g o : guarded g → guarded (apply_op g o).
Proof.
  intros [Hlen Hsafe Hking]. destruct o as [p|p from_pos to_pos|p]; cbn [apply_op].
  - unfold join. repeat case_decide; cbn [snd]; try done. by destruct g.
  - destruct (xiangqi_make_move_inv g p from_pos to_pos)
      as [[_ ->]|(_ & _ & Hfrom & Hto & Hside & Hvalid & Hcheck & _ & Hb & Ht & _)];
      [done|].
    split; rewrite Hb, ?Ht.
    + by rewrite trial_length.
    + by rewrite opponent_twice.
    + apply not_in_check in Hsafe as (k & Hk & _ & Hnone).
      apply find_king_lookup in Hk as Hcell.
      set (from_n := Z.to_nat from_pos) in *. set (to_n := Z.to_nat to_pos) in *.
      assert (from_n < length (board g)) as Hlt by (rewrite Hlen; lia).
      destruct (lookup_lt_is_Some_2 _ _ Hlt) as [piece Hpiece].
      assert (piece_at (board g) from_n = piece) as Hat
        by (unfold piece_at; by rewrite Hpiece).
      rewrite Hat in Hside.
      apply find_king_present, list_elem_of_lookup. exists k.
      rewrite trial_lookup_ne; [done| |].
      * intros ->. rewrite Hpiece in Hcell. injection Hcell as ->.
        rewrite king_side in Hside. injection Hside as Hside.
        by apply (opponent_differs (current_turn g)).
      * intros ->. rewrite (Hnone from_n piece Hpiece) in Hvalid; [done|].
        by rewrite opponent_twice.
  - unfold surrender. destruct (is_finished g); [done|].
    repeat case_decide; try done; by destruct g.
Qed.

Lemma reachable_guarded g : reachable g → guarded g.
Proof.
  induction 1 as [p|g o _ IH]; [|by apply guarded_step].
  split; [done|vm_compute; reflexivity|by eexists].
Qed.

(** X14: no king is ever taken.  In every session the engine can reach,
    both kings stand on the board, and the side that has just moved is not
    in check: its king is attacked by no piece and the kings do not face
    each other. *)
Theorem kings_never_taken g :
  reachable g →
  R_KING ∈ board g ∧ B_KING ∈ board g ∧
  _is_in_check (board g) (_get_opponent (current_turn g)) = false.
Proof.
  intros [_ Hsafe [k Hk]]%reachable_guarded. split; [|split; [|done]].
  - destruct (current_turn g) eqn:Ht.
    + apply find_king_lookup in Hk. by eapply list_elem_of_lookup_2.
    + apply not_in_check in Hsafe as (k' & Hk'%find_king_lookup & _).
      by eapply list_elem_of_lookup_2.
  - destruct (current_turn g) eqn:Ht.
    + apply not_in_check in Hsafe as (k' & Hk'%find_king_lookup & _).
      by eapply list_elem_of_lookup_2.
    + apply find_king_lookup in Hk. by eapply list_elem_of_lookup_2.
Qed.

(** The opening after the central cannon and the horse's answer. *)
Definition cannon_game : XiangqiGame :=
  foldl apply_op (new_game "alice")
    [OpJoin "bob"; OpMove "alice" 19 22; OpMove "bob" 82 65]%Z.

Lemma cannon_game_reachable : reachable cannon_game.
Proof. apply xiangqi_reachable_ops, reach_create. Qed.

Lemma kings_never_taken_witness :
  R_KING ∈ board cannon_game ∧ B_KING ∈ board cannon_game ∧
  _is_in_check (board cannon_game) (_get_opponent (current_turn cannon_game)) = false.
Proof. apply (kings_never_taken cannon_game), cannon_game_reachable. Defined.


(** ** Where the pieces can be *)

(** The part of the board a piece is bound to: the palace of its side for
    a king or an advisor, the own half for an elephant, and for a soldier
    the ranks from its starting rank onwards. *)
Definition confined (piece : Piece) (pos : nat) : Prop :=
  let '(row, col) := _pos_to_rc pos in
  match piece with
  | R_KING | R_ADVISOR => (0 ≤ row ≤ 2 ∧ 3 ≤ col ≤ 5)%Z
  | B_KING | B_ADVISOR => (7 ≤ row ≤ 9 ∧ 3 ≤ col ≤ 5)%Z
  | R_ELEPHANT => (row ≤ 4)%Z
  | B_ELEPHANT => (5 ≤ row)%Z
  | R_SOLDIER => (3 ≤ row)%Z
  | B_SOLDIER => (row ≤ 6)%Z
  | _ => True
  end.

#[local] Instance confined_dec piece pos : Decision (confined piece pos).
Proof. unfold confined. destruct (_pos_to_rc pos), piece; apply _. Defined.

(** Settling a test of membership in a list of pieces by evaluation. *)
Ltac settle_member :=
  match goal with
  | |- context [decide (?p ∈ ?l)] =>
    let H := fresh in
    destruct (decide (p ∈ l)) as [H|H];
    [ try (exfalso; apply (bool_decide_pack _) in H; vm_compute in H; exact H)
    | try (exfalso; apply H; apply (bool_decide_unpack _); vm_compute; exact I) ];
    clear H
  end.

Lemma valid_move_confined b from_pos to_pos :
  confined (piece_at b from_pos) from_pos →
  _is_valid_piece_move b from_pos to_pos = true →
  confined (piece_at b from_pos) to_pos.
Proof.
  unfold _is_valid_piece_move, confined. cbv zeta.
  destruct (_pos_to_rc from_pos) as [from_row from_col].
  destruct (_pos_to_rc to_pos) as [to_row to_col].
  case_decide as Hpiece; [done|]. case_decide; [done|]. case_decide; [done|].
  destruct (piece_at b from_pos); try (intros; exact I); try done;
    repeat settle_member; intros Hfrom.
  - (* the red king *)
    change (get_piece_side R_KING) with (Some RED). unfold _is_in_palace.
    case_decide; [done|]. rewrite decide_True by done.
    case_bool_decide; [|done]. intros _. lia.
  - (* a red advisor *)
    change (get_piece_side R_ADVISOR) with (Some RED). unfold _is_in_palace.
    case_decide; [done|]. rewrite decide_True by done.
    case_bool_decide; [|done]. intros _. lia.
  - (* a red elephant *)
    change (get_piece_side R_ELEPHANT) with (Some RED). unfold _is_across_river.
    rewrite decide_True by done. case_bool_decide; [done|]. intros _. lia.
  - (* a red soldier *)
    change (get_piece_side R_SOLDIER) with (Some RED). rewrite decide_True by done.
    destruct (negb _); [intros [? ?]%bool_decide_eq_true; lia|].
    repeat case_decide; try done; intros _; lia.
  - (* the black king *)
    change (get_piece_side B_KING) with (Some BLACK). unfold _is_in_palace.
    case_decide; [done|]. rewrite decide_False by done.
    case_bool_decide; [|done]. intros _. lia.
  - (* a black advisor *)
    change (get_piece_side B_ADVISOR) with (Some BLACK). unfold _is_in_palace.
    case_decide; [done|]. rewrite decide_False by done.
    case_bool_decide; [|done]. intros _. lia.
  - (* a black elephant *)
    change (get_piece_side B_ELEPHANT) with (Some BLACK). unfold _is_across_river.
    rewrite decide_False by done. case_bool_decide; [done|]. intros _. lia.
  - (* a black soldier *)
    change (get_piece_side B_SOLDIER) with (Some BLACK). rewrite decide_False by done.
    destruct (negb _); [intros [? ?]%bool_decide_eq_true; lia|].
    repeat case_decide; try done; intros _; lia.
Qed.

Record placed_right (g : XiangqiGame) : Prop := PlacedRight {
  pr_len : length (board g) = 90;
  pr_cells : ∀ pos piece, board g !! pos = Some piece → confined piece pos
}.

Lemma placed_right_step g o : placed_right g → placed_right (apply_op g o).
Proof.
  intros [Hlen Hcells]. destruct o as [p|p from_pos to_pos|p]; cbn [apply_op].
  - unfold join. repeat case_decide; cbn [snd]; try done. by destruct g.
  - destruct (xiangqi_make_move_inv g p from_pos to_pos)
      as [[_ ->]|(_ & _ & Hfrom & Hto & _ & Hvalid & _ & _ & Hb & _)]; [done|].
    split; rewrite Hb; [by rewrite trial_length|].
    set (from_n := Z.to_nat from_pos) in *. set (to_n := Z.to_nat to_pos) in *.
    assert (from_n < length (board g)) as Hlt by (rewrite Hlen; lia).
    destruct (lookup_lt_is_Some_2 _ _ Hlt) as [piece Hpiece].
    assert (piece_at (board g) from_n = piece) as Hat
      by (unfold piece_at; by rewrite Hpiece).
    intros pos q. unfold trial. rewrite Hat.
    destruct (decide (pos = from_n)) as [->|Hnf].
    { rewrite list_lookup_insert_eq by (rewrite length_insert; lia).
      intros [= <-]. unfold confined. by destruct (_pos_to_rc from_n). }
    rewrite list_lookup_insert_ne by done.
    destruct (decide (pos = to_n)) as [->|Hnt].
    { rewrite list_lookup_insert_eq by lia. intros [= <-].
      rewrite <- Hat. apply valid_move_confined; [|done].
      rewrite Hat. by apply Hcells. }
    rewrite list_lookup_insert_ne by done. apply Hcells.
  - unfold surrender. destruct (is_finished g); [done|].
    repeat case_decide; try done; by destruct g.
Qed.

Lemma reachable_placed_right g : reachable g → placed_right g.
Proof.
  induction 1 as [p|g o _ IH]; [|by apply placed_right_step].
  split; [done|]. cbn [new_game board].
  assert (Forall (λ '(pos, piece), confined piece pos)
                 (imap (λ pos piece, (pos, piece)) INITIAL_BOARD)) as Hall.
  { apply (bool_decide_unpack _). vm_compute. exact I. }
  intros pos piece Hcell.
  apply (proj1 (Forall_forall _ _) Hall (pos, piece)).
  apply elem_of_lookup_imap. by exists pos, piece.
Qed.

(** X15: the pieces stay where the rules bind them.  In every session the
    engine can reach, kings and advisors stand inside the palace of their
    side, no elephant has crossed the river, and no soldier stands behind
    the rank it started from. *)
Theorem pieces_stay_confined g pos piece :
  reachable g → board g !! pos = Some piece → confined piece pos.
Proof. intros [_ Hcells]%reachable_placed_right. apply Hcells. Qed.

Lemma pieces_stay_confined_witness : confined B_HORSE 65 ∧ confined R_KING 4.
Proof.
  split.
  - apply (pieces_stay_confined cannon_game 65 B_HORSE cannon_game_reachable).
    vm_compute. reflexivity.
  - apply (pieces_stay_confined cannon_game 4 R_KING cannon_game_reachable).
    vm_compute. reflexivity.
Defined.

End XiangqiInvariants.

(* ================================================================== *)
(** * Invariants of the flip-and-capture engine *)

Module JunqiInvariants.
Import Junqi JunqiFacts.

(** ** Counting pieces *)

(** The number of cells of [b] that hold a piece with property [f]. *)
Definition tally (f : Piece → bool) (b : list (option Piece)) : nat :=
  length (filter (λ c, from_option f false c = true) b).

Definition weight (f : Piece → bool) (c : option Piece) : nat :=
  if from_option f false c then 1 else 0.

Lemma tally_cons f c b : tally f (c :: b) = weight f c + tally f b.
Proof.
  unfold tally, weight. rewrite filter_cons.
  destruct (from_option f false c); by case_decide.
Qed.

Lemma tally_insert f b i y old :
  b !! i = Some old →
  tally f (<[i := y]> b) + weight f old = tally f b + weight f y.
Proof.
  revert i. induction b as [|c b IH]; intros i Hi; [done|].
  destruct i as [|i].
  - injection Hi as ->. change (<[0 := y]> (old :: b)) with (y :: b).
    rewrite !tally_cons. lia.
  - change (<[S i := y]> (c :: b)) with (c :: <[i := y]> b).
    rewrite !tally_cons. specialize (IH i Hi). lia.
Qed.

Lemma tally_replicate f N : tally f (replicate N None) = 0.
Proof. induction N as [|N IH]; [done|]. cbn [replicate]. by rewrite tally_cons, IH. Qed.

(** ** The board of a fresh session *)

Lemma init_board_snoc rows cols pieces piece positions :
  _init_board rows cols (pieces ++ [piece]) positions
  = match positions !! length pieces with
    | Some pos => <[pos := Some piece]> (_init_board rows cols pieces positions)
    | None => _init_board rows cols pieces positions
    end.
Proof.
  unfold _init_board. rewrite imap_app, foldl_app. cbn [imap foldl].
  by rewrite Nat.add_0_r.
Qed.

Lemma init_board_free rows cols pieces positions pos :
  pos < rows * cols →
  (∀ j, j < length pieces → positions !! j ≠ Some pos) →
  _init_board rows cols pieces positions !! pos = Some None.
Proof.
  intros Hpos. induction pieces as [|piece pieces IH] using rev_ind; intros Hfree.
  - unfold _init_board. cbn. by apply lookup_replicate.
  - rewrite init_board_snoc. rewrite length_app in Hfree. cbn [length] in Hfree.
    assert (_init_board rows cols pieces positions !! pos = Some None) as Hcell
      by (apply IH; intros j Hj; apply Hfree; lia).
    destruct (positions !! length pieces) as [pos'|] eqn:Hk; [|done].
    rewrite list_lookup_insert_ne; [done|].
    intros ->. apply (Hfree (length pieces)); [lia|done].
Qed.

Lemma init_board_tally f rows cols pieces positions :
  NoDup positions → length pieces ≤ length positions →
  (∀ pos, pos ∈ positions → pos < rows * cols) →
  tally f (_init_board rows cols pieces positions)
  = length (filter (λ piece, f piece = true) pieces).
Proof.
  intros Hnd Hlen Hin. induction pieces as [|piece pieces IH] using rev_ind.
  - unfold _init_board. cbn [imap foldl]. apply tally_replicate.
  - rewrite length_app in Hlen. cbn [length] in Hlen.
    rewrite init_board_snoc, filter_app, length_app.
    destruct (lookup_lt_is_Some_2 positions (length pieces) ltac:(lia)) as [pos Hk].
    rewrite Hk.
    pose proof (tally_insert f (_init_board rows cols pieces positions) pos
                  (Some piece) None) as Hins.
    rewrite <- IH by lia. unfold weight in Hins. cbn [from_option] in Hins.
    rewrite filter_cons, filter_nil.
    rewrite Nat.add_0_r in Hins. rewrite Hins.
    + destruct (f piece); by case_decide.
    + apply init_board_free.
      * apply Hin. by eapply list_elem_of_lookup_2.
      * intros j Hj Hpj.
        pose proof (NoDup_lookup _ _ _ _ Hnd Hpj Hk). lia.
Qed.

Lemma created_tally g f :
  created g → tally f (board g) = length (filter (λ piece, f piece = true) fresh_pieces).
Proof.
  intros (p & pieces & positions & Hpieces & Hpositions & ->).
  cbn [new_game board]. rewrite init_board_tally.
  - by rewrite Hpieces.
  - rewrite Hpositions. apply NoDup_seq.
  - rewrite Hpieces, Hpositions. rewrite length_seq. vm_compute. lia.
  - intros pos Hpos. rewrite Hpositions in Hpos. apply elem_of_seq in Hpos. lia.
Qed.

(** The entry of [PIECE_COUNT] for a kind, nought for a kind it does not
    list. *)
Definition per_side (t : PieceType) : nat :=
  from_option (λ e, e.2.2) 0 (list_find (λ e, e.1 = t) PIECE_COUNT).

(** X16: the board of a fresh session.  Whatever the two shuffles give,
    the sixty cells hold the fifty pieces of [PIECE_COUNT], each once:
    for every kind and side as many as the table says, twenty-five of
    either side, one flag each, all of them face down, and ten cells are
    empty. *)
Theorem fresh_board_census g :
  created g →
  length (board g) = 60 ∧
  (∀ t s, tally (λ piece, bool_decide (piece_type piece = t ∧ side piece = s)) (board g)
          = if decide (s = RED ∨ s = BLUE) then per_side t else 0) ∧
  tally (λ piece, bool_decide (side piece = RED)) (board g) = 25 ∧
  tally (λ piece, bool_decide (side piece = BLUE)) (board g) = 25 ∧
  tally revealed (board g) = 0 ∧
  length (filter (λ c, c = None) (board g)) = 10.
Proof.
  intros Hg. pose proof (created_wf g Hg) as [_ _ Hlen _ _ _ _ _].
  split; [done|]. split; [|split; [|split; [|split]]].
  - intros t s. rewrite created_tally by done. destruct t, s; vm_compute; reflexivity.
  - rewrite created_tally by done. vm_compute. reflexivity.
  - rewrite created_tally by done. vm_compute. reflexivity.
  - rewrite created_tally by done. vm_compute. reflexivity.
  - pose proof (created_tally g (λ _, true) Hg) as Hall.
    replace (length (filter (λ piece, (λ _ : Piece, true) piece = true) fresh_pieces))
      with 50 in Hall by (vm_compute; reflexivity).
    assert (∀ b : list (option Piece),
              length (filter (λ c, c = None) b) + tally (λ _, true) b = length b) as Hsplit.
    { clear. induction b as [|c b IH]; [done|].
      rewrite tally_cons, filter_cons. cbn [length].
      destruct c; unfold weight; cbn [from_option]; case_decide; try done;
        cbn [length]; lia. }
    specialize (Hsplit (board g)). lia.
Qed.

Lemma fresh_board_census_witness :
  length (board sample_game) = 60 ∧
  tally revealed (board sample_game) = 0 ∧
  length (filter (λ c, c = None) (board sample_game)) = 10.
Proof.
  destruct (fresh_board_census sample_game sample_game_created)
    as (Hlen & _ & _ & _ & Hhidden & Hempty).
  done.
Defined.


(** ** The flags *)

Definition flag_of (s : Side) (piece : Piece) : bool :=
  bool_decide (piece_type piece = FLAG ∧ side piece = s).

Lemma battle_lose_no_flag attacker defender :
  _battle attacker defender = "lose" → piece_type defender ≠ FLAG.
Proof. unfold _battle. intros H Hflag. rewrite Hflag in H. by repeat case_decide. Qed.

(** A move takes a flag of side [s] off the board exactly when its target
    is one. *)
Lemma moved_board_flags s b from_pos to_pos piece target :
  from_pos ≠ to_pos →
  b !! from_pos = Some (Some piece) → b !! to_pos = Some target →
  piece_type piece ≠ FLAG →
  tally (flag_of s) (moved_board b from_pos to_pos piece target)
  + weight (flag_of s) target = tally (flag_of s) b.
Proof.
  intros Hne Hfrom Hto Hpiece.
  assert (weight (flag_of s) (Some piece) = 0) as Hw.
  { unfold weight, flag_of. cbn [from_option]. rewrite bool_decide_eq_false_2; [done|].
    by intros [? _]. }
  assert (weight (flag_of s) None = 0) as Hw0 by done.
  unfold moved_board. destruct target as [t|].
  - case_decide as Hwin; [|case_decide as Hlose].
    + pose proof (tally_insert (flag_of s) b to_pos (Some piece) _ Hto) as H1.
      pose proof (tally_insert (flag_of s) (<[to_pos := Some piece]> b) from_pos None
                    (Some piece)) as H2.
      rewrite list_lookup_insert_ne in H2 by done. specialize (H2 Hfrom). lia.
    + pose proof (tally_insert (flag_of s) b from_pos None _ Hfrom) as H1.
      assert (weight (flag_of s) (Some t) = 0) as Ht.
      { unfold weight, flag_of. cbn [from_option].
        rewrite bool_decide_eq_false_2; [done|].
        intros [? _]. by eapply battle_lose_no_flag. }
      lia.
    + pose proof (tally_insert (flag_of s) b from_pos None _ Hfrom) as H1.
      pose proof (tally_insert (flag_of s) (<[from_pos := None]> b) to_pos None
                    (Some t)) as H2.
      rewrite list_lookup_insert_ne in H2 by done. specialize (H2 Hto). lia.
  - pose proof (tally_insert (flag_of s) b to_pos (Some piece) _ Hto) as H1.
    pose proof (tally_insert (flag_of s) (<[to_pos := Some piece]> b) from_pos None
                  (Some piece)) as H2.
    rewrite list_lookup_insert_ne in H2 by done. specialize (H2 Hfrom). lia.
Qed.

Record flags_tracked (g : JunqiGame) : Prop := FlagsTracked {
  ft_red : tally (flag_of RED) (board g) = if red_flag_captured g then 0 else 1;
  ft_blue : tally (flag_of BLUE) (board g) = if blue_flag_captured g then 0 else 1
}.

Lemma cell_board g pos :
  (Z.to_nat pos < length (board g)) → board g !! Z.to_nat pos = Some (cell g pos).
Proof.
  intros Hlt. unfold cell. by destruct (lookup_lt_is_Some_2 _ _ Hlt) as [c ->].
Qed.

Lemma valid_pos_lt g pos :
  wf g → valid_pos g pos = true → Z.to_nat pos < length (board g).
Proof.
  intros [Hr Hc Hlen _ _ _ _ _]. unfold valid_pos. rewrite Hr, Hc, Hlen.
  intros H%bool_decide_eq_true. lia.
Qed.

Lemma flags_tracked_step g o : wf g → flags_tracked g → flags_tracked (apply_op g o).
Proof.
  intros Hwf [Hred Hblue]. destruct o as [p|p pos|p from_pos to_pos|p]; cbn [apply_op].
  - unfold join. repeat case_decide; cbn [snd]; try done. by destruct g.
  - destruct (flip_inv g p pos) as [[_ ->]|(_ & _ & _ & _ & Hvalid & Hflip)]; [done|].
    destruct Hflip as (piece & action & Hcell%cell_lookup & _ & ->).
    unfold flipped. split; jq_fields.
    + pose proof (tally_insert (flag_of RED) (board g) (Z.to_nat pos)
                    (Some (mkPiece (piece_type piece) (side piece) true)) _ Hcell) as H.
      change (weight (flag_of RED) (Some (mkPiece (piece_type piece) (side piece) true)))
        with (weight (flag_of RED) (Some piece)) in H.
      lia.
    + pose proof (tally_insert (flag_of BLUE) (board g) (Z.to_nat pos)
                    (Some (mkPiece (piece_type piece) (side piece) true)) _ Hcell) as H.
      change (weight (flag_of BLUE) (Some (mkPiece (piece_type piece) (side piece) true)))
        with (weight (flag_of BLUE) (Some piece)) in H.
      lia.
  - destruct (move_inv g p from_pos to_pos)
      as [[_ ->]|(_ & Hfin & _ & _ & _ & Hfrom & Hto & Hmove)]; [done|].
    destruct Hmove as (piece & action & Hpiece & Hrev & Hown & _ & Hnf & _ & Htarget & ->).
    apply valid_pos_lt in Hfrom, Hto; [|done..].
    apply cell_lookup in Hpiece as Hcell. apply cell_board in Hto as Hcell'.
    assert (Z.to_nat from_pos ≠ Z.to_nat to_pos) as Hne.
    { intros Heq. rewrite Heq, Hcell' in Hcell. injection Hcell as Ht.
      by destruct (Htarget piece Ht) as [_ Hfoe]. }
    pose proof (wf_flags g Hwf Hfin) as [Hr Hb]. rewrite Hr in Hred. rewrite Hb in Hblue.
    pose proof (moved_board_flags RED _ _ _ piece _ Hne Hcell Hcell' Hnf) as HR.
    pose proof (moved_board_flags BLUE _ _ _ piece _ Hne Hcell Hcell' Hnf) as HB.
    unfold moved. split; jq_fields; rewrite ?Hr, ?Hb.
    + destruct (cell g to_pos) as [t|]; unfold weight in HR;
        cbn [from_option] in HR; [|lia].
      unfold flag_of at 2 in HR.
      case_bool_decide; [rewrite decide_True by done|rewrite decide_False by done]; lia.
    + destruct (cell g to_pos) as [t|] eqn:Ht; unfold weight in HB;
        cbn [from_option] in HB; [|lia].
      unfold flag_of at 2 in HB.
      assert (coloured (side t)) as Hcol by (eapply (wf_sides g Hwf); by rewrite Hcell').
      case_bool_decide as Hflag.
      * rewrite decide_True; [lia|]. destruct Hflag as [? ->]. done.
      * rewrite decide_False; [lia|]. intros [? Hs]. apply Hflag. split; [done|].
        by destruct Hcol.
  - unfold surrender. destruct (is_finished g); [done|].
    repeat case_decide; try done; by destruct g.
Qed.

Lemma reachable_flags_tracked g : reachable g → flags_tracked g.
Proof.
  induction 1 as [g Hg|g o Hg IH];
    [|apply flags_tracked_step; [by apply junqi_reachable_wf|done]].
  assert (red_flag_captured g = false ∧ blue_flag_captured g = false) as [Hr Hb]
    by (by destruct Hg as (? & ? & ? & _ & _ & ->)).
  split; rewrite ?Hr, ?Hb, created_tally by done; vm_compute; reflexivity.
Qed.

(** X17: the flags and the two capture marks go together.  In every
    session the engine can reach, the board holds exactly one flag of a
    side as long as that side's flag is not marked captured, and none once
    it is; while the game goes on, both flags are on the board. *)
Theorem flags_on_board g :
  reachable g →
  tally (flag_of RED) (board g) = (if red_flag_captured g then 0 else 1) ∧
  tally (flag_of BLUE) (board g) = (if blue_flag_captured g then 0 else 1) ∧
  (is_finished g = false →
   tally (flag_of RED) (board g) = 1 ∧ tally (flag_of BLUE) (board g) = 1).
Proof.
  intros Hg. destruct (reachable_flags_tracked g Hg) as [Hred Hblue].
  split; [done|]. split; [done|]. intros Hfin.
  destruct (wf_flags g (junqi_reachable_wf g Hg) Hfin) as [Hr Hb].
  by rewrite Hred, Hblue, Hr, Hb.
Qed.

Lemma flags_on_board_witness :
  tally (flag_of RED) (board sample_revealed) = 1 ∧
  tally (flag_of BLUE) (board sample_revealed) = 1.
Proof.
  destruct (flags_on_board sample_revealed sample_revealed_reachable) as (_ & _ & Hopen).
  apply Hopen. vm_compute. reflexivity.
Defined.


(** ** Face-down pieces *)

(** X18: a face-down piece is out of play.  Whatever one operation does,
    a cell that holds a face-down piece holds the same piece afterwards,
    face down as before or turned over by that operation; it is neither
    moved nor captured nor replaced. *)
Theorem hidden_piece_stays g o i piece :
  board g !! i = Some (Some piece) → revealed piece = false →
  board (apply_op g o) !! i = Some (Some piece) ∨
  board (apply_op g o) !! i
  = Some (Some (mkPiece (piece_type piece) (side piece) true)).
Proof.
  intros Hcell Hhidden. destruct o as [p|p pos|p from_pos to_pos|p]; cbn [apply_op].
  - left. unfold join. repeat case_decide; cbn [snd]; try done. by destruct g.
  - destruct (flip_inv g p pos) as [[_ ->]|(_ & _ & _ & _ & _ & Hflip)]; [by left|].
    destruct Hflip as (q & action & Hq%cell_lookup & _ & ->).
    unfold flipped. jq_fields.
    destruct (decide (i = Z.to_nat pos)) as [->|Hne].
    + right. rewrite list_lookup_insert_eq by (by eapply lookup_lt_Some).
      rewrite Hq in Hcell. by injection Hcell as ->.
    + left. by rewrite list_lookup_insert_ne.
  - destruct (move_inv g p from_pos to_pos)
      as [[_ ->]|(_ & _ & _ & _ & _ & _ & _ & Hmove)]; [by left|].
    destruct Hmove as (q & action & Hq%cell_lookup & Hrev & _ & _ & _ & _ & Htarget & ->).
    left. unfold moved. jq_fields.
    assert (i ≠ Z.to_nat from_pos) as Hnf.
    { intros ->. rewrite Hq in Hcell. injection Hcell as ->. congruence. }
    assert (i ≠ Z.to_nat to_pos) as Hnt.
    { intros ->. assert (cell g to_pos = Some piece) as Ht
        by (unfold cell; by rewrite Hcell).
      destruct (Htarget piece Ht) as [? _]. congruence. }
    unfold moved_board. repeat case_match; by rewrite !list_lookup_insert_ne.
  - left. unfold surrender. destruct (is_finished g); [done|].
    repeat case_decide; try done; by destruct g.
Qed.

Lemma hidden_piece_stays_witness :
  board (apply_op sample_revealed (OpMove "alice" 7 8)) !! 0
  = board sample_revealed !! 0.
Proof.
  destruct (hidden_piece_stays sample_revealed (OpMove "alice" 7 8) 0
              (mkPiece FLAG RED false)) as [H|H];
    [vm_compute; reflexivity|reflexivity|rewrite H; vm_compute; reflexivity|].
  vm_compute in H. discriminate H.
Defined.

(** ** Whose turn it is *)

Record paced (g : JunqiGame) : Prop := Paced {
  paced_count : (0 ≤ move_count g)%Z;
  paced_turn : current_turn g = if Z.even (move_count g) then 1%Z else 2%Z
}.

Lemma paced_next (n t : Z) :
  (0 ≤ n)%Z → t = (if Z.even n then 1 else 2)%Z →
  (0 ≤ n + 1)%Z ∧
  (if decide (t = 1)%Z then 2 else 1)%Z = (if Z.even (n + 1) then 1 else 2)%Z.
Proof.
  intros Hn ->. split; [lia|].
  rewrite Z.add_1_r, Z.even_succ, <- Z.negb_even.
  by destruct (Z.even n).
Qed.

Lemma paced_step g o : paced g → paced (apply_op g o).
Proof.
  intros [Hcount Hturn].
  destruct o as [p|p pos|p from_pos to_pos|p]; cbn [apply_op].
  - unfold join. repeat case_decide; cbn [snd]; try done.
    destruct g; split; jq_fields; done.
  - destruct (paced_next _ _ Hcount Hturn) as [Hc' Ht'].
    destruct (flip_inv g p pos) as [[_ ->]|(_ & _ & _ & _ & _ & Hflip)]; [done|].
    destruct Hflip as (q & action & _ & _ & ->). split; unfold flipped; jq_fields; done.
  - destruct (paced_next _ _ Hcount Hturn) as [Hc' Ht'].
    destruct (move_inv g p from_pos to_pos)
      as [[_ ->]|(_ & _ & _ & _ & _ & _ & _ & Hmove)]; [done|].
    destruct Hmove as (q & action & _ & _ & _ & _ & _ & _ & _ & ->).
    split; unfold moved; jq_fields; done.
  - unfold surrender. destruct (is_finished g); [done|].
    repeat case_decide; try done; destruct g; split; jq_fields; done.
Qed.

Lemma reachable_paced g : reachable g → paced g.
Proof.
  induction 1 as [g Hg|g o Hg IH]; [|by apply paced_step].
  destruct Hg as (? & ? & ? & _ & _ & ->). by split.
Qed.

(** X19: the players take turns strictly.  [move_count] counts the flips
    and moves the engine has accepted, and in every session it can reach
    player A is to act after an even number of them and player B after an
    odd number, also after the move that ends the game. *)
Theorem turns_alternate g :
  reachable g →
  (0 ≤ move_count g)%Z ∧
  current_turn g = (if Z.even (move_count g) then 1 else 2)%Z.
Proof. intros Hg. by destruct (reachable_paced g Hg). Qed.

Lemma turns_alternate_witness :
  move_count sample_revealed = 2%Z ∧ current_turn sample_revealed = 1%Z.
Proof.
  destruct (turns_alternate sample_revealed sample_revealed_reachable) as [_ Hturn].
  split; [vm_compute; reflexivity|exact Hturn].
Defined.

(** ** The fight *)

(** X20: away from mines and flags the fight does not depend on who
    attacks.  For two pieces that are neither a mine nor a flag, the
    attacker wins exactly when it would lose as the defender, and the
    fight kills both exactly when one of them is a bomb or the two have
    the same rank. *)
Theorem battle_is_fair attacker defender :
  piece_type attacker ∉ [MINE; FLAG] → piece_type defender ∉ [MINE; FLAG] →
  (_battle attacker defender = "win" ↔ _battle defender attacker = "lose") ∧
  (_battle attacker defender = "lose" ↔ _battle defender attacker = "win") ∧
  (_battle attacker defender = "draw" ↔
   piece_type attacker = BOMB ∨ piece_type defender = BOMB ∨
   get_rank attacker = get_rank defender).
Proof.
  destruct attacker as [ta sa ra], defender as [td sd rd].
  unfold _battle, get_rank. cbn [piece_type].
  intros Ha Hd.
  destruct ta; try (destruct Ha; set_solver);
    destruct td; try (destruct Hd; set_solver);
    vm_compute; intuition congruence.
Qed.

Lemma battle_is_fair_witness :
  _battle (mkPiece GENERAL RED true) (mkPiece COMPANY BLUE true) = "win" ∧
  _battle (mkPiece COMPANY BLUE true) (mkPiece GENERAL RED true) = "lose".
Proof.
  split; [vm_compute; reflexivity|].
  apply (battle_is_fair (mkPiece GENERAL RED true) (mkPiece COMPANY BLUE true));
    [set_solver|set_solver|vm_compute; reflexivity].
Defined.

(** ** What the rendering is given *)

(** A board with its face-down pieces made anonymous. *)
Definition conceal (c : option Piece) : option Piece :=
  match c with
  | Some piece => if revealed piece then c else Some (mkPiece EMPTY NONE false)
  | None => None
  end.

Lemma render_cell_conceal c : render_cell (conceal c) = render_cell c.
Proof. destruct c as [[t s []]|]; done. Qed.

(** X21: the data handed to the renderer say nothing about face-down
    pieces.  Two sessions with boards of the same size that agree once
    their face-down pieces are made anonymous give the same list, whoever
    the viewers are; the list has one entry for each cell. *)
Theorem render_hides_face_down g g' viewer viewer' :
  ROWS g = ROWS g' → COLS g = COLS g' →
  conceal <$> board g = conceal <$> board g' →
  get_board_for_render g viewer = get_board_for_render g' viewer' ∧
  length (get_board_for_render g viewer) = ROWS g * COLS g.
Proof.
  intros Hr Hc Hb. unfold get_board_for_render. cbv zeta. rewrite <- Hr, <- Hc.
  split; [|by rewrite length_fmap, length_seq].
  apply list_fmap_ext. intros _ pos _.
  rewrite <- (render_cell_conceal (default None (board g !! pos))).
  rewrite <- (render_cell_conceal (default None (board g' !! pos))).
  f_equal.
  assert (∀ b : list (option Piece),
            conceal (default None (b !! pos)) = default None ((conceal <$> b) !! pos))
    as Hpos by (intros b; rewrite list_lookup_fmap; by destruct (b !! pos)).
  by rewrite !Hpos, Hb.
Qed.

(** The sample session with the red and the blue flag exchanged. *)
Definition sample_swapped : JunqiGame :=
  set_board (<[0 := Some (mkPiece FLAG BLUE false)]>
               (<[1 := board sample_game !! 0 ≫= id]> (board sample_joined)))
            sample_joined.

Lemma render_hides_face_down_witness :
  get_board_for_render sample_joined (Some "alice")
  = get_board_for_render sample_swapped (Some "bob").
Proof.
  apply (render_hides_face_down sample_joined sample_swapped (Some "alice") (Some "bob"));
    vm_compute; reflexivity.
Defined.

End JunqiInvariants.

(* ================================================================== *)
(** * Invariants of the gomoku engine *)

Module GomokuInvariants.
Import Gomoku GomokuFacts.

(** ** Counting the stones *)

(** The number of cells of [b] that hold colour [c]. *)
Definition stones (b : list Stone) (c : Stone) : nat :=
  length (filter (λ cell, cell = c) b).

Definition full (b : list Stone) : Prop := ∀ cell, cell ∈ b → cell ≠ EMPTY.

Lemma stones_insert b i c colour :
  b !! i = Some EMPTY → colour ≠ EMPTY →
  stones (<[i := c]> b) colour = stones b colour + (if decide (c = colour) then 1 else 0).
Proof.
  unfold stones. revert i. induction b as [|a b IH]; intros i Hi Hc; [done|].
  destruct i as [|i].
  - injection Hi as ->. change (<[0 := c]> (EMPTY :: b)) with (c :: b).
    rewrite !filter_cons. rewrite (decide_False (P := EMPTY = colour)) by done.
    case_decide; cbn [length]; lia.
  - change (<[S i := c]> (a :: b)) with (a :: <[i := c]> b).
    rewrite !filter_cons. specialize (IH i Hi Hc).
    destruct (decide (a = colour)); cbn [length]; lia.
Qed.

Lemma stones_total b :
  stones b EMPTY + stones b BLACK + stones b WHITE = length b.
Proof.
  unfold stones. induction b as [|a b IH]; [done|].
  rewrite !filter_cons. cbn [length].
  destruct a; repeat case_decide; try done; cbn [length]; lia.
Qed.

Lemma stones_full b : stones b EMPTY = 0 ↔ full b.
Proof.
  unfold stones, full. induction b as [|a b IH].
  - split; [|done]. by intros _ cell ?%elem_of_nil.
  - rewrite filter_cons. case_decide as Ha.
    + split; [done|]. intros H. exfalso. apply (H a); [by left|done].
    + rewrite IH. split.
      * intros H cell [->|?]%elem_of_cons; [done|by apply H].
      * intros H cell ?. apply H. by right.
Qed.

(** What an accepted move does to the count of moves, and when it ends the
    game without a line. *)
Lemma gomoku_move_counted g p x y :
  ok (make_move g p x y) = true →
  let r := make_move g p x y in
  let pos := _xy_to_pos (board_size g) x y in
  move_count (after r) = (move_count g + 1)%Z ∧ last_move (after r) = Some pos ∧
  (_check_win (<[pos := current_turn g]> (board g)) (board_size g) pos = None →
   (is_finished (after r) = true ↔
    (Z.of_nat (board_size g * board_size g) ≤ move_count g + 1)%Z)).
Proof.
  destruct g as [n pb pw bd ct mc lm fin win wl]. unfold make_move. gm_fields.
  destruct fin; [done|].
  do 3 (case_decide; [done|]).
  destruct (in_range n x y) eqn:Hrange; cbn [negb]; [|done].
  case_decide as Hfree; [done|]. intros _.
  destruct (_check_win (<[_xy_to_pos n x y := ct]> bd) n (_xy_to_pos n x y)).
  - gm_fields. done.
  - case_decide; gm_fields; (split; [done|]); (split; [done|]); intros _; split;
      try done; lia.
Qed.

Record counted (g : GomokuGame) : Prop := Counted {
  counted_moves : move_count g = Z.of_nat (stones (board g) BLACK + stones (board g) WHITE);
  counted_balance : stones (board g) WHITE ≤ stones (board g) BLACK
                    ≤ stones (board g) WHITE + 1;
  counted_turn : is_finished g = false →
                 (current_turn g = BLACK → stones (board g) BLACK = stones (board g) WHITE) ∧
                 (current_turn g = WHITE →
                  stones (board g) BLACK = stones (board g) WHITE + 1)
}.

Lemma counted_step g o : wf g → counted g → counted (apply_op g o).
Proof.
  intros Hwf Hc. pose proof Hc as [Hmoves Hbal Hturn].
  destruct o as [p|p x y|p]; cbn [apply_op].
  - unfold join. repeat case_decide; cbn [snd]; try done.
    destruct g; split; gm_fields; done.
  - destruct (ok (make_move g p x y)) eqn:Hok.
    2: { destruct (gomoku_make_move_inv g p x y) as [[_ ->]|[? _]]; [done|congruence]. }
    destruct (gomoku_move_counted g p x y Hok) as (Hmc & _ & _).
    destruct (gomoku_make_move_inv g p x y)
      as [[Hno _]|(_ & Hfin & _ & Hfree & Hb & _ & Hres)]; [congruence|].
    destruct Hwf as [_ Hcol _]. destruct (Hturn Hfin) as [HtB HtW].
    pose proof (stones_insert (board g) (_xy_to_pos (board_size g) x y) (current_turn g)
                  BLACK Hfree ltac:(done)) as HnB.
    pose proof (stones_insert (board g) (_xy_to_pos (board_size g) x y) (current_turn g)
                  WHITE Hfree ltac:(done)) as HnW.
    assert (stones (board (after (make_move g p x y))) BLACK
            = stones (board g) BLACK + (if decide (current_turn g = BLACK) then 1 else 0) ∧
            stones (board (after (make_move g p x y))) WHITE
            = stones (board g) WHITE + (if decide (current_turn g = WHITE) then 1 else 0))
      as [HB HW] by (by rewrite Hb).
    clear HnB HnW.
    split.
    + rewrite Hmc, HB, HW, Hmoves.
      destruct Hcol as [Ht|Ht]; rewrite Ht; repeat case_decide; try done; lia.
    + rewrite HB, HW.
      destruct Hcol as [Ht|Ht]; rewrite Ht in *;
        [specialize (HtB eq_refl)|specialize (HtW eq_refl)];
        repeat case_decide; try done; lia.
    + intros Hfin'. rewrite HB, HW.
      assert (current_turn (after (make_move g p x y)) = other (current_turn g)) as ->.
      { destruct (_check_win _ _ _); [destruct Hres as (? & _); congruence|].
        destruct Hres as (_ & _ & Hgo & _). by apply Hgo. }
      destruct Hcol as [Ht|Ht]; rewrite Ht in *;
        [specialize (HtB eq_refl)|specialize (HtW eq_refl)];
        unfold other; repeat case_decide; try done;
        split; intros ?; try done; lia.
  - unfold surrender. destruct (is_finished g); [done|].
    repeat case_decide; try done; destruct g; split; gm_fields; done.
Qed.

Lemma reachable_counted g : reachable g → counted g.
Proof.
  induction 1 as [n p Hn|g o Hg IH];
    [|apply counted_step; [by apply gomoku_reachable_wf|done]].
  assert (∀ c, c ≠ EMPTY → stones (replicate (n * n) EMPTY) c = 0) as Hzero.
  { intros c Hc. unfold stones. generalize (n * n). intros N.
    induction N as [|N IH]; [done|]. cbn [replicate]. rewrite filter_cons.
    by rewrite decide_False. }
  split; unfold new_game; gm_fields; rewrite !Hzero by done; try done. lia.
Qed.

(** X22: in every session the engine can reach, [move_count] is the
    number of stones on the board; white never has more stones than black
    and black at most one more than white; and while the game goes on,
    black is to move exactly when both have the same number of stones. *)
Theorem gomoku_stones_counted g :
  reachable g →
  move_count g = Z.of_nat (stones (board g) BLACK + stones (board g) WHITE) ∧
  stones (board g) WHITE ≤ stones (board g) BLACK ≤ stones (board g) WHITE + 1 ∧
  (is_finished g = false →
   (current_turn g = BLACK ↔ stones (board g) BLACK = stones (board g) WHITE)).
Proof.
  intros Hg. destruct (reachable_counted g Hg) as [Hmoves Hbal Hturn].
  destruct (gomoku_reachable_wf g Hg) as [_ Hcol _].
  split; [done|]. split; [done|]. intros Hfin. destruct (Hturn Hfin) as [HB HW].
  split; [done|]. intros Heq. destruct Hcol as [?|Ht]; [done|]. specialize (HW Ht). lia.
Qed.

Lemma gomoku_stones_counted_witness :
  move_count six_game = Z.of_nat (stones (board six_game) BLACK + stones (board six_game) WHITE).
Proof. apply (gomoku_stones_counted six_game), six_game_reachable. Defined.

(** X23: a game without a line ends when the board is full, and only
    then.  When the engine accepts a move that makes no five in a row, the
    game goes on unless the stone has filled the last empty cell; then the
    game is over and nobody has won. *)
Theorem full_board_is_draw g p x y :
  reachable g →
  ok (make_move g p x y) = true →
  let g' := after (make_move g p x y) in
  ¬ five_through (board g') (board_size g) (current_turn g) x y →
  winner g' = None ∧ (is_finished g' = true ↔ full (board g')).
Proof.
  intros Hg Hok. cbv zeta.
  destruct (reachable_counted g Hg) as [Hmoves _ _].
  destruct (gomoku_reachable_wf g Hg) as [Hlen Hcol Hopen].
  destruct (gomoku_move_counted g p x y Hok) as (_ & _ & Hend).
  destruct (gomoku_make_move_inv g p x y)
    as [[Hno _]|(_ & Hfin & Hrange%in_range_bounds & Hfree & Hb & _ & Hres)];
    [congruence|].
  destruct Hrange as [Hx Hy].
  assert (current_turn g ≠ EMPTY) as Hne by (destruct Hcol; congruence).
  pose proof (placed_here (board g) (board_size g) (current_turn g) x y Hx Hy Hlen)
    as Hhere.
  pose proof (check_win_spec _ _ _ x y Hne Hhere) as Hcheck.
  rewrite Hb. intros Hnone.
  destruct (_check_win _ _ _) as [line|] eqn:Hwin.
  { destruct Hnone. destruct Hcheck as (d & Hd%directions_axes & Hfive & _). by exists d. }
  destruct Hres as (Hw & _).
  destruct (Hopen Hfin) as [Hwin' _]. split; [congruence|].
  rewrite (Hend eq_refl), <- stones_full.
  pose proof (stones_total (<[_xy_to_pos (board_size g) x y := current_turn g]> (board g)))
    as Htotal.
  rewrite length_insert, Hlen in Htotal.
  pose proof (stones_insert (board g) (_xy_to_pos (board_size g) x y) (current_turn g)
                BLACK Hfree ltac:(done)) as HnB.
  pose proof (stones_insert (board g) (_xy_to_pos (board_size g) x y) (current_turn g)
                WHITE Hfree ltac:(done)) as HnW.
  destruct Hcol as [Ht|Ht]; rewrite Ht in *; repeat case_decide; try done; lia.
Qed.

Lemma full_board_is_draw_witness :
  winner (after (make_move six_game "alice" 9 0)) = None ∧
  is_finished (after (make_move six_game "alice" 9 0)) = false.
Proof.
  assert (ok (make_move six_game "alice" 9 0) = true) as Hok by (vm_compute; reflexivity).
  destruct (full_board_is_draw six_game "alice" 9 0 six_game_reachable Hok) as [Hw Hiff].
  - assert (holds (board (after (make_move six_game "alice" 9 0))) (board_size six_game)
                  (current_turn six_game) 9 0) as Hhere
      by (unfold holds; apply (bool_decide_unpack _); vm_compute; exact I).
    assert (current_turn six_game ≠ EMPTY) as Hne by (vm_compute; congruence).
    pose proof (check_win_spec _ _ _ 9%Z 0%Z Hne Hhere) as Hcheck.
    assert (_check_win (board (after (make_move six_game "alice" 9 0)))
                       (board_size six_game) (_xy_to_pos (board_size six_game) 9 0)
            = None) as Hnone by (vm_compute; reflexivity).
    rewrite Hnone in Hcheck. exact Hcheck.
  - split; [exact Hw|]. vm_compute. reflexivity.
Defined.

End GomokuInvariants.

(* ================================================================== *)
(** * The count of the go engine *)

Module GoScoring.
Import Go GoFacts GoInvariants.

(** ** Regions of empty cells *)

(** Colour [s] borders the region of empty cells around [p]: a stone of
    colour [s] stands next to a cell of the region. *)
Definition borders_on (n : nat) (b : list Stone) (p : nat) (s : Stone) : Prop :=
  s ≠ EMPTY ∧
  ∃ m r, conn n b EMPTY p m ∧ r ∈ _get_neighbors n m ∧ b !! r = Some s.

(** The empty cell [p] is territory of colour [s]: its region is bordered
    by colour [s] and by no other colour. *)
Definition territory (n : nat) (b : list Stone) (s : Stone) (p : nat) : Prop :=
  b !! p = Some EMPTY ∧ borders_on n b p s ∧ ∀ s', borders_on n b p s' → s' = s.

Section region.
Context (n : nat) (b : list Stone) (Hn : 0 < n) (Hlen : length b = n * n).

(** The loop of [count_territory] over one region walks the board as the
    loop of [_find_group] does for the colour [EMPTY]; on the way it marks
    what it takes in as visited and collects the colours of the stones it
    meets. *)
Lemma region_loop_spec fuel region visited borders queue R V B :
  (∀ q, q ∈ region → b !! q = Some EMPTY) →
  region_loop fuel b n region visited borders queue = Some (R, V, B) →
  find_group_loop fuel b n EMPTY region queue = Some R ∧
  V = visited ∪ (R ∖ region) ∧
  ∀ s, s ∈ B ↔
       s ∈ borders ∨
       (s ≠ EMPTY ∧ ∃ t, b !! t = Some s ∧
                         (t ∈ queue ∨ ∃ m, m ∈ R ∧ m ∉ region ∧ t ∈ _get_neighbors n m)).
Proof.
  revert region visited borders queue.
  induction fuel as [|fuel IH]; intros region visited borders queue Hempty.
  - destruct queue as [|curr rest]; [|done]. cbn. intros [= <- <- <-].
    split; [done|]. split; [clear; set_solver|]. intros s. split; [by left|].
    intros [?|(_ & t & _ & [?%elem_of_nil|(m & ? & ? & _)])]; done.
  - destruct queue as [|curr rest].
    { cbn. intros [= <- <- <-].
      split; [done|]. split; [clear; set_solver|]. intros s. split; [by left|].
      intros [?|(_ & t & _ & [?%elem_of_nil|(m & ? & ? & _)])]; done. }
    cbn [region_loop find_group_loop]. case_decide as Hin; [|case_decide as Hcol].
    + intros (Hgroup & HV & HB)%IH; [|done]. split; [done|]. split; [done|].
      intros s. rewrite HB. split.
      * intros [?|(Hs & t & Ht & [?|?])]; [by left|right..];
          (split; [done|]); exists t; (split; [done|]); [left; by right|by right].
      * intros [?|(Hs & t & Ht & [[->|?]%elem_of_cons|?])]; [by left| |right..].
        -- rewrite (Hempty curr Hin) in Ht. congruence.
        -- split; [done|]. exists t. split; [done|]. by left.
        -- split; [done|]. exists t. split; [done|]. by right.
    + cbv zeta. intros Hloop.
      assert (∀ q, q ∈ region ∪ {[curr]} → b !! q = Some EMPTY) as Hempty'.
      { intros q [?| ->%elem_of_singleton]%elem_of_union; [by apply Hempty|done]. }
      apply IH in Hloop as (Hgroup & HV & HB); [|done].
      split; [done|].
      apply (find_group_loop_spec n b Hn Hlen) in Hgroup as Hspec.
      destruct Hspec as (Hsub & _).
      assert (curr ∈ R) as Hcur
        by (apply Hsub, elem_of_union; right; by apply elem_of_singleton).
      split.
      { rewrite HV. clear -Hcur Hin. apply set_eq. intros q.
        rewrite !elem_of_union, !elem_of_difference, elem_of_union, !elem_of_singleton.
        destruct (decide (q = curr)) as [->|?]; [|naive_solver]. naive_solver. }
      intros s. rewrite HB. split.
      * intros [?|(Hs & t & Ht & [Hq|(m & Hm & Hnm & Hnb)])]; [by left|right..];
          (split; [done|]); exists t; (split; [done|]).
        -- apply elem_of_app in Hq as [Hq|Hq]; [|left; by right].
           apply elem_of_reverse, list_elem_of_filter in Hq as [_ Hq].
           right. by exists curr.
        -- right. exists m. split; [done|]. split; [|done].
           intros ?. apply Hnm, elem_of_union. by left.
      * intros [?|(Hs & t & Ht & [[->|?]%elem_of_cons|(m & Hm & Hnm & Hnb)])];
          [by left| |right..].
        -- congruence.
        -- split; [done|]. exists t. split; [done|]. left. apply elem_of_app. by right.
        -- split; [done|]. exists t. split; [done|].
           destruct (decide (m = curr)) as [->|Hne].
           ++ left. apply elem_of_app. left. apply elem_of_reverse, list_elem_of_filter.
              split; [|done]. intros Ht'%Hempty'. congruence.
           ++ right. exists m. split; [done|]. split; [|done].
              intros [?| ?%elem_of_singleton]%elem_of_union; done.
    + intros Hloop.
      apply IH in Hloop as (Hgroup & HV & HB); [|done].
      split; [done|]. split; [done|].
      intros s. rewrite HB. split.
      * intros [Hs|(Hs & t & Ht & [?|?])].
        -- destruct (b !! curr) as [s0|] eqn:Hc; [|by left].
           apply elem_of_union in Hs as [?| ->%elem_of_singleton]; [by left|].
           right. split; [congruence|]. exists curr. split; [done|]. left. by left.
        -- right. split; [done|]. exists t. split; [done|]. left. by right.
        -- right. split; [done|]. exists t. split; [done|]. by right.
      * intros [?|(Hs & t & Ht & [[->|?]%elem_of_cons|?])].
        -- left. destruct (b !! curr); [apply elem_of_union; by left|done].
        -- left. rewrite Ht. apply elem_of_union. right. by apply elem_of_singleton.
        -- right. split; [done|]. exists t. split; [done|]. by left.
        -- right. split; [done|]. exists t. split; [done|]. by right.
Qed.

(** The loop over a region gives a result whenever the loop of
    [_find_group] does. *)
Lemma region_loop_ends fuel region visited borders queue :
  is_Some (find_group_loop fuel b n EMPTY region queue) →
  is_Some (region_loop fuel b n region visited borders queue).
Proof.
  revert region visited borders queue.
  induction fuel as [|fuel IH]; intros region visited borders queue.
  - destruct queue; [by eexists|]. by intros [? ?].
  - destruct queue as [|curr rest]; [by eexists|].
    cbn [region_loop find_group_loop]. repeat case_decide; apply IH.
Qed.

(** The region of an empty cell, as [count_territory] finds it. *)
Lemma region_found visited k :
  k < n * n → b !! k = Some EMPTY →
  ∃ R B, region_loop (flood_fuel n) b n ∅ visited ∅ [k] = Some (R, visited ∪ R, B) ∧
         (∀ q, q ∈ R ↔ conn n b EMPTY k q) ∧
         (∀ s, s ∈ B ↔ borders_on n b k s).
Proof.
  intros Hk Hcell.
  destruct (region_loop_ends (flood_fuel n) ∅ visited ∅ [k]) as [[[R V] B] Hloop].
  { apply (find_group_loop_ends n b Hn Hlen).
    - by intros q ->%list_elem_of_singleton.
    - rewrite difference_empty_L, size_set_seq. unfold flood_fuel. cbn [length]. lia. }
  apply region_loop_spec in Hloop as Hspec; [|by intros q ?%not_elem_of_empty].
  destruct Hspec as (Hgroup & -> & HB).
  apply (find_group_loop_spec n b Hn Hlen) in Hgroup as (_ & Hcheck & Hreach & Hclosed).
  assert (∀ q, q ∈ R ↔ conn n b EMPTY k q) as HR.
  { intros q. split.
    - intros Hq.
      destruct (Hreach q Hq (not_elem_of_empty q)) as (t & ->%list_elem_of_singleton & ?).
      done.
    - induction 1 as [Hp|q r Hpq IH Hr Hcr].
      + apply Hcheck; [by apply list_elem_of_singleton|done].
      + apply (Hclosed q r); [by apply IH|apply not_elem_of_empty|done..]. }
  exists R, B. split; [by rewrite difference_empty_L in Hloop|]. split; [done|].
  intros s. rewrite HB. unfold borders_on. split.
  - intros [?%not_elem_of_empty|(Hs & t & Ht & [->%list_elem_of_singleton|Hm])]; [done| |].
    + congruence.
    + destruct Hm as (m & Hm & _ & Hnb). split; [done|]. exists m, t.
      split; [by apply HR|done].
  - intros (Hs & m & r & Hm & Hr & Hc). right. split; [done|]. exists r. split; [done|].
    right. exists m. split; [by apply HR|]. split; [apply not_elem_of_empty|done].
Qed.

End region.


Section count.
Context (n : nat) (b : list Stone) (Hn : 0 < n) (Hlen : length b = n * n).

Lemma borders_conn p q s : conn n b EMPTY p q → borders_on n b p s → borders_on n b q s.
Proof.
  intros Hpq (Hs & m & r & Hm & Hr & Hc). split; [done|]. exists m, r.
  split; [|done]. apply conn_trans with p; [|done]. by apply (conn_sym n b Hn Hlen).
Qed.

Lemma territory_conn p q s : conn n b EMPTY p q → territory n b s p → territory n b s q.
Proof.
  intros Hpq (_ & Hs & Honly). split; [by eapply conn_end|].
  split; [by eapply borders_conn|].
  intros s' Hs'. apply Honly. eapply borders_conn; [|done].
  by apply (conn_sym n b Hn Hlen).
Qed.

(** The set of border colours is the singleton of [s] exactly when the
    region is territory of [s]. *)
Lemma single_border (B : gset Stone) k s :
  b !! k = Some EMPTY → (∀ s', s' ∈ B ↔ borders_on n b k s') →
  B = {[s]} ↔ territory n b s k.
Proof.
  intros Hk HB. split.
  - intros ->. split; [done|]. split.
    + apply HB. by apply elem_of_singleton.
    + intros s' Hs'%HB. by apply elem_of_singleton in Hs'.
  - intros (_ & Hs & Honly). apply set_eq. intros s'. rewrite elem_of_singleton, HB.
    split; [apply Honly|by intros ->].
Qed.

(** The state of the scan of [count_territory] before cell [k]: the cells
    marked visited are the empty cells joined to an empty cell below [k],
    and the two counts are the numbers of visited cells that are territory
    of black and of white. *)
Record scanned (k : nat) (visited : gset nat) (black white : nat) : Prop := Scanned {
  sc_visited : ∀ q, q ∈ visited ↔ ∃ p, p < k ∧ conn n b EMPTY p q;
  sc_black : ∃ T : gset nat,
      (∀ q, q ∈ T ↔ q ∈ visited ∧ territory n b BLACK q) ∧ black = size T;
  sc_white : ∃ T : gset nat,
      (∀ q, q ∈ T ↔ q ∈ visited ∧ territory n b WHITE q) ∧ white = size T
}.

(** Taking a new region [R] into the visited cells: the territory of
    colour [s] among them grows by [R] when the region is territory of
    [s], and stays as it is when it is not. *)
Lemma territory_grows (visited R T : gset nat) k s :
  (∀ q, q ∈ R ↔ conn n b EMPTY k q) → (∀ q, q ∈ R → q ∉ visited) →
  (∀ q, q ∈ T ↔ q ∈ visited ∧ territory n b s q) →
  (territory n b s k →
   ∃ T' : gset nat, (∀ q, q ∈ T' ↔ q ∈ visited ∪ R ∧ territory n b s q) ∧
                    size T + size R = size T') ∧
  (¬ territory n b s k →
   ∀ q, q ∈ T ↔ q ∈ visited ∪ R ∧ territory n b s q).
Proof.
  intros HR Hfresh HT. split.
  - intros Hk. exists (T ∪ R). split.
    + intros q. rewrite !elem_of_union, HT. split.
      * intros [[? ?]|Hq]; [by split; [left|]|]. split; [by right|].
        eapply territory_conn; [|done]. by apply HR.
      * intros [[?|?] ?]; [by left|by right].
    + rewrite size_union; [done|]. intros q [Hq _]%HT Hq'. by apply (Hfresh q).
  - intros Hk q. rewrite elem_of_union, HT. split; [intros [? ?]; by split; [left|]|].
    intros [[?|Hq] Hterr]; [done|]. destruct Hk.
    eapply territory_conn; [|done]. apply (conn_sym n b Hn Hlen). by apply HR.
Qed.

Lemma scanned_step k visited black white :
  k < n * n → scanned k visited black white →
  let '(visited', black', white') := territory_round b n (visited, black, white) k in
  scanned (S k) visited' black' white'.
Proof.
  intros Hk [Hvis (TB & HTB & Hblack) (TW & HTW & Hwhite)]. unfold territory_round.
  case_decide as Hskip.
  - split; [|by exists TB|by exists TW].
    intros q. rewrite Hvis. split.
    + intros (p & Hp & Hq). exists p. split; [lia|done].
    + intros (p & Hp & Hq). destruct (decide (p = k)) as [->|Hne].
      * destruct Hskip as [Hin|Hfull]; [|destruct Hfull; by eapply conn_start].
        apply Hvis in Hin as (p' & Hp' & Hk'). exists p'. split; [done|].
        by apply conn_trans with k.
      * exists p. split; [lia|done].
  - assert (k ∉ visited ∧ b !! k = Some EMPTY) as [Hnew Hcell].
    { split; [by intros ?; apply Hskip; left|].
      destruct (decide (b !! k = Some EMPTY)); [done|]. destruct Hskip. by right. }
    destruct (region_found n b Hn Hlen visited k Hk Hcell) as (R & B & -> & HR & HB).
    assert (∀ q, q ∈ R → q ∉ visited) as Hfresh.
    { intros q Hq%HR (p & Hp & Hpq)%Hvis. apply Hnew, Hvis. exists p. split; [done|].
      apply conn_trans with q; [done|]. by apply (conn_sym n b Hn Hlen). }
    assert (∀ q, q ∈ visited ∪ R ↔ ∃ p, p < S k ∧ conn n b EMPTY p q) as Hvis'.
    { intros q. rewrite elem_of_union, Hvis, HR. split.
      - intros [(p & Hp & Hq)|Hq]; [exists p; split; [lia|done]|exists k; split; [lia|done]].
      - intros (p & Hp & Hq). destruct (decide (p = k)) as [->|Hne]; [by right|].
        left. exists p. split; [lia|done]. }
    pose proof (single_border B k BLACK Hcell HB) as HsB.
    pose proof (single_border B k WHITE Hcell HB) as HsW.
    destruct (territory_grows visited R TB k BLACK HR Hfresh HTB) as [HgB HkB].
    destruct (territory_grows visited R TW k WHITE HR Hfresh HTW) as [HgW HkW].
    case_decide as HB1; [|case_decide as HB2].
    + assert (¬ territory n b WHITE k) as HnW.
      { intros (_ & _ & Honly).
        assert (BLACK = WHITE) by (apply Honly, HB; rewrite HB1; by apply elem_of_singleton).
        done. }
      destruct (HgB (proj1 HsB HB1)) as (T' & HT' & Hsize).
      split; [done|exists T'; split; [done|lia]|exists TW; split; [by apply HkW|done]].
    + assert (¬ territory n b BLACK k) as HnB by (by rewrite <- HsB).
      destruct (HgW (proj1 HsW HB2)) as (T' & HT' & Hsize).
      split; [done|exists TB; split; [by apply HkB|done]|exists T'; split; [done|lia]].
    + assert (¬ territory n b BLACK k) as HnB by (by rewrite <- HsB).
      assert (¬ territory n b WHITE k) as HnW by (by rewrite <- HsW).
      split; [done|exists TB; split; [by apply HkB|done]
                  |exists TW; split; [by apply HkW|done]].
Qed.

Lemma scanned_prefix k :
  k ≤ n * n →
  let '(visited, black, white) := foldl (territory_round b n) (∅, 0, 0) (seq 0 k) in
  scanned k visited black white.
Proof.
  induction k as [|k IH]; intros Hk.
  - cbn. split.
    + intros q. split; [by intros ?%not_elem_of_empty|]. intros (p & ? & _). lia.
    + exists ∅. split; [|done]. intros q. split; [by intros ?%not_elem_of_empty|].
      by intros [?%not_elem_of_empty _].
    + exists ∅. split; [|done]. intros q. split; [by intros ?%not_elem_of_empty|].
      by intros [?%not_elem_of_empty _].
  - rewrite seq_S, foldl_app. cbn [foldl Nat.add]. specialize (IH ltac:(lia)).
    destruct (foldl (territory_round b n) (∅, 0, 0) (seq 0 k)) as [[visited black] white].
    by apply scanned_step.
Qed.

End count.

(** The scan of [count_territory] over a whole board of the declared
    size. *)
Lemma count_territory_sets g :
  0 < board_size g → length (board g) = board_size g * board_size g →
  ∃ black white : gset nat,
    (∀ q, q ∈ black ↔ territory (board_size g) (board g) BLACK q) ∧
    (∀ q, q ∈ white ↔ territory (board_size g) (board g) WHITE q) ∧
    count_territory g
    = (float_of_nat (count_stones (board g) (board_size g) BLACK + size black),
       PrimFloat.add
         (float_of_nat (count_stones (board g) (board_size g) WHITE + size white))
         (komi g)).
Proof.
  intros Hn Hlen. unfold count_territory. cbv zeta.
  pose proof (scanned_prefix (board_size g) (board g) Hn Hlen
                (board_size g * board_size g) ltac:(lia)) as Hscan.
  destruct (foldl _ _ _) as [[visited black] white].
  destruct Hscan as [Hvis (TB & HTB & ->) (TW & HTW & ->)].
  assert (∀ s q, territory (board_size g) (board g) s q → q ∈ visited) as Hall.
  { intros s q (Hq & _). apply Hvis. exists q. split; [|by apply conn_here].
    rewrite <- Hlen. by eapply lookup_lt_Some. }
  exists TB, TW. split; [|split; [|done]].
  - intros q. rewrite HTB. split; [by intros [_ ?]|]. intros Hq. split; [|done].
    by eapply Hall.
  - intros q. rewrite HTW. split; [by intros [_ ?]|]. intros Hq. split; [|done].
    by eapply Hall.
Qed.

(** X26: what [count_territory] counts.  In every session the engine
    can reach, the score of black is the number of black stones plus the
    number of empty cells whose region is bordered by black stones only,
    and the score of white is the same for white plus [komi]; regions
    bordered by both colours, or by none, count for nobody. *)
Theorem territory_counted g :
  reachable g →
  let n := board_size g in
  let b := board g in
  ∃ black white : gset nat,
    (∀ q, q ∈ black ↔ territory n b BLACK q) ∧
    (∀ q, q ∈ white ↔ territory n b WHITE q) ∧
    count_territory g
    = (float_of_nat (count_stones b n BLACK + size black),
       PrimFloat.add (float_of_nat (count_stones b n WHITE + size white)) (komi g)).
Proof.
  intros [Hn Hlen _ _ _]%go_reachable_wf. cbv zeta. by apply count_territory_sets.
Qed.

Lemma territory_counted_witness :
  ∃ black white : gset nat,
    (∀ q, q ∈ black ↔ territory 9 (board corner_game) BLACK q) ∧
    (∀ q, q ∈ white ↔ territory 9 (board corner_game) WHITE q) ∧
    count_territory corner_game
    = (float_of_nat (count_stones (board corner_game) 9 BLACK + size black),
       PrimFloat.add (float_of_nat (count_stones (board corner_game) 9 WHITE + size white))
                     (komi corner_game)).
Proof. apply (territory_counted corner_game), corner_game_reachable. Defined.


(** ** Who wins the count *)

(** [float(z)] for an integer of machine size. *)
Definition area_float (z : Z) : float := PrimFloat.of_uint63 (Uint63.of_Z z).

(** The two comparisons of [_finish_with_score] for the areas [a] of black
    and [c] of white and a komi of six and a half: they say what the
    integers say. *)
Definition komi_check (a c : Z) : bool :=
  Bool.eqb (PrimFloat.ltb (PrimFloat.add (area_float c) 6.5%float) (area_float a))
           (Z.leb (c + 7) a) &&
  Bool.eqb (PrimFloat.ltb (area_float a) (PrimFloat.add (area_float c) 6.5%float))
           (Z.ltb a (c + 7)).

Fixpoint upto (k : nat) (z : Z) : list Z :=
  match k with O => [] | S k => z :: upto k (z + 1)%Z end.

Lemma upto_elem k z x : (z ≤ x < z + Z.of_nat k)%Z → x ∈ upto k z.
Proof.
  revert z. induction k as [|k IH]; intros z Hx; [lia|]. cbn [upto].
  destruct (decide (x = z)) as [->|Hne]; [by left|]. right. apply IH. lia.
Qed.

Lemma komi_table :
  forallb (λ a, forallb (komi_check a) (upto 362 0%Z)) (upto 362 0%Z) = true.
Proof. vm_compute. reflexivity. Qed.

Lemma komi_compare (a c : nat) :
  a ≤ 361 → c ≤ 361 →
  PrimFloat.ltb (PrimFloat.add (float_of_nat c) 6.5%float) (float_of_nat a)
  = bool_decide (c + 7 ≤ a) ∧
  PrimFloat.ltb (float_of_nat a) (PrimFloat.add (float_of_nat c) 6.5%float)
  = bool_decide (a < c + 7).
Proof.
  intros Ha Hc. pose proof komi_table as Htable.
  assert (∀ k, k ≤ 361 → In (Z.of_nat k) (upto 362 0%Z)) as Hin.
  { intros k Hk. apply list_elem_of_In, upto_elem. lia. }
  rewrite forallb_forall in Htable. specialize (Htable _ (Hin a Ha)).
  rewrite forallb_forall in Htable. specialize (Htable _ (Hin c Hc)).
  unfold komi_check in Htable. apply andb_true_iff in Htable as [H1 H2].
  apply Bool.eqb_prop in H1, H2. unfold float_of_nat. fold (area_float (Z.of_nat a)).
  fold (area_float (Z.of_nat c)). rewrite H1, H2. split.
  - destruct (Z.leb_spec (Z.of_nat c + 7) (Z.of_nat a)); symmetry;
      [apply bool_decide_eq_true|apply bool_decide_eq_false]; lia.
  - destruct (Z.ltb_spec (Z.of_nat a) (Z.of_nat c + 7)); symmetry;
      [apply bool_decide_eq_true|apply bool_decide_eq_false]; lia.
Qed.

(** The stones and the territories of the two colours are four sets of
    cells of the board, no two of which meet. *)
Lemma areas_fit n b (black white : gset nat) :
  (∀ q, q ∈ black ↔ territory n b BLACK q) →
  (∀ q, q ∈ white ↔ territory n b WHITE q) →
  length b = n * n →
  count_stones b n BLACK + size black + (count_stones b n WHITE + size white) ≤ n * n.
Proof.
  intros HB HW Hlen. rewrite !count_stones_cells.
  assert (cells b n BLACK ## black) as H1.
  { intros q [_ Hq]%elem_of_cells (Hq' & _)%HB. congruence. }
  assert (cells b n WHITE ## white) as H2.
  { intros q [_ Hq]%elem_of_cells (Hq' & _)%HW. congruence. }
  assert (cells b n BLACK ∪ black ## cells b n WHITE ∪ white) as H3.
  { intros q [[_ Hq]%elem_of_cells|Hq%HB]%elem_of_union
             [[_ Hq']%elem_of_cells|Hq'%HW]%elem_of_union.
    - congruence.
    - destruct Hq' as (? & _). congruence.
    - destruct Hq as (? & _). congruence.
    - destruct Hq as (_ & _ & Honly), Hq' as (_ & Hw & _).
      by specialize (Honly WHITE Hw). }
  rewrite <- !size_union by done.
  rewrite <- (size_set_seq (C := gset nat) 0 (n * n)). apply subseteq_size.
  intros q Hq. apply elem_of_set_seq. split; [lia|]. cbn. rewrite <- Hlen.
  apply elem_of_union in Hq as [Hq|Hq]; apply elem_of_union in Hq as [Hq|Hq].
  - by apply elem_of_cells in Hq as [? _]; lia.
  - apply HB in Hq as (Hq & _). by eapply lookup_lt_Some.
  - by apply elem_of_cells in Hq as [? _]; lia.
  - apply HW in Hq as (Hq & _). by eapply lookup_lt_Some.
Qed.

(** The winner [_finish_with_score] names on a board of at most nineteen
    lines with a komi of six and a half. *)
Lemma finish_winner g (black white : gset nat) :
  0 < board_size g → board_size g ≤ 19 →
  length (board g) = board_size g * board_size g → komi g = 6.5%float →
  (∀ q, q ∈ black ↔ territory (board_size g) (board g) BLACK q) →
  (∀ q, q ∈ white ↔ territory (board_size g) (board g) WHITE q) →
  winner (_finish_with_score g)
  = Some (if decide (count_stones (board g) (board_size g) WHITE + size white + 7
                     ≤ count_stones (board g) (board_size g) BLACK + size black)
          then BLACK else WHITE).
Proof.
  intros Hn Hmax Hlen Hkomi HB HW.
  pose proof (areas_fit _ _ _ _ HB HW Hlen) as Hfit.
  assert (board_size g * board_size g ≤ 361) as Hsq by nia.
  destruct (count_territory_sets g Hn Hlen) as (TB & TW & HTB & HTW & Hcount).
  assert (TB = black) as -> by (apply set_eq; intros q; by rewrite HTB, HB).
  assert (TW = white) as -> by (apply set_eq; intros q; by rewrite HTW, HW).
  unfold _finish_with_score. rewrite Hcount, Hkomi.
  destruct (komi_compare (count_stones (board g) (board_size g) BLACK + size black)
              (count_stones (board g) (board_size g) WHITE + size white)
              ltac:(lia) ltac:(lia)) as [-> ->].
  destruct g as [n pb pw bd ct cb cw mc lm kp fin win cp sb sw km bh lbs lc lp cu srb].
  go_fields. case_bool_decide as Hb; [by rewrite decide_True|].
  rewrite decide_False by done. rewrite bool_decide_eq_true_2 by lia. done.
Qed.

(** The size of the board and the komi are what [create_game] set. *)
Lemma setup_kept g o :
  board_size (apply_op g o) = board_size g ∧ komi (apply_op g o) = komi g.
Proof.
  destruct o as [p|p x y|p|p|p|p|p]; cbn [apply_op].
  - unfold join. repeat case_decide; cbn [snd]; try done. by destruct g.
  - destruct (go_make_move_inv g p x y)
      as [[_ ->]|(_ & _ & _ & _ & _ & _ & _ & b & captured & _ & _ & _ & ->)]; done.
  - destruct (pass_turn_inv g p) as [[_ ->]|(_ & _ & ->)]; [done|].
    destruct (finish_with_score_fields (set_is_finished true (passed g)))
      as (sb & sw & win & ->).
    case_decide; by destruct g.
  - destruct (decide (undo_allowed g p)) as [Hyes|Hno];
      [|by destruct (undo_fail g p Hno) as [_ ->]].
    destruct (last_board_state g) as [saved|] eqn:Hsv;
      [|by destruct Hyes as (_ & _ & ? & _)].
    by rewrite (undo_ok g p saved Hyes Hsv).
  - unfold request_score. destruct (is_finished g); [done|].
    case_decide; [done|]. destruct (score_request_by g).
    + case_decide; [done|]. cbv zeta. cbn [after].
      destruct (finish_with_score_fields (set_is_finished true g))
        as (sb & sw & win & ->).
      by destruct g.
    + cbn [after]. by destruct g.
  - unfold reject_score. destruct (score_request_by g); [|done].
    case_decide; [done|]. by destruct g.
  - unfold surrender. destruct (is_finished g); [done|].
    repeat case_decide; try done; by destruct g.
Qed.

Lemma reachable_setup g :
  reachable g → board_size g ≤ 19 ∧ komi g = 6.5%float.
Proof.
  induction 1 as [n p Hn|g o Hg IH].
  - split; [|done]. cbn. set_unfold. lia.
  - destruct (setup_kept g o) as [-> ->]. done.
Qed.

(** X27: the count never ends in a tie.  When a pass or a request for
    the count ends the game, the winner is black if the area of black, its
    stones and its territory, is at least seven more than the area of
    white, and white otherwise; the two areas share the cells of the
    board. *)
Theorem count_names_winner g p :
  reachable g →
  let n := board_size g in
  let b := board g in
  ∃ black white : gset nat,
    (∀ q, q ∈ black ↔ territory n b BLACK q) ∧
    (∀ q, q ∈ white ↔ territory n b WHITE q) ∧
    let area_black := count_stones b n BLACK + size black in
    let area_white := count_stones b n WHITE + size white in
    area_black + area_white ≤ n * n ∧
    ∀ r, r = pass_turn g p ∨ r = request_score g p →
         ok r = true → is_finished (after r) = true →
         winner (after r)
         = Some (if decide (area_white + 7 ≤ area_black) then BLACK else WHITE).
Proof.
  intros Hg. cbv zeta.
  destruct (reachable_setup g Hg) as [Hmax Hkomi].
  destruct (go_reachable_wf g Hg) as [Hn Hlen _ _ _].
  destruct (count_territory_sets g Hn Hlen) as (black & white & HB & HW & _).
  exists black, white. split; [done|]. split; [done|].
  split; [by apply areas_fit|].
  assert (∀ g0, board g0 = board g → board_size g0 = board_size g → komi g0 = komi g →
                winner (_finish_with_score g0)
                = Some (if decide (count_stones (board g) (board_size g) WHITE
                                   + size white + 7
                                   ≤ count_stones (board g) (board_size g) BLACK
                                     + size black)
                        then BLACK else WHITE)) as Hcount.
  { intros g0 Hb0 Hn0 Hk0. rewrite <- Hb0, <- Hn0.
    apply finish_winner; rewrite ?Hb0, ?Hn0, ?Hk0; done. }
  intros r [-> | ->] Hok Hfin.
  - destruct (pass_turn_inv g p) as [[Hno _]|(_ & Hopen & Heq)]; [congruence|].
    rewrite Heq in *. case_decide.
    + apply Hcount; by destruct g.
    + exfalso. clear -Hfin Hopen. destruct g. unfold passed in Hfin. go_fields.
      congruence.
  - unfold request_score in *. destruct (is_finished g) eqn:Hopen; [done|].
    case_decide; [done|]. destruct (score_request_by g) eqn:Hreq.
    + case_decide; [done|]. cbv zeta. cbn [after]. apply Hcount; by destruct g.
    + exfalso. cbn [after] in Hfin. clear -Hfin Hopen. destruct g. go_fields. congruence.
Qed.

Lemma count_names_winner_witness :
  winner (after (pass_turn (after (pass_turn opened_game "alice")) "bob")) = Some WHITE.
Proof.
  set (g := after (pass_turn opened_game "alice")).
  assert (reachable g) as Hg
    by (apply (reach_op opened_game (OpPass "alice")), opened_game_reachable).
  destruct (count_names_winner g "bob" Hg) as (black & white & HB & HW & Hfit & Hwin).
  rewrite (Hwin (pass_turn g "bob")); [|by left|vm_compute; reflexivity..].
  assert (count_stones (board g) (board_size g) BLACK = 0) as ->
    by (vm_compute; reflexivity).
  rewrite decide_False; [done|]. clear -HB.
  assert (size black = 0) as ->; [|lia].
  apply size_empty_iff, elem_of_equiv_empty.
  intros q (_ & (_ & m & r & _ & _ & Hr) & _)%HB.
  clear -Hr. apply list_elem_of_lookup_2 in Hr.
  change (board g) with (replicate 81 EMPTY) in Hr.
  apply elem_of_replicate in Hr as [? _]. done.
Defined.

End GoScoring.

(* ================================================================== *)
(** * The labels of the cells *)

Module CoordinateLabels.

(** The letter at index [x] of a string of labels, when there is one. *)
Lemma get_lt (labels : string) (x : nat) :
  is_Some (String.get x labels) ↔ x < String.length labels.
Proof.
  revert x. induction labels as [|a labels IH]; intros x; cbn.
  - split; [by intros [? ?]|lia].
  - destruct x as [|x]; [split; [lia|by eexists]|]. rewrite IH. lia.
Qed.

(** ** Gomoku *)

(** X24: the labels of gomoku run out after fourteen columns.
    [get_coordinate_label] fails on a cell exactly when the cell lies in
    column fifteen or beyond; when the engine accepts a move on a board of
    fifteen or nineteen lines in such a column, [last_move] is a cell
    without a label, which is the cell [get_status_text] asks the label
    of. *)
Theorem gomoku_labels_run_out g p x y :
  ok (Gomoku.make_move g p x y) = true →
  let g' := after (Gomoku.make_move g p x y) in
  ∃ pos, Gomoku.last_move g' = Some pos ∧
         (Gomoku.get_coordinate_label (Gomoku.board_size g) pos = None ↔ (14 ≤ x)%Z).
Proof.
  intros Hok. cbv zeta.
  destruct (GomokuInvariants.gomoku_move_counted g p x y Hok) as (_ & Hlast & _).
  destruct (GomokuFacts.gomoku_make_move_inv g p x y)
    as [[Hno _]|(_ & _ & Hrange%GomokuFacts.in_range_bounds & _)]; [congruence|].
  destruct Hrange as [Hx Hy].
  exists (Gomoku._xy_to_pos (Gomoku.board_size g) x y). split; [done|].
  unfold Gomoku.get_coordinate_label.
  rewrite GomokuFacts.pos_to_xy_to_pos by lia.
  pose proof (get_lt Gomoku.COLUMN_LABELS (Z.to_nat x)) as Hget.
  change (String.length Gomoku.COLUMN_LABELS) with 14 in Hget.
  destruct (String.get (Z.to_nat x) Gomoku.COLUMN_LABELS) as [letter|].
  - split; [done|]. intros Hge. assert (Z.to_nat x < 14) by (apply Hget; by eexists). lia.
  - split; [|done]. intros _.
    destruct (decide (14 ≤ x)%Z) as [?|Hlt]; [done|].
    assert (is_Some (@None Ascii.ascii)) as [? ?] by (apply Hget; lia). done.
Qed.

(** A board of fifteen lines on which Alice is to move. *)
Definition wide_game : Gomoku.GomokuGame :=
  foldl Gomoku.apply_op (Gomoku.new_game 15 "alice") [Gomoku.OpJoin "bob"].

Lemma gomoku_labels_run_out_witness :
  ∃ pos, Gomoku.last_move (after (Gomoku.make_move wide_game "alice" 14 7)) = Some pos ∧
         Gomoku.get_coordinate_label 15 pos = None.
Proof.
  destruct (gomoku_labels_run_out wide_game "alice" 14 7)
    as (pos & Hlast & Hnone); [vm_compute; reflexivity|].
  exists pos. split; [exact Hlast|]. apply Hnone. lia.
Defined.

(** ** Go *)

Lemma go_letters_distinct x x' :
  x < 19 → x' < 19 →
  String.get x Go.COLUMN_LABELS = String.get x' Go.COLUMN_LABELS → x = x'.
Proof.
  intros Hx Hx'.
  assert (Forall (λ a, Forall (λ a', String.get a Go.COLUMN_LABELS
                                     = String.get a' Go.COLUMN_LABELS → a = a')
                              (seq 0 19)) (seq 0 19)) as Hall
    by (apply (bool_decide_unpack _); vm_compute; exact I).
  apply (proj1 (Forall_forall _ _) (proj1 (Forall_forall _ _) Hall x ltac:(apply elem_of_seq; lia))).
  apply elem_of_seq. lia.
Qed.

(** X25: on a go board every cell has a label and no two cells share
    one.  For a board of at most nineteen lines [get_coordinate_label]
    succeeds on every cell, and cells with the same label are the same
    cell. *)
Theorem go_labels_distinct n pos pos' :
  0 < n → n ≤ 19 → pos < n * n → pos' < n * n →
  is_Some (Go.get_coordinate_label n pos) ∧
  (Go.get_coordinate_label n pos = Go.get_coordinate_label n pos' → pos = pos').
Proof.
  intros Hn Hmax Hpos Hpos'. unfold Go.get_coordinate_label, Go._pos_to_xy.
  pose proof (Nat.mod_upper_bound pos n ltac:(lia)) as Hx.
  pose proof (Nat.mod_upper_bound pos' n ltac:(lia)) as Hx'.
  pose proof (proj2 (get_lt Go.COLUMN_LABELS (pos mod n))) as Hget.
  pose proof (proj2 (get_lt Go.COLUMN_LABELS (pos' mod n))) as Hget'.
  change (String.length Go.COLUMN_LABELS) with 19 in Hget, Hget'.
  destruct Hget as [letter Hl]; [lia|]. destruct Hget' as [letter' Hl']; [lia|].
  rewrite Hl, Hl'. split; [by eexists|].
  intros [= Hletter Hrow].
  apply (inj pretty) in Hrow.
  assert (pos mod n = pos' mod n) as Hcol.
  { apply go_letters_distinct; [lia..|]. congruence. }
  rewrite (Nat.div_mod pos n), (Nat.div_mod pos' n) by lia.
  assert (pos / n = pos' / n) as -> by lia. by rewrite Hcol.
Qed.

Lemma go_labels_distinct_witness :
  is_Some (Go.get_coordinate_label 19 360) ∧
  Go.get_coordinate_label 9 0 ≠ Go.get_coordinate_label 9 1.
Proof.
  split.
  - by destruct (go_labels_distinct 19 360 360) as [Hsome _]; [lia..|].
  - intros Heq. destruct (go_labels_distinct 9 0 1) as [_ Hinj]; [lia..|].
    specialize (Hinj Heq). discriminate Hinj.
Defined.

End CoordinateLabels.
